(** * Top-down query evaluation (package [eval]): a shallow embedding

    The development follows the Go source of the evaluator function by
    function.  Go's [error] results, panics and possible non-termination are
    made explicit in the type [Res]; the continuation-passing style of the
    source ([TopDownIterator]) is kept, with the variables captured and
    assigned by closures threaded as explicit state.  Slices are lists and
    contexts are values: the evaluator copies a context before it changes
    it, except in [evalTermsIndexed], where the assignment is followed. *)

From Stdlib Require Import List ZArith String Bool Arith Lia.
Import ListNotations.

Set Warnings "-register-all".
Local Open Scope string_scope.
Local Open Scope list_scope.
Local Open Scope bool_scope.

(** ** Package [opalog]: the term model *)

Module opalog.

(** Modelled from the spec: the optional source location a term carries
    (the [opalog] package is not part of the sources at hand). *)
Record Location := mkLocation { Row : Z; Col : Z }.

(** Modelled from the spec: the sum type of policy values (section 3, "Term").
    [Number] is a float64 in the source; the evaluator only copies and
    compares numbers, and they are represented here by integers. *)
Inductive Value : Type :=
| Null
| Boolean (b : bool)
| Number (n : Z)
| String (s : string)
| Var (name : string)
| Ref (ts : list Term)
| Array (ts : list Term)
| Object (ps : list (Term * Term))
with Term : Type :=
| mkTerm (v : Value) (loc : option Location).

Definition TValue (t : Term) : Value := match t with mkTerm v _ => v end.
Definition TLocation (t : Term) : option Location :=
  match t with mkTerm _ l => l end.

Definition VarTerm (s : string) : Term := mkTerm (Var s) None.
Definition StringTerm (s : string) : Term := mkTerm (String s) None.
Definition NumberTerm (n : Z) : Term := mkTerm (Number n) None.
Definition EmptyRef : list Term := [].

(** Modelled from the spec: "A value is ground iff it contains no Variable";
    for a reference the head names the document root and only the selectors
    are inspected (the spec's plug and index rules rely on references with a
    [Var] head being ground). *)
Fixpoint IsGround (v : Value) : bool :=
  match v with
  | Var _ => false
  | Ref ts =>
      match ts with
      | [] => true
      | _ :: tl => forallb (fun t => match t with mkTerm x _ => IsGround x end) tl
      end
  | Array ts => forallb (fun t => match t with mkTerm x _ => IsGround x end) ts
  | Object ps =>
      forallb (fun p => match p with
                        | (mkTerm k _, mkTerm x _) => IsGround k && IsGround x
                        end) ps
  | _ => true
  end.

Definition TermIsGround (t : Term) : bool := IsGround (TValue t).

(** Modelled from the spec: structural equality, recursive through
    composites, source locations ignored; "object equality is
    order-insensitive on pairs". *)
Fixpoint Equal (a b : Value) {struct a} : bool :=
  match a, b with
  | Null, Null => true
  | Boolean x, Boolean y => Bool.eqb x y
  | Number x, Number y => Z.eqb x y
  | String x, String y => String.eqb x y
  | Var x, Var y => String.eqb x y
  | Ref xs, Ref ys =>
      (fix slice (xs ys : list Term) {struct xs} : bool :=
         match xs, ys with
         | [], [] => true
         | mkTerm x _ :: xs', y :: ys' => Equal x (TValue y) && slice xs' ys'
         | _, _ => false
         end) xs ys
  | Array xs, Array ys =>
      (fix slice (xs ys : list Term) {struct xs} : bool :=
         match xs, ys with
         | [], [] => true
         | mkTerm x _ :: xs', y :: ys' => Equal x (TValue y) && slice xs' ys'
         | _, _ => false
         end) xs ys
  | Object ps, Object qs =>
      Nat.eqb (List.length ps) (List.length qs) &&
      (fix pairs (ps : list (Term * Term)) : bool :=
         match ps with
         | [] => true
         | (mkTerm k _, mkTerm x _) :: ps' =>
             existsb (fun q => Equal k (TValue (fst q)) && Equal x (TValue (snd q))) qs
             && pairs ps'
         end) ps
  | _, _ => false
  end.

Definition TermEqual (s t : Term) : bool := Equal (TValue s) (TValue t).

(** Modelled from the spec: an expression is "{negated: bool, terms: Term |
    [Term, ...]}", a body an ordered list of expressions, a rule a name, an
    optional key term, a value term and a body (section 3; [Expr], [Body]
    and [Rule] belong to the [opalog] package). *)
Inductive ExprTerms : Type :=
| TermList (ts : list Term)
| SingleTerm (t : Term).

Record Expr := mkExpr { Negated : bool; Terms : ExprTerms }.

(** Modelled from the spec: the complement is the "non-negated copy" of an
    expression. *)
Definition Complement (e : Expr) : Expr := mkExpr false (Terms e).

Definition Body := list Expr.

Record Rule := mkRule
  { Name : string; Key : option Term; RValue : option Term; RBody : Body }.

Inductive DocKind := CompleteDoc | PartialSetDoc | PartialObjectDoc.

(** Modelled from the spec: complete = no key, partial set = key only,
    partial object = key and value. *)
Definition RuleDocKind (r : Rule) : DocKind :=
  match Key r, RValue r with
  | None, _ => CompleteDoc
  | Some _, None => PartialSetDoc
  | Some _, Some _ => PartialObjectDoc
  end.

End opalog.

Abbreviation Value := opalog.Value.
Abbreviation Term := opalog.Term.
Abbreviation TValue := opalog.TValue.
Abbreviation Rule := opalog.Rule.

(** ** Errors, panics and results *)

Inductive ErrCode := StorageNotFoundErr | StorageInternalErr.

(** Go values of type [interface{}] as the store and the query entry points
    produce them: JSON-shaped documents, or the rules found at a path.  A Go
    map is a list of entries with distinct keys; where the source ranges
    over a map, in an order Go leaves unspecified, the entries are visited
    in the order of the list. *)
Inductive Native : Type :=
| NNull
| NBool (b : bool)
| NNumber (n : Z)
| NString (s : string)
| NArray (xs : list Native)
| NMap (kvs : list (string * Native))
| NRules (rs : list Rule).

(** One constructor for each error the evaluator, the store or a caller's
    iterator can produce; the payload is what the message is formatted from. *)
Inductive Error : Type :=
| StorageError (code : ErrCode) (msg : string)
| ErrUnderlying (t : Term)
| ErrUnboundVariable (v : Value)
| ErrConvertNonStringKey (k : Native)
| ErrVariableKey (k : Term)
| ErrUnifyNonStringKey (k : Term)
| ErrImplicitCast (v : Value)
| ErrNonComposite (ref path : list Term)
| ErrNotImplemented (ref path : list Term) (rule : Rule)
| ErrCannotDereference (rule : Rule)
| ErrMissingIndex (ref : list Term)
| ErrIndexBuildFailed (cause : Error) (ref : list Term)
| ErrMultipleConflictingRules (name : string)
| ErrInvalidDocument (ref : list Term)
| ErrProduceNonStringKey (k : Native)
| ErrOther (msg : string).

(** The outcome of a Go call: a normal return, a returned error, a panic, or
    (for the functions defined by recursion on fuel) exhaustion of the fuel. *)
Inductive Res (A : Type) : Type :=
| Ok (a : A)
| Err (e : Error)
| Panic (msg : string)
| Diverge.
Arguments Ok {A} a.
Arguments Err {A} e.
Arguments Panic {A} msg.
Arguments Diverge {A}.

Definition res_bind {A B} (r : Res A) (k : A -> Res B) : Res B :=
  match r with
  | Ok a => k a
  | Err e => Err e
  | Panic m => Panic m
  | Diverge => Diverge
  end.

(** ** The bindings map *)

(** Modelled from the spec: the bindings map ([hashMap] is not part of the
    sources at hand), an associative structure from values to values whose
    keys are compared with [Equal]; [Put] overwrites the entry of an equal
    key.  Entries are kept, and iterated, in the order of their first
    insertion. *)
Definition hashMap := list (Value * Value).

Definition newHashMap : hashMap := [].

Fixpoint Get (h : hashMap) (k : Value) : option Value :=
  match h with
  | [] => None
  | (k', v) :: rest => if opalog.Equal k' k then Some v else Get rest k
  end.

Fixpoint Put (h : hashMap) (k v : Value) : hashMap :=
  match h with
  | [] => [(k, v)]
  | (k', v') :: rest =>
      if opalog.Equal k' k then (k', v) :: rest else (k', v') :: Put rest k v
  end.

(** [Iter] stops at the first entry for which the callback answers true. *)
Definition Iter (h : hashMap) (f : Value -> Value -> bool) : bool :=
  existsb (fun kv => f (fst kv) (snd kv)) h.

Definition Copy (h : hashMap) : hashMap := h.

(** [Update]: the entries of [other] win. *)
Definition Update (h other : hashMap) : hashMap :=
  fold_left (fun acc kv => Put acc (fst kv) (snd kv)) other (Copy h).

(** ** Substitution *)

Fixpoint plugValue (v : Value) (bindings : hashMap) {struct v} : Value :=
  match v with
  | opalog.Var _ =>
      match Get bindings v with
      | None => v
      | Some binding => binding
      end
  | opalog.Ref ts =>
      match Get bindings v with
      | Some binding => binding
      | None =>
          if opalog.IsGround v then v
          else match ts with
               | [] => v
               | head :: tl =>
                   opalog.Ref (head :: map (fun p => plugTerm p bindings) tl)
               end
      end
  | opalog.Array ts => opalog.Array (map (fun e => plugTerm e bindings) ts)
  | opalog.Object ps =>
      opalog.Object
        (map (fun e => match e with
                       | (k, x) => (plugTerm k bindings, plugTerm x bindings)
                       end) ps)
  | _ => v
  end
with plugTerm (term : Term) (bindings : hashMap) {struct term} : Term :=
  match term with
  | opalog.mkTerm v loc =>
      match v with
      | opalog.Var _ => opalog.mkTerm (plugValue v bindings) None
      | opalog.Ref _ | opalog.Array _ | opalog.Object _ =>
          opalog.mkTerm (plugValue v bindings) loc
      | _ => term
      end
  end.

(** [walkValue] calls the iterator on every scalar or variable inside the
    value, stopping at the first one for which it answers true. *)
Fixpoint walkValue (value : Value) (iter : Value -> bool) {struct value} : bool :=
  match value with
  | opalog.Ref ts =>
      existsb (fun x => match x with opalog.mkTerm y _ => walkValue y iter end) ts
  | opalog.Array ts =>
      existsb (fun x => match x with opalog.mkTerm y _ => walkValue y iter end) ts
  | opalog.Object ps =>
      existsb (fun i => match i with
                        | (opalog.mkTerm k _, opalog.mkTerm x _) =>
                            walkValue k iter || walkValue x iter
                        end) ps
  | _ => iter value
  end.

(** ** Storage, contexts and the evaluation monad *)

(** Modelled from the spec: an index yields, for a probed value, the binding
    deltas under which the indexed reference locates that value. *)
Record StoreIndex := mkStoreIndex { IndexIter : Native -> list hashMap }.

(** Modelled from the spec: the store interface the evaluator consumes
    ([Storage] is not part of the sources at hand).  [StoreGet] answers a
    path with a document, the rules found there, or an error;
    [IndicesBuild] is the index that building one for a reference yields on
    this store. *)
Record Storage := mkStorage
  { StoreGet : list Native -> Res Native;
    IndicesBuild : list Term -> Res StoreIndex }.

(** Modelled from the spec: the optional tracer, which "receives one event
    per evaluation step"; what it receives is kept in the [TraceLog] of the
    world below. *)
Record Tracer := mkTracer { Enabled : bool }.

(** [Index] is a Go int that starts at zero and is only ever incremented. *)
Inductive TopDownContext : Type :=
| mkContext (query : opalog.Body) (bindings : hashMap) (index : nat)
            (previous : option TopDownContext) (store : Storage)
            (tracer : option Tracer).

Definition Query (c : TopDownContext) := match c with mkContext q _ _ _ _ _ => q end.
Definition Bindings (c : TopDownContext) := match c with mkContext _ b _ _ _ _ => b end.
Definition Index (c : TopDownContext) := match c with mkContext _ _ i _ _ _ => i end.
Definition Previous (c : TopDownContext) := match c with mkContext _ _ _ p _ _ => p end.
Definition Store (c : TopDownContext) := match c with mkContext _ _ _ _ s _ => s end.
Definition CtxTracer (c : TopDownContext) := match c with mkContext _ _ _ _ _ t => t end.

Definition withBindings (c : TopDownContext) (b : hashMap) : TopDownContext :=
  mkContext (Query c) b (Index c) (Previous c) (Store c) (CtxTracer c).

Definition NewTopDownContext (query : opalog.Body) (store : Storage) : TopDownContext :=
  mkContext query newHashMap 0 None store None.

Definition BindRef (ctx : TopDownContext) (ref : list Term) (value : Value)
  : TopDownContext :=
  withBindings ctx (Put (Copy (Bindings ctx)) (opalog.Ref ref) value).

(** [BindVar] answers [None] for the nil context of the source. *)
Definition BindVar (ctx : TopDownContext) (variable : string) (value : Value)
  : option TopDownContext :=
  if opalog.Equal (opalog.Var variable) value then Some ctx
  else
    let occurs :=
      walkValue value (fun other =>
        if opalog.Equal (opalog.Var variable) other then true else false) in
    if occurs then None
    else
      let tmp := Put newHashMap (opalog.Var variable) value in
      let cpy :=
        fold_left (fun acc kv => Put acc (fst kv) (plugValue (snd kv) tmp))
                  (Bindings ctx) newHashMap in
      Some (withBindings ctx (Put cpy (opalog.Var variable) value)).

Definition Child (ctx : TopDownContext) (rule : Rule) (bindings : hashMap)
  : TopDownContext :=
  mkContext (opalog.RBody rule) bindings 0 (Some ctx) (Store ctx) (CtxTracer ctx).

(** [Current] panics in the source when the index is out of range. *)
Definition Current (ctx : TopDownContext) : Res opalog.Expr :=
  match nth_error (Query ctx) (Index ctx) with
  | Some e => Ok e
  | None => Panic "index out of range"
  end.

Definition Step (ctx : TopDownContext) : TopDownContext :=
  mkContext (Query ctx) (Bindings ctx) (S (Index ctx)) (Previous ctx)
            (Store ctx) (CtxTracer ctx).

Inductive TraceEvent :=
| TraceEval (e : opalog.Expr)
| TraceTry (e : opalog.Expr)
| TraceSuccess (e : opalog.Expr)
| TraceFinish (b : hashMap).

(** What evaluation shares through the store pointer and the tracer: the
    indices built so far and the lines traced so far.  The indices are those
    of the one store an evaluation runs on ([ctx.Store.Indices]): every
    context of an evaluation shares the store pointer of the first one. *)
Record World := mkWorld
  { Indices : list (list Term * StoreIndex);
    TraceLog : list TraceEvent }.

Definition emptyWorld : World := mkWorld [] [].

(** An evaluation step over the shared world and the variables [St] captured
    by the iterator in use. *)
Definition M (St : Type) : Type := World -> St -> World * St * Res unit.

Definition TopDownIterator (St : Type) : Type := TopDownContext -> M St.

Definition ret {St} (r : Res unit) : M St := fun w s => (w, s, r).

Definition nil {St} : M St := ret (Ok tt).

(** [a ;; b]: run [b] when [a] returned a nil error, else return what [a]
    returned. *)
Definition andThen {St} (a b : M St) : M St :=
  fun w s =>
    match a w s with
    | (w', s', Ok _) => b w' s'
    | out => out
    end.

Declare Scope eval_scope.
Delimit Scope eval_scope with eval.
Notation "a ;; b" := (andThen a b) (at level 61, right associativity) : eval_scope.

(** [x <- r ;;; k]: continue with the value of a call that may fail. *)
Definition withRes {St A} (r : Res A) (k : A -> M St) : M St :=
  match r with
  | Ok a => k a
  | Err e => ret (Err e)
  | Panic m => ret (Panic m)
  | Diverge => ret Diverge
  end.

Notation "x <- r ;;; k" := (withRes r (fun x => k))
  (at level 61, r at next level, right associativity) : eval_scope.

Local Open Scope eval_scope.

(** [for _, x := range l { if err := f(x); err != nil { return err } }]. *)
Fixpoint forEach {St A} (l : list A) (f : A -> M St) : M St :=
  match l with
  | [] => nil
  | x :: rest => f x ;; forEach rest f
  end.

Definition trace {St} (ctx : TopDownContext) (ev : TraceEvent) : M St :=
  fun w s =>
    match CtxTracer ctx with
    | None => (w, s, Ok tt)
    | Some t =>
        if Enabled t
        then (mkWorld (Indices w) (TraceLog w ++ [ev]), s, Ok tt)
        else (w, s, Ok tt)
    end.

Definition traceEval {St} (ctx : TopDownContext) : M St :=
  e <- Current ctx ;;; trace ctx (TraceEval e).
Definition traceTry {St} (ctx : TopDownContext) (expr : opalog.Expr) : M St :=
  trace ctx (TraceTry expr).
Definition traceSuccess {St} (ctx : TopDownContext) (expr : opalog.Expr) : M St :=
  trace ctx (TraceSuccess expr).
Definition traceFinish {St} (ctx : TopDownContext) : M St :=
  trace ctx (TraceFinish (Bindings ctx)).

(** Modelled from the spec: the underlying path of a reference, "head var +
    ground selectors", a sequence of strings and numbers. *)
Definition Underlying (ref : list Term) : Res (list Native) :=
  match ref with
  | [] => Ok []
  | head :: tl =>
      match TValue head with
      | opalog.Var s =>
          res_bind
            ((fix selectors (ts : list Term) : Res (list Native) :=
                match ts with
                | [] => Ok []
                | t :: ts' =>
                    match TValue t with
                    | opalog.String x =>
                        res_bind (selectors ts') (fun r => Ok (NString x :: r))
                    | opalog.Number n =>
                        res_bind (selectors ts') (fun r => Ok (NNumber n :: r))
                    | _ => Err (ErrUnderlying t)
                    end
                end) tl)
            (fun r => Ok (NString s :: r))
      | _ => Err (ErrUnderlying head)
      end
  end.

Definition lookup (store : Storage) (ref : list Term) : Res Native :=
  res_bind (Underlying ref) (fun path => StoreGet store path).

(** Assignment [buf[k] = v] to a Go map. *)
Fixpoint mapSet (m : list (string * Native)) (k : string) (v : Native)
  : list (string * Native) :=
  match m with
  | [] => [(k, v)]
  | (k', v') :: rest =>
      if String.eqb k' k then (k', v) :: rest else (k', v') :: mapSet rest k v
  end.

Fixpoint mapGet (m : list (string * Native)) (k : string) : option Native :=
  match m with
  | [] => None
  | (k', v) :: rest => if String.eqb k' k then Some v else mapGet rest k
  end.

Fixpoint ValueToInterface (v : Value) (ctx : TopDownContext) {struct v} : Res Native :=
  match v with
  | opalog.Null => Ok NNull
  | opalog.Boolean b => Ok (NBool b)
  | opalog.Number n => Ok (NNumber n)
  | opalog.String s => Ok (NString s)
  | opalog.Array ts =>
      res_bind
        ((fix elems (ts : list Term) : Res (list Native) :=
            match ts with
            | [] => Ok []
            | opalog.mkTerm x _ :: ts' =>
                res_bind (ValueToInterface x ctx) (fun x1 =>
                res_bind (elems ts') (fun buf => Ok (x1 :: buf)))
            end) ts)
        (fun buf => Ok (NArray buf))
  | opalog.Object ps =>
      (fix pairs (ps : list (Term * Term)) (buf : list (string * Native))
         : Res Native :=
         match ps with
         | [] => Ok (NMap buf)
         | (opalog.mkTerm k _, opalog.mkTerm x _) :: ps' =>
             res_bind (ValueToInterface k ctx) (fun k1 =>
             match k1 with
             | NString asStr =>
                 res_bind (ValueToInterface x ctx) (fun x1 =>
                 pairs ps' (mapSet buf asStr x1))
             | _ => Err (ErrConvertNonStringKey k1)
             end)
         end) ps []
  | opalog.Ref ts => lookup (Store ctx) ts
  | opalog.Var _ => Panic "illegal argument"
  end.

(** Modelled from the spec: values are compared "after conversion to a
    language-neutral JSON representation"; [CompareEq a b] stands for
    [Compare(a, b) == 0]. *)
Fixpoint CompareEq (a b : Native) {struct a} : bool :=
  match a, b with
  | NNull, NNull => true
  | NBool x, NBool y => Bool.eqb x y
  | NNumber x, NNumber y => Z.eqb x y
  | NString x, NString y => String.eqb x y
  | NArray xs, NArray ys =>
      (fix elems (xs ys : list Native) {struct xs} : bool :=
         match xs, ys with
         | [], [] => true
         | x :: xs', y :: ys' => CompareEq x y && elems xs' ys'
         | _, _ => false
         end) xs ys
  | NMap xs, NMap ys =>
      Nat.eqb (List.length xs) (List.length ys) &&
      (fix entries (xs : list (string * Native)) : bool :=
         match xs with
         | [] => true
         | (k, x) :: xs' =>
             match mapGet ys k with
             | Some y => CompareEq x y
             | None => false
             end && entries xs'
         end) xs
  | _, _ => false
  end.

Definition dereferenceVar (v : string) (ctx : TopDownContext) : Res Native :=
  match Get (Bindings ctx) (opalog.Var v) with
  | None => Err (ErrUnboundVariable (opalog.Var v))
  | Some binding => ValueToInterface binding ctx
  end.

(** ** The evaluator, one level of recursion at a time

    The evaluator of the source is a family of mutually recursive functions
    whose recursion is not structural (rule bodies come from the store,
    plugged values can grow).  Each function is written here as in the
    source, with its calls into the recursive cycles going through a record
    [Evaluator] of the functions "with one unit of fuel less"; [evaluator]
    below ties the knot by recursion on the fuel. *)

Record Evaluator := mkEvaluator
  { call_evalContext :
      forall St, TopDownContext -> TopDownIterator St -> M St;
    call_evalRefRec :
      forall St, TopDownContext -> list Term -> TopDownIterator St ->
                 list Term -> M St;
    call_evalTermsRec :
      forall St, TopDownContext -> TopDownIterator St -> list Term -> M St;
    call_evalTermsRecArray :
      forall St, TopDownContext -> list Term -> nat -> TopDownIterator St -> M St;
    call_evalTermsRecObject :
      forall St, TopDownContext -> list (Term * Term) -> nat ->
                 TopDownIterator St -> M St;
    call_evalEqUnify :
      forall St, TopDownContext -> Value -> Value -> TopDownIterator St -> M St }.

(** [err := f(..., closure); if err != nil { return err }; k(captured)]:
    run [m] over the variables [l0] its closure captures, the caller's own
    captured variables left as they are, and continue with their final
    values. *)
Definition capture {St L} (l0 : L) (m : M L) (k : L -> M St) : M St :=
  fun w s =>
    match m w l0 with
    | (w', l, Ok _) => k l w' s
    | (w', _, Err e) => (w', s, Err e)
    | (w', _, Panic msg) => (w', s, Panic msg)
    | (w', _, Diverge) => (w', s, Diverge)
    end.

(** The closure [func(ctx) error { tmp = ctx; return nil }]. *)
Definition setTmp : TopDownIterator (option TopDownContext) :=
  fun ctx w _ => (w, Some ctx, Ok tt).

Section Unification.

Context (E : Evaluator).

Definition evalEqUnifyVar {St} (ctx : TopDownContext) (a : string) (b : Value)
  (iter : TopDownIterator St) : M St :=
  match BindVar ctx a b with
  | None => nil
  | Some ctx' => iter ctx'
  end.

Definition evalEqGround {St} (ctx : TopDownContext) (a b : Value)
  (iter : TopDownIterator St) : M St :=
  av <- ValueToInterface a ctx ;;;
  bv <- ValueToInterface b ctx ;;;
  if CompareEq av bv then iter ctx else nil.

Definition evalEqUnifyArrayRef {St} (ctx : TopDownContext) (a : list Term)
  (b : list Term) (iter : TopDownIterator St) : M St :=
  r <- lookup (Store ctx) b ;;;
  match r with
  | NArray slice =>
      if negb (Nat.eqb (List.length a) (List.length slice)) then nil
      else
        (fix loop (i : nat) (elems : list Term) (ctx : TopDownContext) : M St :=
           match elems with
           | [] => iter ctx
           | ai :: rest =>
               let child := b ++ [opalog.NumberTerm (Z.of_nat i)] in
               capture None
                 (call_evalEqUnify E _ ctx (TValue ai) (opalog.Ref child) setTmp)
                 (fun tmp =>
                    match tmp with
                    | None => nil
                    | Some ctx' => loop (S i) rest ctx'
                    end)
           end) 0 a ctx
  | _ => nil
  end.

Definition evalEqUnifyArrays {St} (ctx : TopDownContext) (a b : list Term)
  (iter : TopDownIterator St) : M St :=
  if negb (Nat.eqb (List.length a) (List.length b)) then nil
  else
    (fix loop (ab : list (Term * Term)) (ctx : TopDownContext) : M St :=
       match ab with
       | [] => iter ctx
       | (ai, bi) :: rest =>
           capture None
             (call_evalEqUnify E _ ctx (TValue ai) (TValue bi) setTmp)
             (fun tmp =>
                match tmp with
                | None => nil
                | Some ctx' => loop rest ctx'
                end)
       end) (combine a b) ctx.

Definition evalEqUnifyArray {St} (ctx : TopDownContext) (a : list Term)
  (b : Value) (iter : TopDownIterator St) : M St :=
  match b with
  | opalog.Var x => evalEqUnifyVar ctx x (opalog.Array a) iter
  | opalog.Ref r => evalEqUnifyArrayRef ctx a r iter
  | opalog.Array bs => evalEqUnifyArrays ctx a bs iter
  | _ => nil
  end.

(** The first key, in the order [a[0], b[0], a[1], b[1], ...], that is not
    ground. *)
Fixpoint firstVariableKey (ab : list ((Term * Term) * (Term * Term)))
  : option Term :=
  match ab with
  | [] => None
  | (ai, bi) :: rest =>
      if negb (opalog.TermIsGround (fst ai)) then Some (fst ai)
      else if negb (opalog.TermIsGround (fst bi)) then Some (fst bi)
      else firstVariableKey rest
  end.

Definition evalEqUnifyObjects {St} (ctx : TopDownContext)
  (a b : list (Term * Term)) (iter : TopDownIterator St) : M St :=
  if negb (Nat.eqb (List.length a) (List.length b)) then nil
  else
    match firstVariableKey (combine a b) with
    | Some k => ret (Err (ErrVariableKey k))
    | None =>
        (fix outer (ps : list (Term * Term)) (ctx : TopDownContext) : M St :=
           match ps with
           | [] => iter ctx
           | ai :: rest =>
               capture None
                 ((fix inner (qs : list (Term * Term))
                     : M (option TopDownContext) :=
                     match qs with
                     | [] => nil
                     | bj :: qs' =>
                         if opalog.TermEqual (fst bj) (fst ai) then
                           call_evalEqUnify E _ ctx (TValue (snd ai))
                                            (TValue (snd bj)) setTmp ;;
                           (fun w tmp =>
                              match tmp with
                              | None => (w, tmp, Ok tt)
                              | Some _ => inner qs' w tmp
                              end)
                         else inner qs'
                     end) b)
                 (fun tmp =>
                    match tmp with
                    | None => nil
                    | Some ctx' => outer rest ctx'
                    end)
           end) a ctx
    end.

Definition evalEqUnifyObjectRef {St} (ctx : TopDownContext)
  (a : list (Term * Term)) (b : list Term) (iter : TopDownIterator St) : M St :=
  r <- lookup (Store ctx) b ;;;
  match find (fun ai => negb (opalog.TermIsGround (fst ai))) a with
  | Some ai => ret (Err (ErrVariableKey (fst ai)))
  | None =>
      match r with
      | NMap obj =>
          if negb (Nat.eqb (List.length obj) (List.length a)) then nil
          else
            (fix loop (ps : list (Term * Term)) (ctx : TopDownContext) : M St :=
               match ps with
               | [] => iter ctx
               | ai :: rest =>
                   match TValue (fst ai) with
                   | opalog.String k =>
                       match mapGet obj k with
                       | None => nil
                       | Some _ =>
                           let child := b ++ [fst ai] in
                           capture None
                             (call_evalEqUnify E _ ctx (TValue (snd ai))
                                               (opalog.Ref child) setTmp)
                             (fun tmp =>
                                match tmp with
                                | None => nil
                                | Some ctx' => loop rest ctx'
                                end)
                       end
                   | _ => ret (Err (ErrUnifyNonStringKey (fst ai)))
                   end
               end) a ctx
      | _ => nil
      end
  end.

Definition evalEqUnifyObject {St} (ctx : TopDownContext)
  (a : list (Term * Term)) (b : Value) (iter : TopDownIterator St) : M St :=
  match b with
  | opalog.Var x => evalEqUnifyVar ctx x (opalog.Object a) iter
  | opalog.Ref r => evalEqUnifyObjectRef ctx a r iter
  | opalog.Object bs => evalEqUnifyObjects ctx a bs iter
  | _ => nil
  end.

Definition evalEqUnify {St} (ctx : TopDownContext) (a b : Value)
  (iter : TopDownIterator St) : M St :=
  let a := plugValue a (Bindings ctx) in
  let b := plugValue b (Bindings ctx) in
  match a with
  | opalog.Var x => evalEqUnifyVar ctx x b iter
  | opalog.Object ps => evalEqUnifyObject ctx ps b iter
  | opalog.Array ts => evalEqUnifyArray ctx ts b iter
  | _ =>
      match b with
      | opalog.Var y => evalEqUnifyVar ctx y a iter
      | opalog.Array ts => evalEqUnifyArray ctx ts a iter
      | opalog.Object ps => evalEqUnifyObject ctx ps a iter
      | _ => evalEqGround ctx a b iter
      end
  end.

End Unification.

(** ** Rule results and references *)

Definition keysSet (keys : list (string * Value)) (k : string) (v : Value)
  : list (string * Value) :=
  (fix set (m : list (string * Value)) : list (string * Value) :=
     match m with
     | [] => [(k, v)]
     | (k', v') :: rest =>
         if String.eqb k' k then (k', v) :: rest else (k', v') :: set rest
     end) keys.

(** Modelled from the spec: [Array::query] and [Object::query] "enumerate
    every position satisfying the selector, recursively descending", and
    yield for each hit the values chosen for the variable selectors and the
    value found.  The hits are listed in the order they are yielded. *)
Fixpoint queryRec (ref : list Term) (v : Value) (keys : list (string * Value))
  {struct ref} : list (list (string * Value) * Value) :=
  match ref with
  | [] => [(keys, v)]
  | head :: tail =>
      match v with
      | opalog.Array arr =>
          match TValue head with
          | opalog.Var x =>
              List.concat
                (map (fun ie =>
                        queryRec tail (TValue (snd ie))
                                 (keysSet keys x (opalog.Number (Z.of_nat (fst ie)))))
                     (combine (seq 0 (List.length arr)) arr))
          | opalog.Number n =>
              if (n <? 0)%Z then []
              else match nth_error arr (Z.to_nat n) with
                   | Some e => queryRec tail (TValue e) keys
                   | None => []
                   end
          | _ => []
          end
      | opalog.Object obj =>
          match TValue head with
          | opalog.Var x =>
              List.concat
                (map (fun p =>
                        queryRec tail (TValue (snd p))
                                 (keysSet keys x (TValue (fst p))))
                     obj)
          | k =>
              match find (fun p => opalog.Equal (TValue (fst p)) k) obj with
              | Some p => queryRec tail (TValue (snd p)) keys
              | None => []
              end
          end
      | _ => []
      end
  end.

Definition QueryHits (result : Value) (ref : list Term)
  : list (list (string * Value) * Value) :=
  queryRec ref result [].

(** Method calls on a context pointer that may be nil.  [BindVar] returns its
    receiver or nil before it first dereferences it; [BindRef] dereferences
    it at once. *)
Definition nilPanic {A} : Res A := Panic "nil pointer dereference".

Definition BindVarOn (ctx : option TopDownContext) (variable : string)
  (value : Value) : Res (option TopDownContext) :=
  match ctx with
  | Some c => Ok (BindVar c variable value)
  | None =>
      if opalog.Equal (opalog.Var variable) value then Ok None
      else if walkValue value (fun other =>
                if opalog.Equal (opalog.Var variable) other then true else false)
      then Ok None
      else nilPanic
  end.

Definition BindRefOn (ctx : option TopDownContext) (ref : list Term)
  (value : Value) : Res TopDownContext :=
  match ctx with
  | Some c => Ok (BindRef c ref value)
  | None => nilPanic
  end.

(** Every iterator the evaluator builds, and [evalContext] ahead of any
    caller's iterator, reads a field of the context before anything else:
    handing them nil is a panic. *)
Definition callIter {St} (iter : TopDownIterator St)
  (ctx : option TopDownContext) : M St :=
  match ctx with
  | Some c => iter c
  | None => ret nilPanic
  end.

(** [ref[n:]], which panics when [n] exceeds the length. *)
Definition sliceFrom (ref : list Term) (n : nat) : Res (list Term) :=
  if Nat.ltb (List.length ref) n then Panic "slice bounds out of range"
  else Ok (skipn n ref).

Definition isNotFound (err : Error) : bool :=
  match err with
  | StorageError StorageNotFoundErr _ => true
  | _ => false
  end.

(** Running an iterator-taking call whose closure assigns a captured
    variable of type [L] next to the caller's own. *)
Definition withCaptured {St L} (l0 : L) (m : M (St * L)) : M St :=
  fun w s =>
    match m w (s, l0) with
    | (w', (s', _), r) => (w', s', r)
    end.

(** Inside such a closure: a step over the caller's variables that leaves
    the captured one at [l]. *)
Definition assigning {St L} (l : L) (m : M St) : M (St * L) :=
  fun w sl =>
    match m w (fst sl) with
    | (w', s', r) => (w', (s', l), r)
    end.

(** Inside such a closure: reading the captured variable. *)
Definition captured {St L} (f : L -> M (St * L)) : M (St * L) :=
  fun w sl => f (snd sl) w sl.

(** A callback inside an enumeration whose error result is dropped by the
    caller: a nil error goes on with [next], an error stops the enumeration
    with a nil error, a panic is a panic. *)
Definition orStop {St} (m next : M St) : M St :=
  fun w s =>
    match m w s with
    | (w', s', Ok _) => next w' s'
    | (w', s', Err _) => (w', s', Ok tt)
    | out => out
    end.

(** A call that reads or extends what the store pointer shares. *)
Definition inWorld {St A} (f : World -> World * Res A) (k : A -> M St) : M St :=
  fun w s =>
    match f w with
    | (w', Ok a) => k a w' s
    | (w', Err err) => (w', s, Err err)
    | (w', Panic msg) => (w', s, Panic msg)
    | (w', Diverge) => (w', s, Diverge)
    end.

Section References.

Context (E : Evaluator).

Definition evalRefRuleResult {St} (ctx : option TopDownContext)
  (ref suffix : list Term) (result : Value) (iter : TopDownIterator St) : M St :=
  match result with
  | opalog.Ref rs =>
      let binding := rs ++ suffix in
      match ctx with
      | None => ret nilPanic
      | Some ctx =>
          call_evalRefRec E _ ctx suffix
            (fun ctx =>
               let ctx := BindRef ctx ref
                            (plugValue (opalog.Ref binding) (Bindings ctx)) in
               iter ctx)
            rs
      end
  | opalog.Array _ | opalog.Object _ =>
      if Nat.ltb 0 (List.length suffix) then
        match ctx with
        | None => ret nilPanic
        | Some ctx0 =>
            let pluggedSuffix :=
              map (fun t => plugTerm t (Bindings ctx0)) suffix in
            (* the callback assigns the captured [ctx]; an error it returns
               stops the enumeration and is then ignored *)
            (fix each (hits : list (list (string * Value) * Value))
                 (ctx : option TopDownContext) : M St :=
               match hits with
               | [] => nil
               | (keys, value) :: rest =>
                   c1 <- BindRefOn ctx ref value ;;;
                   c2 <- fold_left
                           (fun acc kv =>
                              res_bind acc (fun c => BindVarOn c (fst kv) (snd kv)))
                           keys (Ok (Some c1)) ;;;
                   orStop (callIter iter c2) (each rest c2)
               end) (QueryHits result pluggedSuffix) (Some ctx0)
        end
      else ret (Panic "illegal value")
  | _ =>
      if Nat.ltb 0 (List.length suffix) then nil
      else
        ctx <- BindRefOn ctx ref result ;;;
        iter ctx
  end.

Definition evalRefRuleCompleteDoc {St} (ctx : TopDownContext)
  (ref path : list Term) (rule : Rule) (iter : TopDownIterator St) : M St :=
  suffix <- sliceFrom ref (List.length path) ;;;
  if Nat.eqb (List.length suffix) 0 then ret (Err (ErrNotImplemented ref path rule))
  else
    let bindings := newHashMap in
    let child := Child ctx rule bindings in
    call_evalContext E _ child
      (fun child =>
         match opalog.RValue rule with
         | None => ret nilPanic
         | Some value =>
             match TValue value with
             | opalog.Object _ as v => evalRefRuleResult (Some ctx) ref suffix v iter
             | opalog.Array _ as v => evalRefRuleResult (Some ctx) ref suffix v iter
             | _ => ret (Err (ErrCannotDereference rule))
             end
         end).

Definition evalRefRulePartialObjectDoc {St} (ctx : TopDownContext)
  (ref path : list Term) (rule : Rule) (iter : TopDownIterator St) : M St :=
  suffix <- sliceFrom ref (List.length path) ;;;
  match suffix with
  | [] => ret (Err (ErrNotImplemented ref path rule))
  | suffix0 :: _ =>
      let key := plugValue (TValue suffix0) (Bindings ctx) in
      if negb (opalog.IsGround key) then
        let child := Child ctx rule newHashMap in
        withCaptured (Some ctx)
          (call_evalContext E _ child
             (fun child =>
                captured (fun ctx =>
                  ruleKey <- match opalog.Key rule with
                             | Some k => Ok k | None => nilPanic end ;;;
                  match Get (Bindings child) (TValue ruleKey) with
                  | None => ret (Err (ErrUnboundVariable (TValue ruleKey)))
                  | Some key =>
                      ruleValue <- match opalog.RValue rule with
                                   | Some v => Ok v | None => nilPanic end ;;;
                      match Get (Bindings child) (TValue ruleValue) with
                      | None => ret (Err (ErrUnboundVariable (TValue ruleValue)))
                      | Some value =>
                          match TValue suffix0 with
                          | opalog.Var x =>
                              ctx <- BindVarOn ctx x key ;;;
                              rest <- sliceFrom ref (List.length path + 1) ;;;
                              assigning ctx
                                (evalRefRuleResult ctx ref rest value iter)
                          | _ => ret (Panic "interface conversion")
                          end
                      end
                  end)))
      else
        ruleKey <- match opalog.Key rule with
                   | Some k => Ok k | None => nilPanic end ;;;
        let bindings := Put newHashMap (TValue ruleKey) key in
        let child := Child ctx rule bindings in
        call_evalContext E _ child
          (fun child =>
             ruleValue <- match opalog.RValue rule with
                          | Some v => Ok v | None => nilPanic end ;;;
             match Get (Bindings child) (TValue ruleValue) with
             | None => ret (Err (ErrUnboundVariable (TValue ruleValue)))
             | Some value =>
                 rest <- sliceFrom ref (List.length path + 1) ;;;
                 evalRefRuleResult (Some ctx) ref rest value iter
             end)
  end.

Definition evalRefRulePartialSetDoc {St} (ctx : TopDownContext)
  (ref path : list Term) (rule : Rule) (iter : TopDownIterator St) : M St :=
  suffix <- sliceFrom ref (List.length path) ;;;
  match suffix with
  | [] => ret (Err (ErrNotImplemented ref path rule))
  | suffix0 :: _ =>
      if Nat.ltb 1 (List.length suffix) then nil
      else
        let key := plugValue (TValue suffix0) (Bindings ctx) in
        if negb (opalog.IsGround key) then
          let child := Child ctx rule newHashMap in
          withCaptured (Some ctx)
            (call_evalContext E _ child
               (fun child =>
                  captured (fun ctx =>
                    ruleKey <- match opalog.Key rule with
                               | Some k => Ok k | None => nilPanic end ;;;
                    match Get (Bindings child) (TValue ruleKey) with
                    | None => ret (Err (ErrUnboundVariable (TValue ruleKey)))
                    | Some value =>
                        match key with
                        | opalog.Var x =>
                            ctx <- BindVarOn ctx x value ;;;
                            ctx <- BindRefOn ctx (firstn (List.length path + 1) ref)
                                             (opalog.Boolean true) ;;;
                            assigning (Some ctx) (iter ctx)
                        | _ => ret (Panic "interface conversion")
                        end
                    end)))
        else
          ruleKey <- match opalog.Key rule with
                     | Some k => Ok k | None => nilPanic end ;;;
          let bindings := Put newHashMap (TValue ruleKey) key in
          let child := Child ctx rule bindings in
          withCaptured ctx
            (call_evalContext E _ child
               (fun child =>
                  captured (fun ctx =>
                    let ctx := BindRef ctx (firstn (List.length path + 1) ref)
                                       (opalog.Boolean true) in
                    assigning ctx (iter ctx))))
  end.

Definition evalRefRule {St} (ctx : TopDownContext) (ref path : list Term)
  (rule : Rule) (iter : TopDownIterator St) : M St :=
  match opalog.RuleDocKind rule with
  | opalog.PartialSetDoc => evalRefRulePartialSetDoc ctx ref path rule iter
  | opalog.PartialObjectDoc => evalRefRulePartialObjectDoc ctx ref path rule iter
  | opalog.CompleteDoc => evalRefRuleCompleteDoc ctx ref path rule iter
  end.

Definition evalRefRec {St} (ctx : TopDownContext) (ref : list Term)
  (iter : TopDownIterator St) (path : list Term) : M St :=
  match ref with
  | [] =>
      match lookup (Store ctx) path with
      | Err err => if isNotFound err then nil else ret (Err err)
      | Ok _ => iter ctx
      | Panic msg => ret (Panic msg)
      | Diverge => ret Diverge
      end
  | head :: tail =>
      match TValue head with
      | opalog.Var headVar =>
          if Nat.eqb (List.length path) 0 then
            (* Handle head of reference. *)
            match Get (Bindings ctx) (opalog.Var headVar) with
            | Some binding => evalRefRuleResult (Some ctx) ref tail binding iter
            | None =>
                let path := path ++ [head] in
                match lookup (Store ctx) path with
                | Err err => if isNotFound err then nil else ret (Err err)
                | Ok (NRules node) =>
                    forEach node (fun rule => evalRefRule ctx ref path rule iter)
                | Ok _ => call_evalRefRec E _ ctx tail iter path
                | Panic msg => ret (Panic msg)
                | Diverge => ret Diverge
                end
            end
          else
            match Get (Bindings ctx) (opalog.Var headVar) with
            | Some binding =>
                (* Binding already exists for variable. Treat it as a constant. *)
                call_evalRefRec E _ ctx tail iter
                                (path ++ [opalog.mkTerm binding None])
            | None =>
                match lookup (Store ctx) path with
                | Err err => if isNotFound err then nil else ret (Err err)
                | Ok (NMap node) =>
                    forEach node
                      (fun kv =>
                         let key := fst kv in
                         callIter
                           (fun cpy =>
                              call_evalRefRec E _ cpy tail iter
                                (path ++ [opalog.StringTerm key]))
                           (BindVar ctx headVar (opalog.String key)))
                | Ok (NArray node) =>
                    forEach (seq 0 (List.length node))
                      (fun i =>
                         callIter
                           (fun cpy =>
                              call_evalRefRec E _ cpy tail iter
                                (path ++ [opalog.NumberTerm (Z.of_nat i)]))
                           (BindVar ctx headVar (opalog.Number (Z.of_nat i))))
                | Ok _ => ret (Err (ErrNonComposite ref path))
                | Panic msg => ret (Panic msg)
                | Diverge => ret Diverge
                end
            end
      | _ =>
          (* Handle constants in reference. *)
          call_evalRefRec E _ ctx tail iter (path ++ [head])
      end
  end.

Definition evalRef {St} (ctx : TopDownContext) (ref : list Term)
  (iter : TopDownIterator St) : M St :=
  evalRefRec ctx ref iter opalog.EmptyRef.

End References.

(** ** Terms, expressions and the proof search *)

Definition equalityBuiltin : Value := opalog.Var "=".

(** [ctx.Store.Indices.Get(ref)], for the store of the evaluation. *)
Definition indicesGet (w : World) (ref : list Term) : option StoreIndex :=
  match find (fun e => opalog.Equal (opalog.Ref (fst e)) (opalog.Ref ref))
             (Indices w) with
  | Some e => Some (snd e)
  | None => None
  end.

Definition plugExpr (expr : opalog.Expr) (bindings : hashMap) : Res opalog.Expr :=
  match opalog.Terms expr with
  | opalog.TermList ts =>
      match ts with
      | [] => Panic "index out of range"
      | t0 :: rest =>
          Ok (opalog.mkExpr (opalog.Negated expr)
                (opalog.TermList (t0 :: map (fun term => plugTerm term bindings) rest)))
      end
  | opalog.SingleTerm ts =>
      Ok (opalog.mkExpr (opalog.Negated expr)
            (opalog.SingleTerm (plugTerm ts bindings)))
  end.

Definition termAt (ts : list Term) (i : nat) : Res Term :=
  match nth_error ts i with
  | Some t => Ok t
  | None => Panic "index out of range"
  end.

Definition isRef (v : Value) : bool :=
  match v with opalog.Ref _ => true | _ => false end.

Definition indexAvailable (ctx : TopDownContext) (terms : list Term) : Res bool :=
  res_bind (termAt terms 0) (fun t0 =>
  if negb (opalog.Equal (TValue t0) equalityBuiltin) then Ok false
  else
    res_bind (termAt terms 1) (fun t1 =>
    res_bind (termAt terms 2) (fun t2 =>
    let pluggedA := plugTerm t1 (Bindings ctx) in
    let pluggedB := plugTerm t2 (Bindings ctx) in
    let isRefA := isRef (TValue pluggedA) in
    let isRefB := isRef (TValue pluggedB) in
    if isRefA && negb (opalog.TermIsGround pluggedA)
    then Ok (opalog.TermIsGround pluggedB || isRefB)
    else if isRefB && negb (opalog.TermIsGround pluggedB)
    then Ok (opalog.TermIsGround pluggedA || isRefA)
    else Ok false))).

(** [indexBuildLazy] reads and extends the indices of the store. *)
Definition indexBuildLazy (ctx : TopDownContext) (ref : list Term) (w : World)
  : World * Res bool :=
  if opalog.IsGround (opalog.Ref ref) then (w, Ok false)
  else
    match indicesGet w ref with
    | Some _ => (w, Ok true)
    | None =>
        match ref with
        | [] => (w, Panic "index out of range")
        | ref0 :: rest =>
            match Get (Bindings ctx) (TValue ref0) with
            | Some _ => (w, Ok false)
            | None =>
                let build :=
                  match IndicesBuild (Store ctx) ref with
                  | Ok idx =>
                      (mkWorld (Indices w ++ [(ref, idx)]) (TraceLog w), Ok true)
                  | Err err => (w, Err err)
                  | Panic msg => (w, Panic msg)
                  | Diverge => (w, Diverge)
                  end in
                (fix virtual (ps : list Term) (tmp : list Term)
                   : World * Res bool :=
                   match ps with
                   | [] => build
                   | p :: ps' =>
                       let path := match Underlying tmp with
                                   | Ok path => path
                                   | _ => []
                                   end in
                       match StoreGet (Store ctx) path with
                       | Err err => (w, Err err)
                       | Panic msg => (w, Panic msg)
                       | Diverge => (w, Diverge)
                       | Ok (NRules _) => (w, Ok false)
                       | Ok _ =>
                           if negb (opalog.IsGround (TValue p)) then build
                           else virtual ps' (tmp ++ [p])
                       end
                   end) rest [ref0]
            end
        end
    end.

Section ProofSearch.

Context (E : Evaluator).

Definition evalTermsRecArray {St} (ctx : TopDownContext) (arr : list Term)
  (idx : nat) (iter : TopDownIterator St) : M St :=
  match nth_error arr idx with
  | None => iter ctx
  | Some t =>
      match TValue t with
      | opalog.Ref v =>
          evalRef E ctx v
            (fun ctx => call_evalTermsRecArray E _ ctx arr (idx + 1) iter)
      | opalog.Array v =>
          call_evalTermsRecArray E _ ctx v 0
            (fun ctx => call_evalTermsRecArray E _ ctx arr (idx + 1) iter)
      | opalog.Object v =>
          call_evalTermsRecObject E _ ctx v 0
            (fun ctx => call_evalTermsRecArray E _ ctx arr (idx + 1) iter)
      | _ => call_evalTermsRecArray E _ ctx arr (idx + 1) iter
      end
  end.

Definition evalTermsRecObject {St} (ctx : TopDownContext)
  (obj : list (Term * Term)) (idx : nat) (iter : TopDownIterator St) : M St :=
  match nth_error obj idx with
  | None => iter ctx
  | Some (k, x) =>
      let value (ctx : TopDownContext) : M St :=
        match TValue x with
        | opalog.Ref v =>
            evalRef E ctx v
              (fun ctx => call_evalTermsRecObject E _ ctx obj (idx + 1) iter)
        | opalog.Array v =>
            evalTermsRecArray ctx v 0
              (fun ctx => call_evalTermsRecObject E _ ctx obj (idx + 1) iter)
        | opalog.Object v =>
            call_evalTermsRecObject E _ ctx v 0
              (fun ctx => call_evalTermsRecObject E _ ctx obj (idx + 1) iter)
        | _ => call_evalTermsRecObject E _ ctx obj (idx + 1) iter
        end in
      match TValue k with
      | opalog.Ref k => evalRef E ctx k (fun ctx => value ctx)
      | _ => value ctx
      end
  end.

Definition evalTermsRec {St} (ctx : TopDownContext) (iter : TopDownIterator St)
  (ts : list Term) : M St :=
  match ts with
  | [] => iter ctx
  | head :: tail =>
      match TValue head with
      | opalog.Ref head =>
          evalRef E ctx head (fun ctx => call_evalTermsRec E _ ctx iter tail)
      | opalog.Array head =>
          evalTermsRecArray ctx head 0
            (fun ctx => call_evalTermsRec E _ ctx iter tail)
      | opalog.Object head =>
          evalTermsRecObject ctx head 0
            (fun ctx => call_evalTermsRec E _ ctx iter tail)
      | _ => call_evalTermsRec E _ ctx iter tail
      end
  end.

(** The iterator of the index assigns [ctx.Bindings] in place, so that the
    deltas accumulate over one enumeration of the index. *)
Definition evalTermsIndexed {St} (ctx : TopDownContext)
  (iter : TopDownIterator St) (indexed : list Term) (nonIndexed : Term) : M St :=
  let iterateIndex : TopDownIterator St :=
    fun ctx =>
      let plugged := plugTerm nonIndexed (Bindings ctx) in
      nonIndexedValue <- ValueToInterface (TValue plugged) ctx ;;;
      inWorld (fun w => (w, Ok (indicesGet w indexed))) (fun index =>
        match index with
        | None => ret (Err (ErrMissingIndex indexed))
        | Some index =>
            (fix each (deltas : list hashMap) (ctx : TopDownContext) : M St :=
               match deltas with
               | [] => nil
               | bindings :: rest =>
                   let ctx := withBindings ctx (Update (Bindings ctx) bindings) in
                   iter ctx ;; each rest ctx
               end) (IndexIter index nonIndexedValue) ctx
        end) in
  evalTermsRec ctx iterateIndex [nonIndexed].

Definition evalTerms {St} (ctx : TopDownContext) (iter : TopDownIterator St)
  : M St :=
  expr <- Current ctx ;;;
  let ts := match opalog.Terms expr with
            | opalog.TermList t => t
            | opalog.SingleTerm t => [t]
            end in
  (* the index on [ts[i]], when one is there or can be built, else [otherwise] *)
  let tryIndex (i j : nat) (otherwise : M St) : M St :=
    ti <- termAt ts i ;;;
    match TValue ti with
    | opalog.Ref ref =>
        inWorld
          (fun w =>
             match indexBuildLazy ctx ref w with
             | (w', Err err) => (w', Err (ErrIndexBuildFailed err ref))
             | out => out
             end)
          (fun ok =>
             if ok : bool
             then tj <- termAt ts j ;;; evalTermsIndexed ctx iter ref tj
             else otherwise)
    | _ => otherwise
    end in
  available <- indexAvailable ctx ts ;;;
  if available
  then tryIndex 1 2 (tryIndex 2 1 (evalTermsRec ctx iter ts))
  else evalTermsRec ctx iter ts.

Definition evalEq {St} (ctx : TopDownContext) (expr : opalog.Expr)
  (iter : TopDownIterator St) : M St :=
  match opalog.Terms expr with
  | opalog.TermList operands =>
      a <- termAt operands 1 ;;;
      b <- termAt operands 2 ;;;
      evalEqUnify E ctx (TValue a) (TValue b) iter
  | opalog.SingleTerm _ => ret (Panic "interface conversion")
  end.

Definition builtinFunctions {St} (name : string)
  : option (TopDownContext -> opalog.Expr -> TopDownIterator St -> M St) :=
  if opalog.Equal (opalog.Var name) equalityBuiltin then Some evalEq else None.

Definition evalExpr {St} (ctx : TopDownContext) (iter : TopDownIterator St)
  : M St :=
  current <- Current ctx ;;;
  expr <- plugExpr current (Bindings ctx) ;;;
  traceTry ctx expr ;;
  match opalog.Terms expr with
  | opalog.TermList terms =>
      op <- termAt terms 0 ;;;
      match TValue op with
      | opalog.Var name =>
          match builtinFunctions name with
          | None => ret (Panic "unreachable")
          | Some builtin =>
              builtin ctx expr
                (fun ctx => traceSuccess ctx expr ;; iter ctx)
          end
      | _ => ret (Panic "interface conversion")
      end
  | opalog.SingleTerm term =>
      match TValue term with
      | opalog.Boolean tv =>
          if opalog.Equal (opalog.Boolean tv) (opalog.Boolean true)
          then iter ctx
          else nil
      | tv => ret (Err (ErrImplicitCast tv))
      end
  end.

(** The closure that sets the captured [isTrue] and returns a nil error. *)
Definition setIsTrue : TopDownIterator bool :=
  fun _ w _ => (w, true, Ok tt).

Definition evalContextNegated {St} (ctx : TopDownContext)
  (iter : TopDownIterator St) : M St :=
  current <- Current ctx ;;;
  let negation :=
    mkContext [opalog.Complement current] (Bindings ctx) 0 (Some ctx)
              (Store ctx) (CtxTracer ctx) in
  capture false (call_evalContext E _ negation setIsTrue)
    (fun isTrue =>
       if negb isTrue then call_evalContext E _ (Step ctx) iter
       else nil).

Definition evalContext {St} (ctx : TopDownContext) (iter : TopDownIterator St)
  : M St :=
  if Nat.leb (List.length (Query ctx)) (Index ctx) then
    let isNonGround :=
      Iter (Bindings ctx) (fun k v =>
        if negb (opalog.IsGround v) then true else false) in
    if isNonGround then nil
    else traceFinish ctx ;; iter ctx
  else
    traceEval ctx ;;
    current <- Current ctx ;;;
    if opalog.Negated current then evalContextNegated ctx iter
    else
      evalTerms ctx (fun ctx =>
        evalExpr ctx (fun ctx =>
          let ctx := Step ctx in
          call_evalContext E _ ctx iter)).

Definition TopDown {St} (ctx : TopDownContext) (iter : TopDownIterator St)
  : M St :=
  evalContext ctx iter.

End ProofSearch.

(** The evaluator with [fuel] levels of recursion: out of fuel, every call
    diverges. *)
Fixpoint evaluator (fuel : nat) : Evaluator :=
  match fuel with
  | O =>
      mkEvaluator (fun _ _ _ => ret Diverge) (fun _ _ _ _ _ => ret Diverge)
                  (fun _ _ _ _ => ret Diverge) (fun _ _ _ _ _ => ret Diverge)
                  (fun _ _ _ _ _ => ret Diverge) (fun _ _ _ _ _ => ret Diverge)
  | S n =>
      let E := evaluator n in
      mkEvaluator (fun St => @evalContext E St)
                  (fun St => @evalRefRec E St)
                  (fun St => @evalTermsRec E St)
                  (fun St => @evalTermsRecArray E St)
                  (fun St => @evalTermsRecObject E St)
                  (fun St => @evalEqUnify E St)
  end.

(** ** The query entry point *)

Record TopDownQueryParams := mkParams
  { PStore : Storage; PTracer : option Tracer; Path : list string }.

(** What [TopDownQuery] returns next to a nil error: a document, or the
    [Undefined] sentinel. *)
Inductive QueryResult :=
| Document (v : Native)
| Undefined.

(** A query: the evaluation of [m] over the variables its iterator captures,
    initially [s0], then the result computed from their final values. *)
Definition query {St} (m : M St) (s0 : St) (k : St -> Res QueryResult)
  (w : World) : World * Res QueryResult :=
  match m w s0 with
  | (w', s, Ok _) => (w', k s)
  | (w', _, Err err) => (w', Err err)
  | (w', _, Panic msg) => (w', Panic msg)
  | (w', _, Diverge) => (w', Diverge)
  end.

Definition asVar (t : option Term) : Res string :=
  match t with
  | None => nilPanic
  | Some t =>
      match TValue t with
      | opalog.Var x => Ok x
      | _ => Panic "interface conversion"
      end
  end.

Section QueryEntry.

Context (E : Evaluator).

Definition topDownQueryCompleteDoc (params : TopDownQueryParams)
  (rules : list Rule) (w : World) : World * Res QueryResult :=
  match rules with
  | [] => (w, Panic "index out of range")
  | rule :: others =>
      if Nat.ltb 1 (List.length rules)
      then (w, Err (ErrMultipleConflictingRules (opalog.Name rule)))
      else
        let ctx := mkContext (opalog.RBody rule) newHashMap 0 None
                             (PStore params) (PTracer params) in
        query (TopDown E ctx setIsTrue) false
          (fun isTrue =>
             if negb isTrue then Ok Undefined
             else
               match opalog.RValue rule with
               | None => nilPanic
               | Some value =>
                   res_bind (ValueToInterface (TValue value) ctx)
                            (fun v => Ok (Document v))
               end)
          w
  end.

Definition topDownQueryPartialObjectDoc (params : TopDownQueryParams)
  (rules : list Rule) (w : World) : World * Res QueryResult :=
  query
    (forEach rules (fun rule =>
       let ctx := mkContext (opalog.RBody rule) newHashMap 0 None
                            (PStore params) (PTracer params) in
       key <- asVar (opalog.Key rule) ;;;
       value <- asVar (opalog.RValue rule) ;;;
       TopDown E ctx (fun ctx =>
         key <- dereferenceVar key ctx ;;;
         match key with
         | NString asStr =>
             value <- dereferenceVar value ctx ;;;
             fun w result => (w, mapSet result asStr value, Ok tt)
         | _ => ret (Err (ErrProduceNonStringKey key))
         end)))
    [] (fun result => Ok (Document (NMap result))) w.

Definition topDownQueryPartialSetDoc (params : TopDownQueryParams)
  (rules : list Rule) (w : World) : World * Res QueryResult :=
  query
    (forEach rules (fun rule =>
       let ctx := mkContext (opalog.RBody rule) newHashMap 0 None
                            (PStore params) (PTracer params) in
       key <- asVar (opalog.Key rule) ;;;
       TopDown E ctx (fun ctx =>
         value <- dereferenceVar key ctx ;;;
         fun w result => (w, result ++ [value], Ok tt))))
    [] (fun result => Ok (Document (NArray result))) w.

Definition TopDownQuery (params : TopDownQueryParams) (w : World)
  : World * Res QueryResult :=
  match Path params with
  | [] => (w, Panic "index out of range")
  | p0 :: ps =>
      let ref := opalog.VarTerm p0 :: map opalog.StringTerm ps in
      match lookup (PStore params) ref with
      | Err err => (w, Err err)
      | Panic msg => (w, Panic msg)
      | Diverge => (w, Diverge)
      | Ok (NRules node) =>
          match node with
          | [] => (w, Ok Undefined)
          | rule0 :: _ =>
              (* This assumes that all the rules identified by the path are
                 of the same type. *)
              match opalog.RuleDocKind rule0 with
              | opalog.CompleteDoc => topDownQueryCompleteDoc params node w
              | opalog.PartialObjectDoc => topDownQueryPartialObjectDoc params node w
              | opalog.PartialSetDoc => topDownQueryPartialSetDoc params node w
              end
          end
      | Ok node => (w, Ok (Document node))
      end
  end.

End QueryEntry.

(** * Specification

    The notions the properties below are stated with, and the concrete
    stores, rules and queries they are instantiated on. *)

(** ** Relating two runs of the evaluator *)

(** [related R m1 m2]: started from captured variables related by [R], the
    two steps change the world alike, return the same result and leave the
    captured variables related by [R]. *)
Definition related {S1 S2} (R : S1 -> S2 -> Prop) (m1 : M S1) (m2 : M S2) : Prop :=
  forall w s1 s2, R s1 s2 ->
    match m1 w s1, m2 w s2 with
    | (w1, s1', r1), (w2, s2', r2) => w1 = w2 /\ r1 = r2 /\ R s1' s2'
    end.

Definition relatedOn {S1 S2} (P : TopDownContext -> Prop) (R : S1 -> S2 -> Prop)
  (i1 : TopDownIterator S1) (i2 : TopDownIterator S2) : Prop :=
  forall c, P c -> related R (i1 c) (i2 c).

Definition anyCtx : TopDownContext -> Prop := fun _ => True.

Definition allGround (b : hashMap) : bool :=
  forallb (fun kv => opalog.IsGround (snd kv)) b.

Definition groundCtx (c : TopDownContext) : Prop :=
  allGround (Bindings c) = true.

Definition withEq {S1 S2 L} (R : S1 -> S2 -> Prop) : S1 * L -> S2 * L -> Prop :=
  fun a b => R (fst a) (fst b) /\ snd a = snd b.

(** The functions of one level of the evaluator are parametric in the
    variables captured by their iterator: related iterators give related
    runs.  [evalContext] only needs its iterators related on the contexts
    whose bindings are all ground. *)
Record Parametric (E : Evaluator) : Prop := mkParametric
  { par_evalContext :
      forall S1 S2 (R : S1 -> S2 -> Prop) ctx i1 i2,
        relatedOn groundCtx R i1 i2 ->
        related R (call_evalContext E S1 ctx i1) (call_evalContext E S2 ctx i2);
    par_evalRefRec :
      forall S1 S2 (R : S1 -> S2 -> Prop) ctx ref path i1 i2,
        relatedOn anyCtx R i1 i2 ->
        related R (call_evalRefRec E S1 ctx ref i1 path)
                  (call_evalRefRec E S2 ctx ref i2 path);
    par_evalTermsRec :
      forall S1 S2 (R : S1 -> S2 -> Prop) ctx ts i1 i2,
        relatedOn anyCtx R i1 i2 ->
        related R (call_evalTermsRec E S1 ctx i1 ts)
                  (call_evalTermsRec E S2 ctx i2 ts);
    par_evalTermsRecArray :
      forall S1 S2 (R : S1 -> S2 -> Prop) ctx arr idx i1 i2,
        relatedOn anyCtx R i1 i2 ->
        related R (call_evalTermsRecArray E S1 ctx arr idx i1)
                  (call_evalTermsRecArray E S2 ctx arr idx i2);
    par_evalTermsRecObject :
      forall S1 S2 (R : S1 -> S2 -> Prop) ctx obj idx i1 i2,
        relatedOn anyCtx R i1 i2 ->
        related R (call_evalTermsRecObject E S1 ctx obj idx i1)
                  (call_evalTermsRecObject E S2 ctx obj idx i2);
    par_evalEqUnify :
      forall S1 S2 (R : S1 -> S2 -> Prop) ctx a b i1 i2,
        relatedOn anyCtx R i1 i2 ->
        related R (call_evalEqUnify E S1 ctx a b i1)
                  (call_evalEqUnify E S2 ctx a b i2) }.

(** ** What an iterator is handed *)

Definition preserves {St} (Inv : St -> Prop) (m : M St) : Prop :=
  forall w s, Inv s -> Inv (snd (fst (m w s))).

(** [delivers P f]: the iterator of [f] is only ever called on contexts that
    satisfy [P]; whatever the iterator maintains when called on such
    contexts, [f] maintains. *)
Definition delivers (P : TopDownContext -> Prop)
  (f : forall St, TopDownIterator St -> M St) : Prop :=
  forall St (Inv : St -> Prop) (iter : TopDownIterator St),
    (forall c, P c -> preserves Inv (iter c)) -> preserves Inv (f St iter).

(** The iterator that records the contexts it is handed and returns nil. *)
Definition record : TopDownIterator (list TopDownContext) :=
  fun c w l => (w, l ++ [c], Ok tt).

Definition nonEmpty {A} (l : list A) : bool :=
  match l with [] => false | _ :: _ => true end.

(** ** Values and substitution *)

(** [Equal] on the terms of two references or arrays. *)
Fixpoint termSliceEqual (xs ys : list Term) : bool :=
  match xs, ys with
  | [], [] => true
  | x :: xs', y :: ys' => opalog.TermEqual x y && termSliceEqual xs' ys'
  | _, _ => false
  end.

(** Every bound value is left as it is by [plugValue], as the flattening
    done by [BindVar] has it. *)
Definition flatBindings (b : hashMap) : Prop :=
  forall k val, Get b k = Some val -> opalog.Equal (plugValue val b) val = true.

(** A reference that is not bound is not bound either once its selectors
    are plugged. *)
Definition plugKeepsUnbound (b : hashMap) : Prop :=
  forall head tl,
    Get b (opalog.Ref (head :: tl)) = None ->
    Get b (opalog.Ref (head :: map (fun p => plugTerm p b) tl)) = None.

(** The occurs check of [BindVar]. *)
Definition occursIn (x : string) (v : Value) : bool :=
  walkValue v (fun other =>
    if opalog.Equal (opalog.Var x) other then true else false).

(** ** References, negation and the query entry *)


(** The context [evalContextNegated] evaluates the complement in. *)
Definition negationContext (ctx : TopDownContext) (current : opalog.Expr)
  : TopDownContext :=
  mkContext [opalog.Complement current] (Bindings ctx) 0 (Some ctx)
            (Store ctx) (CtxTracer ctx).

(** The context in which the query entry points evaluate the body of a rule. *)
Definition ruleContext (params : TopDownQueryParams) (rule : Rule)
  : TopDownContext :=
  mkContext (opalog.RBody rule) newHashMap 0 None (PStore params) (PTracer params).

(** The rule's value converted to a native value, as [topDownQueryCompleteDoc]
    returns it. *)
Definition convertedValue (params : TopDownQueryParams) (rule : Rule)
  : Res QueryResult :=
  match opalog.RValue rule with
  | None => nilPanic
  | Some value =>
      res_bind (ValueToInterface (TValue value) (ruleContext params rule))
               (fun v => Ok (Document v))
  end.

(** The iterator that records the key and value each grounding dereferences
    to, and fails where the iterator of [topDownQueryPartialObjectDoc]
    fails. *)
Definition recordPairs (key value : string)
  : TopDownIterator (list (string * Native)) :=
  fun ctx =>
    key <- dereferenceVar key ctx ;;;
    match key with
    | NString asStr =>
        value <- dereferenceVar value ctx ;;;
        fun w pairs => (w, pairs ++ [(asStr, value)], Ok tt)
    | _ => ret (Err (ErrProduceNonStringKey key))
    end.

(** The groundings of the rules, rule by rule, as key and value pairs. *)
Definition groundings (E : Evaluator) (params : TopDownQueryParams)
  (rules : list Rule) : M (list (string * Native)) :=
  forEach rules (fun rule =>
    key <- asVar (opalog.Key rule) ;;;
    value <- asVar (opalog.RValue rule) ;;;
    TopDown E (ruleContext params rule) (recordPairs key value)).

(** The Go map after the assignments [m[k] = v] of the pairs, in order. *)
Definition assignAll (pairs : list (string * Native)) : list (string * Native) :=
  fold_left (fun m kv => mapSet m (fst kv) (snd kv)) pairs [].

(** What an emission of [evalRefRulePartialSetDoc] binds: the reference up
    to and including the key to [true], and, when the plugged key is a
    variable, that variable to the value a ground child context gives to
    the key of the rule. *)
Definition partialSetBound (ctx : TopDownContext) (ref path : list Term)
  (rule : Rule) (suffix0 : Term) (c : TopDownContext) : Prop :=
  Get (Bindings c) (opalog.Ref (firstn (List.length path + 1) ref))
    = Some (opalog.Boolean true)
  /\ forall x,
       plugValue (TValue suffix0) (Bindings ctx) = opalog.Var x ->
       exists ruleKey child value,
         opalog.Key rule = Some ruleKey
         /\ groundCtx child
         /\ Get (Bindings child) (TValue ruleKey) = Some value
         /\ Get (Bindings c) (opalog.Var x) = Some value.

(** ** Concrete stores, rules and queries *)

(** An in-memory store over one JSON document, without indices. *)
Fixpoint walkDoc (doc : Native) (path : list Native) : Res Native :=
  match path with
  | [] => Ok doc
  | p :: rest =>
      match doc, p with
      | NMap kvs, NString k =>
          match mapGet kvs k with
          | Some d => walkDoc d rest
          | None => Err (StorageError StorageNotFoundErr "not found")
          end
      | NArray xs, NNumber n =>
          match nth_error xs (Z.to_nat n) with
          | Some d => walkDoc d rest
          | None => Err (StorageError StorageNotFoundErr "not found")
          end
      | _, _ => Err (StorageError StorageNotFoundErr "not found")
      end
  end.

Definition memStore (doc : Native) : Storage :=
  mkStorage (walkDoc doc) (fun _ => Err (ErrOther "no index")).


Definition term (v : Value) : Term := opalog.mkTerm v None.

Definition equality (a b : Value) : opalog.Expr :=
  opalog.mkExpr false (opalog.TermList [term (opalog.Var "="); term a; term b]).

Definition emptyContext : TopDownContext :=
  NewTopDownContext [] (memStore NNull).

(** [{x: y, y: 1}]: a chain that [BindVar] would have flattened. *)
Definition chainBindings : hashMap :=
  [(opalog.Var "x", opalog.Var "y"); (opalog.Var "y", opalog.Number 1)].

(** [{i: 0, a[0]: true}], as left by the expressions [a[0]] and [i = 0]
    over a partial set [a]. *)
Definition refBindings : hashMap :=
  [(opalog.Var "i", opalog.Number 0);
   (opalog.Ref [term (opalog.Var "a"); term (opalog.Number 0)],
    opalog.Boolean true)].

(** [a[i]] *)
Definition refAI : Value :=
  opalog.Ref [term (opalog.Var "a"); term (opalog.Var "i")].

(** [[x, a[x]]] *)
Definition arrayXAX : Value :=
  opalog.Array [term (opalog.Var "x");
                term (opalog.Ref [term (opalog.Var "a"); term (opalog.Var "x")])].

(** [{"a": 1, k: 2}] and [{"a": 1, "b": 2}] *)
Definition objectA : list (Term * Term) :=
  [(term (opalog.String "a"), term (opalog.Number 1));
   (term (opalog.Var "k"), term (opalog.Number 2))].
Definition objectB : list (Term * Term) :=
  [(term (opalog.String "a"), term (opalog.Number 1));
   (term (opalog.String "b"), term (opalog.Number 2))].


(** A store in which [a[0]] is an array and [a[1]] is a number. *)
Definition storeA : Storage :=
  memStore (NMap [("a", NArray [NArray [NNumber 1]; NNumber 2])]).

(** A store with [a = [0, 5]]. *)
Definition storeFixpoint : Storage :=
  memStore (NMap [("a", NArray [NNumber 0; NNumber 5])]).

(** [x = a[x]] *)
Definition selfIndex : opalog.Expr :=
  equality (opalog.Var "x")
           (opalog.Ref [term (opalog.Var "a"); term (opalog.Var "x")]).

(** [not [a[i][j]] = [1]] *)
Definition notMember : opalog.Expr :=
  opalog.mkExpr true
    (opalog.TermList
       [term (opalog.Var "=");
        term (opalog.Array
                [term (opalog.Ref [term (opalog.Var "a"); term (opalog.Var "i");
                                   term (opalog.Var "j")])]);
        term (opalog.Array [term (opalog.Number 1)])]).

(** [not 1] and [not false] *)
Definition notOne : opalog.Expr :=
  opalog.mkExpr true (opalog.SingleTerm (term (opalog.Number 1))).
Definition notFalse : opalog.Expr :=
  opalog.mkExpr true (opalog.SingleTerm (term (opalog.Boolean false))).

Definition nonComposite (i : Z) : Error :=
  ErrNonComposite [term (opalog.Var "j")]
                  [term (opalog.Var "a"); term (opalog.Number i)].

(** [p = true :- [a[i][j]] = [1]] *)
Definition ruleMember : Rule :=
  opalog.mkRule "p" None (Some (term (opalog.Boolean true)))
                [opalog.Complement notMember].

(** [p = true :- true] *)
Definition ruleTrue : Rule :=
  opalog.mkRule "p" None (Some (term (opalog.Boolean true)))
                [opalog.mkExpr false (opalog.SingleTerm (term (opalog.Boolean true)))].

(** [p[x] :- x = 1] *)
Definition ruleOne : Rule :=
  opalog.mkRule "p" (Some (term (opalog.Var "x"))) None
                [equality (opalog.Var "x") (opalog.Number 1)].

(** [p[k] = v :- k = "a", v = n] *)
Definition ruleKV (n : Z) : Rule :=
  opalog.mkRule "p" (Some (term (opalog.Var "k"))) (Some (term (opalog.Var "v")))
    [equality (opalog.Var "k") (opalog.String "a");
     equality (opalog.Var "v") (opalog.Number n)].

Definition paramsP (store : Storage) : TopDownQueryParams :=
  mkParams store None ["p"].

(** [a] holds a number where the body of [p] expects an array. *)
Definition storeNoArray : Storage :=
  memStore (NMap [("a", NArray [NNumber 2]); ("p", NRules [ruleMember])]).

Definition storeP : Storage :=
  memStore (NMap [("a", NArray [NArray [NNumber 1]; NNumber 2]);
                  ("p", NRules [ruleMember])]).

Definition storeTrue : Storage := memStore (NMap [("p", NRules [ruleTrue])]).

Definition storeOneTwice : Storage :=
  memStore (NMap [("p", NRules [ruleOne; ruleOne])]).

Definition storeKV : Storage :=
  memStore (NMap [("p", NRules [ruleKV 1; ruleKV 2])]).

(** [p[y]] and [p[y][z]], and the path [p]. *)
Definition refPY : list Term := [term (opalog.Var "p"); term (opalog.Var "y")].
Definition refPYZ : list Term :=
  [term (opalog.Var "p"); term (opalog.Var "y"); term (opalog.Var "z")].
Definition pathP : list Term := [term (opalog.Var "p")].

(** Contexts at the end of an empty body, with [{x: 1}] and with [{x: y}]. *)
Definition groundContext : TopDownContext :=
  mkContext [] [(opalog.Var "x", opalog.Number 1)] 0 None (memStore NNull) None.
Definition openContext : TopDownContext :=
  mkContext [] [(opalog.Var "x", opalog.Var "y")] 0 None (memStore NNull) None.

(** ** A store with indices, and the documents of the worked examples *)

(** Modelled from the spec: building an index materialises, for every value
    the base document holds at the reference, the bindings of the reference's
    variables that lead to it; probing yields the bindings whose value equals
    the probe.  [indexEntries] walks the document along the reference,
    collection by collection, in iteration order. *)
Fixpoint indexEntries (ref : list Term) (node : Native) (bindings : hashMap)
  : list (hashMap * Native) :=
  match ref with
  | [] => [(bindings, node)]
  | t :: rest =>
      match TValue t, node with
      | opalog.Var x, NArray xs =>
          List.concat
            (map (fun ix =>
                    indexEntries rest (snd ix)
                      (Put bindings (opalog.Var x)
                           (opalog.Number (Z.of_nat (fst ix)))))
                 (combine (seq 0 (List.length xs)) xs))
      | opalog.Var x, NMap kvs =>
          List.concat
            (map (fun kv =>
                    indexEntries rest (snd kv)
                      (Put bindings (opalog.Var x) (opalog.String (fst kv))))
                 kvs)
      | opalog.String k, NMap kvs =>
          match mapGet kvs k with
          | Some d => indexEntries rest d bindings
          | None => []
          end
      | opalog.Number n, NArray xs =>
          match nth_error xs (Z.to_nat n) with
          | Some d => indexEntries rest d bindings
          | None => []
          end
      | _, _ => []
      end
  end.

(** Modelled from the spec: [indices.build(store, ref)]. *)
Definition buildIndex (doc : Native) (ref : list Term) : Res StoreIndex :=
  match ref with
  | [] => Err (ErrOther "empty reference")
  | head :: rest =>
      match TValue head with
      | opalog.Var root =>
          match walkDoc doc [NString root] with
          | Ok node =>
              Ok (mkStoreIndex
                    (fun value =>
                       map fst (filter (fun e => CompareEq (snd e) value)
                                       (indexEntries rest node []))))
          | Err err => Err err
          | Panic msg => Panic msg
          | Diverge => Diverge
          end
      | _ => Err (ErrUnderlying head)
      end
  end.

Definition indexedStore (doc : Native) : Storage :=
  mkStorage (walkDoc doc) (buildIndex doc).

Definition refOf (path : list Value) : Value := opalog.Ref (map term path).

(** [{"a": [{"b": {"c": [true, 2, false]}}, {"b": {"c": [false, true, 1]}}]}]
    under the root [data]. *)
Definition storeNested : Storage :=
  indexedStore
    (NMap [("data",
            NMap [("a",
                   NArray
                     [NMap [("b", NMap [("c", NArray [NBool true; NNumber 2;
                                                      NBool false])])];
                      NMap [("b", NMap [("c", NArray [NBool false; NBool true;
                                                      NNumber 1])])]])])]).

(** [data.a[i].b.c[j]], with the names of the two variables. *)
Definition refNested (i j : string) : Value :=
  refOf [opalog.Var "data"; opalog.String "a"; opalog.Var i;
         opalog.String "b"; opalog.String "c"; opalog.Var j].

(** [name[x] :- data.x.coll[_] = x] *)
Definition ruleElements (name coll : string) : Rule :=
  opalog.mkRule name (Some (term (opalog.Var "x"))) None
    [equality (refOf [opalog.Var "data"; opalog.String "x";
                      opalog.String coll; opalog.Var "$0"])
              (opalog.Var "x")].

(** [p[x] :- q[x], not r[x]] *)
Definition ruleDifference : Rule :=
  opalog.mkRule "p" (Some (term (opalog.Var "x"))) None
    [opalog.mkExpr false
       (opalog.SingleTerm (term (refOf [opalog.Var "q"; opalog.Var "x"])));
     opalog.mkExpr true
       (opalog.SingleTerm (term (refOf [opalog.Var "r"; opalog.Var "x"])))].

Definition storeDifference : Storage :=
  indexedStore
    (NMap [("data",
            NMap [("x",
                   NMap [("y", NArray [NNumber 1; NNumber 2; NNumber 3;
                                       NNumber 4]);
                         ("z", NArray [NNumber 3; NNumber 4; NNumber 5;
                                       NNumber 6])])]);
           ("p", NRules [ruleDifference]);
           ("q", NRules [ruleElements "q" "y"]);
           ("r", NRules [ruleElements "r" "z"])]).

(** [q[k] = v :- a[k] = v] over [a = {"foo": [10]}]. *)
Definition ruleCopy : Rule :=
  opalog.mkRule "q" (Some (term (opalog.Var "k"))) (Some (term (opalog.Var "v")))
    [equality (refOf [opalog.Var "a"; opalog.Var "k"]) (opalog.Var "v")].

Definition storeCopy : Storage :=
  indexedStore
    (NMap [("a", NMap [("foo", NArray [NNumber 10])]);
           ("q", NRules [ruleCopy])]).

(** Runs a query and returns the bindings of its results, in order. *)
Definition solutions (fuel : nat) (body : opalog.Body) (store : Storage)
  : list TopDownContext * Res unit :=
  let '(_, found, r) :=
    evalContext (evaluator fuel) (NewTopDownContext body store) record
                emptyWorld [] in
  (found, r).

(** * Predicates of the properties of the evaluator *)

(** No reference is bound. *)
Definition noRefBound (b : hashMap) : Prop :=
  forall ts, Get b (opalog.Ref ts) = None.

(** The names of the variables that are keys of the map, in order. *)
Definition varKeys (b : hashMap) : list string :=
  flat_map (fun kv => match fst kv with opalog.Var y => [y] | _ => [] end) b.

(** The parts of a context that binding leaves alone. *)
Definition sameFrame (c c' : TopDownContext) : Prop :=
  Query c' = Query c /\ Index c' = Index c /\ Previous c' = Previous c
  /\ Store c' = Store c /\ CtxTracer c' = CtxTracer c.

(** The converted pairs of an object, in order. *)
Definition convertsTo (ctx : TopDownContext) (p : Term * Term)
  (kv : string * Native) : Prop :=
  ValueToInterface (TValue (fst p)) ctx = Ok (NString (fst kv))
  /\ ValueToInterface (TValue (snd p)) ctx = Ok (snd kv).

(** The kinds of the values that hold no variable and are no reference. *)
Inductive Kind := KNull | KBoolean | KNumber | KString | KArray | KObject.

(** The kind of a value that is neither a variable nor a reference. *)
Definition kindOf (v : Value) : option Kind :=
  match v with
  | opalog.Null => Some KNull
  | opalog.Boolean _ => Some KBoolean
  | opalog.Number _ => Some KNumber
  | opalog.String _ => Some KString
  | opalog.Array _ => Some KArray
  | opalog.Object _ => Some KObject
  | opalog.Var _ | opalog.Ref _ => None
  end.

(** Null, Booleans, numbers and strings. *)
Definition isScalar (v : Value) : bool :=
  match v with
  | opalog.Null | opalog.Boolean _ | opalog.Number _ | opalog.String _ => true
  | _ => false
  end.

(** What a call does that either fails, or yields nothing, or hands one
    context to its iterator as its last action. *)
Definition continueWith {St} (r : Res (option TopDownContext))
  (iter : TopDownIterator St) : M St :=
  match r with
  | Ok (Some c) => iter c
  | Ok None => nil
  | Err err => ret (Err err)
  | Panic msg => ret (Panic msg)
  | Diverge => ret Diverge
  end.

(** [Single ctx0 f]: whatever its iterator, [f] either fails, or yields
    nothing, or hands exactly one context to the iterator, as its last
    action and without touching the world; that context differs from
    [ctx0] in its bindings only. *)
Definition Single (ctx0 : TopDownContext)
  (f : forall St, TopDownIterator St -> M St) : Prop :=
  exists r : Res (option TopDownContext),
    (forall St (iter : TopDownIterator St) w s,
       f St iter w s = continueWith r iter w s)
    /\ forall c, r = Ok (Some c) -> sameFrame ctx0 c.

(** A level of the evaluator whose unification emits at most once. *)
Definition Unifies (E : Evaluator) : Prop :=
  forall ctx a b, Single ctx (fun St => call_evalEqUnify E St ctx a b).

(** The captured [tmp] of the loops is nil or a context with the frame of
    the starting context. *)
Definition framedTmp (ctx0 : TopDownContext) (tmp : option TopDownContext) : Prop :=
  forall c, tmp = Some c -> sameFrame ctx0 c.

(** What [evalRefRec] does with the outcome of the lookup of a whole path. *)
Definition whenFound {St A} (r : Res A) (m : M St) : M St :=
  match r with
  | Ok _ => m
  | Err err => if isNotFound err then nil else ret (Err err)
  | Panic msg => ret (Panic msg)
  | Diverge => ret Diverge
  end.

(** A term of a reference that is not a variable. *)
Definition isConstant (t : Term) : bool :=
  match TValue t with opalog.Var _ => false | _ => true end.

(** A node of the store that is a list of rules. *)
Definition isRules (node : Native) : bool :=
  match node with NRules _ => true | _ => false end.

(** [sat WR Inv m]: started where [Inv] holds of the captured variables,
    the step [m] moves the world along [WR] and leaves [Inv] holding. *)
Definition sat {St} (WR : World -> World -> Prop) (Inv : St -> Prop) (m : M St)
  : Prop :=
  forall w s, Inv s -> WR w (fst (fst (m w s))) /\ Inv (snd (fst (m w s))).

(** A relation between the bindings of a context and those of the contexts
    derived from it that every binding step of the evaluator respects. *)
Record Extension (BExt : hashMap -> hashMap -> Prop) : Prop := mkExtension
  { bext_refl : forall b, BExt b b;
    bext_trans : forall a b c, BExt a b -> BExt b c -> BExt a c;
    bext_BindRef : forall b ref v, BExt b (Put b (opalog.Ref ref) v);
    bext_BindVar : forall ctx x v c,
        BindVar ctx x v = Some c -> BExt (Bindings ctx) (Bindings c);
    bext_Update : forall b delta, BExt b (Update b delta) }.

(** [trace] records an event only when a tracer is set and enabled. *)
Definition tracing (t : option Tracer) : bool :=
  match t with
  | Some tr => Enabled tr
  | None => false
  end.

(** A relation between worlds that the steps of an evaluation with tracer
    [t] respect: the trace grows by an event only when the tracer is
    enabled, and the indices grow by one index at a time. *)
Record Evolution (t : option Tracer) (WR : World -> World -> Prop) : Prop :=
  mkEvolution
  { wr_refl : forall w, WR w w;
    wr_trans : forall a b c, WR a b -> WR b c -> WR a c;
    wr_trace : forall w ev,
        tracing t = true -> WR w (mkWorld (Indices w) (TraceLog w ++ [ev]));
    wr_index : forall w ref idx,
        WR w (mkWorld (Indices w ++ [(ref, idx)]) (TraceLog w)) }.

(** [ext BExt c c']: [c'] has the frame of [c] and bindings that extend
    those of [c]. *)
Definition ext (BExt : hashMap -> hashMap -> Prop) (c c' : TopDownContext) : Prop :=
  sameFrame c c' /\ BExt (Bindings c) (Bindings c').

(** What [evalContext], started from [ctx], hands to its iterator: a context
    at the end of the same body, in the same store, with ground bindings
    that extend those of [ctx]. *)
Definition atEnd (BExt : hashMap -> hashMap -> Prop) (ctx c : TopDownContext)
  : Prop :=
  Query c = Query ctx /\ Previous c = Previous ctx /\ Store c = Store ctx
  /\ CtxTracer c = CtxTracer ctx
  /\ Index c = Nat.max (Index ctx) (List.length (Query ctx))
  /\ BExt (Bindings ctx) (Bindings c)
  /\ groundCtx c.

(** A level of the evaluator that respects [BExt] and [WR]. *)
Record Respects (BExt : hashMap -> hashMap -> Prop) (t : option Tracer)
  (WR : World -> World -> Prop) (E : Evaluator) : Prop := mkRespects
  { res_evalContext :
      forall St (Inv : St -> Prop) ctx iter,
        CtxTracer ctx = t ->
        (forall c, atEnd BExt ctx c -> sat WR Inv (iter c)) ->
        sat WR Inv (call_evalContext E St ctx iter);
    res_evalRefRec :
      forall St (Inv : St -> Prop) ctx ref path iter,
        CtxTracer ctx = t ->
        (forall c, ext BExt ctx c -> sat WR Inv (iter c)) ->
        sat WR Inv (call_evalRefRec E St ctx ref iter path);
    res_evalTermsRec :
      forall St (Inv : St -> Prop) ctx ts iter,
        CtxTracer ctx = t ->
        (forall c, ext BExt ctx c -> sat WR Inv (iter c)) ->
        sat WR Inv (call_evalTermsRec E St ctx iter ts);
    res_evalTermsRecArray :
      forall St (Inv : St -> Prop) ctx arr idx iter,
        CtxTracer ctx = t ->
        (forall c, ext BExt ctx c -> sat WR Inv (iter c)) ->
        sat WR Inv (call_evalTermsRecArray E St ctx arr idx iter);
    res_evalTermsRecObject :
      forall St (Inv : St -> Prop) ctx obj idx iter,
        CtxTracer ctx = t ->
        (forall c, ext BExt ctx c -> sat WR Inv (iter c)) ->
        sat WR Inv (call_evalTermsRecObject E St ctx obj idx iter);
    res_evalEqUnify :
      forall St (Inv : St -> Prop) ctx a b iter,
        CtxTracer ctx = t ->
        (forall c, ext BExt ctx c -> sat WR Inv (iter c)) ->
        sat WR Inv (call_evalEqUnify E St ctx a b iter) }.

(** An iterator that is well-behaved on the extensions of [ctx0]. *)
Definition good (BExt : hashMap -> hashMap -> Prop)
  (WR : World -> World -> Prop) (ctx0 : TopDownContext) {St}
  (Inv : St -> Prop) (iter : TopDownIterator St) : Prop :=
  forall c, ext BExt ctx0 c -> sat WR Inv (iter c).

(** The captured context of a loop: nil, or an extension of [ctx0]. *)
Definition extTmp (BExt : hashMap -> hashMap -> Prop) (ctx0 : TopDownContext)
  (tmp : option TopDownContext) : Prop :=
  forall c, tmp = Some c -> ext BExt ctx0 c.

(** Every variable bound in [b] is bound in [b']. *)
Definition keepsVars (b b' : hashMap) : Prop :=
  forall y, Get b (opalog.Var y) <> None -> Get b' (opalog.Var y) <> None.

(** The trace of [w'] is that of [w]. *)
Definition sameTrace (w w' : World) : Prop := TraceLog w' = TraceLog w.

(** The indices and the trace of [w'] start with those of [w]. *)
Definition grows (w w' : World) : Prop :=
  (exists added, Indices w' = Indices w ++ added)
  /\ (exists events, TraceLog w' = TraceLog w ++ events).

(** The relations that hold of all bindings and of all worlds. *)
Definition anyBindings (b b' : hashMap) : Prop := True.
Definition anyWorld (w w' : World) : Prop := True.

(** The frame [evalContext] started from [ctx] hands to its iterator. *)
Definition frameAtEnd (ctx c : TopDownContext) : Prop :=
  Query c = Query ctx /\ Previous c = Previous ctx /\ Store c = Store ctx
  /\ CtxTracer c = CtxTracer ctx
  /\ Index c = Nat.max (Index ctx) (List.length (Query ctx)).

(** [mentions x v]: the variable [x] occurs in [v] elsewhere than as the
    head of a reference. *)
Fixpoint mentions (x : string) (v : Value) {struct v} : bool :=
  match v with
  | opalog.Var y => String.eqb x y
  | opalog.Ref ts =>
      match ts with
      | [] => false
      | _ :: tl =>
          existsb (fun t => match t with opalog.mkTerm y _ => mentions x y end) tl
      end
  | opalog.Array ts =>
      existsb (fun t => match t with opalog.mkTerm y _ => mentions x y end) ts
  | opalog.Object ps =>
      existsb (fun p => match p with
                        | (opalog.mkTerm k _, opalog.mkTerm y _) =>
                            mentions x k || mentions x y
                        end) ps
  | _ => false
  end.

(** A plain value: a scalar, or an array of plain values. *)
Fixpoint isPlain (v : Value) {struct v} : bool :=
  match v with
  | opalog.Null | opalog.Boolean _ | opalog.Number _ | opalog.String _ => true
  | opalog.Array ts =>
      forallb (fun t => match t with opalog.mkTerm y _ => isPlain y end) ts
  | _ => false
  end.

(** The nesting depth of the arrays of a plain value. *)
Fixpoint depth (v : Value) {struct v} : nat :=
  match v with
  | opalog.Array ts =>
      S (fold_right (fun t d => Nat.max (match t with opalog.mkTerm y _ => depth y end) d)
                    0 ts)
  | _ => 0
  end.

(** Arrays and objects. *)
Definition isComposite (v : Value) : bool :=
  match v with
  | opalog.Array _ | opalog.Object _ => true
  | _ => false
  end.

(** No reference anywhere in the value. *)
Fixpoint refFree (v : Value) {struct v} : bool :=
  match v with
  | opalog.Ref _ => false
  | opalog.Array ts =>
      forallb (fun t => match t with opalog.mkTerm y _ => refFree y end) ts
  | opalog.Object ps =>
      forallb (fun p => match p with
                        | (opalog.mkTerm k _, opalog.mkTerm y _) =>
                            refFree k && refFree y
                        end) ps
  | _ => true
  end.

(** The number of nodes of a value. *)
Fixpoint size (v : Value) {struct v} : nat :=
  match v with
  | opalog.Array ts =>
      S (fold_right (fun t n => match t with opalog.mkTerm y _ => size y end + n)
                    0 ts)
  | opalog.Object ps =>
      S (fold_right (fun p n => match p with
                                | (opalog.mkTerm k _, opalog.mkTerm y _) =>
                                    size k + size y
                                end + n) 0 ps)
  | _ => 1
  end.

(** The number of nodes of the terms of a list, and of the pairs of an
    object. *)
Definition termsSize (ts : list Term) : nat :=
  fold_right (fun t n => size (TValue t) + n) 0 ts.

Definition pairsSize (ps : list (Term * Term)) : nat :=
  fold_right (fun p n => size (TValue (fst p)) + size (TValue (snd p)) + n) 0 ps.

(** No reference in the terms of a list, nor in the pairs of an object. *)
Definition termsRefFree (ts : list Term) : bool :=
  forallb (fun t => refFree (TValue t)) ts.

Definition pairsRefFree (ps : list (Term * Term)) : bool :=
  forallb (fun p => refFree (TValue (fst p)) && refFree (TValue (snd p))) ps.

(** Term evaluation at one level of fuel leaves reference-free terms alone. *)
Definition TermsIdle (n : nat) : Prop :=
  (forall arr idx ctx St (K : TopDownIterator St),
     termsRefFree (skipn idx arr) = true -> termsSize (skipn idx arr) <= n ->
     evalTermsRecArray (evaluator n) ctx arr idx K = K ctx)
  /\ (forall obj idx ctx St (K : TopDownIterator St),
        pairsRefFree (skipn idx obj) = true -> pairsSize (skipn idx obj) <= n ->
        evalTermsRecObject (evaluator n) ctx obj idx K = K ctx)
  /\ (forall ts ctx St (K : TopDownIterator St),
        termsRefFree ts = true -> termsSize ts <= n ->
        evalTermsRec (evaluator n) ctx K ts = K ctx).

(** The terms of an expression, as [evalTerms] collects them. *)
Definition exprTerms (expr : opalog.Expr) : list Term :=
  match opalog.Terms expr with
  | opalog.TermList t => t
  | opalog.SingleTerm t => [t]
  end.

(** ** Further contexts and values *)

(** Bindings [{y: [x]}], with [x] unbound. *)
Definition pendingContext : TopDownContext :=
  mkContext [] [(opalog.Var "y", opalog.Array [term (opalog.Var "x")])] 0 None
            (memStore NNull) None.

(** [[1, a[0]]] *)
Definition arrayOneA0 : Value :=
  opalog.Array [term (opalog.Number 1);
                term (opalog.Ref [term (opalog.Var "a"); term (opalog.Number 0)])].

(** [[1, ["a"]]] *)
Definition nestedPlain : Value :=
  opalog.Array [term (opalog.Number 1);
                term (opalog.Array [term (opalog.String "a")])].

(** The selectors of [a[0][0]]. *)
Definition selectors00 : list Term :=
  [term (opalog.Number 0); term (opalog.Number 0)].

Definition contextA : TopDownContext := NewTopDownContext [] storeA.
Definition contextTrue : TopDownContext := NewTopDownContext [] storeTrue.
Definition contextFixpoint : TopDownContext := NewTopDownContext [] storeFixpoint.

(** The terms of [data.a[i].b.c[j]]. *)
Definition termsNested (i j : string) : list Term :=
  map term [opalog.Var "data"; opalog.String "a"; opalog.Var i;
            opalog.String "b"; opalog.String "c"; opalog.Var j].

Definition contextNested : TopDownContext :=
  NewTopDownContext [equality (refNested "i" "j") (opalog.Number 2)] storeNested.

(** [x = [1]] *)
Definition bindsX : opalog.Expr :=
  equality (opalog.Var "x") (opalog.Array [term (opalog.Number 1)]).

Definition contextBindsX : TopDownContext :=
  NewTopDownContext [bindsX] (memStore NNull).

(** The body [a[0][0]] over the store of [storeA]. *)
Definition contextBare : TopDownContext :=
  NewTopDownContext
    [opalog.mkExpr false
       (opalog.SingleTerm
          (term (opalog.Ref (term (opalog.Var "a") :: selectors00))))]
    storeA.

(** The body [y = 2] under the bindings [{x: 1}]. *)
Definition contextXY : TopDownContext :=
  mkContext [equality (opalog.Var "y") (opalog.Number 2)]
            [(opalog.Var "x", opalog.Number 1)] 0 None (memStore NNull) None.

(** ** Ground unification, recorded groundings and failing lookups *)

(** The nesting of arrays and objects in a value, along the elements of
    arrays and the values of objects. *)
Fixpoint nesting (v : Value) {struct v} : nat :=
  match v with
  | opalog.Array ts =>
      S (fold_right
           (fun t d => Nat.max (match t with opalog.mkTerm y _ => nesting y end) d)
           0 ts)
  | opalog.Object ps =>
      S (fold_right
           (fun p d => Nat.max (match p with
                                | (_, opalog.mkTerm y _) => nesting y
                                end) d)
           0 ps)
  | _ => 0
  end.

(** A ground value nested no deeper than [n]. *)
Definition groundWithin (n : nat) (v : Value) : Prop :=
  opalog.IsGround v = true /\ nesting v <= n.

(** [Settled ctx f]: whatever its iterator, [f] returns: it fails, or yields
    nothing, or hands [ctx] itself to the iterator, once and as its last
    action, without touching the world. *)
Definition Settled (ctx : TopDownContext)
  (f : forall St, TopDownIterator St -> M St) : Prop :=
  exists r : Res (option TopDownContext),
    r <> Diverge
    /\ (forall St (iter : TopDownIterator St) w s,
          f St iter w s = continueWith r iter w s)
    /\ forall c, r = Ok (Some c) -> c = ctx.

(** A level of the evaluator whose unification settles the ground values
    nested no deeper than [n]. *)
Definition Settles (E : Evaluator) (ctx : TopDownContext) (n : nat) : Prop :=
  forall a b, groundWithin n a -> groundWithin n b ->
    Settled ctx (fun St => call_evalEqUnify E St ctx a b).

(** Neither a variable nor a composite. *)
Definition isAtom (v : Value) : bool :=
  match v with
  | opalog.Var _ | opalog.Array _ | opalog.Object _ => false
  | _ => true
  end.

(** The iterator that records each grounding it is handed, next to the value
    the key dereferences to there, and fails where the iterator of
    [topDownQueryPartialSetDoc] fails. *)
Definition recordKey (key : string)
  : TopDownIterator (list (TopDownContext * Native)) :=
  fun ctx =>
    value <- dereferenceVar key ctx ;;;
    fun w found => (w, found ++ [(ctx, value)], Ok tt).

(** The groundings of the rules, rule by rule, each with its dereferenced
    key. *)
Definition keyGroundings (E : Evaluator) (params : TopDownQueryParams)
  (rules : list Rule) : M (list (TopDownContext * Native)) :=
  forEach rules (fun rule =>
    key <- asVar (opalog.Key rule) ;;;
    TopDown E (ruleContext params rule) (recordKey key)).

(** [g] is a satisfying grounding of one of the rules with the value of its
    key: a context at the end of the body of the rule, over the store of the
    query, whose bindings are ground and give the key that value. *)
Definition isGrounding (params : TopDownQueryParams) (rules : list Rule)
  (g : TopDownContext * Native) : Prop :=
  exists rule key,
    In rule rules
    /\ asVar (opalog.Key rule) = Ok key
    /\ frameAtEnd (ruleContext params rule) (fst g)
    /\ groundCtx (fst g)
    /\ dereferenceVar key (fst g) = Ok (snd g).

(** The grounding [{x: 1}] of [p[x] :- x = 1]. *)
Definition groundingOne : TopDownContext :=
  mkContext (opalog.RBody ruleOne) [(opalog.Var "x", opalog.Number 1)] 1 None
            storeOneTwice None.







(** * Properties *)

(** ** Values *)

Lemma Value_induction (P : Value -> Prop) :
  P opalog.Null ->
  (forall b, P (opalog.Boolean b)) ->
  (forall n, P (opalog.Number n)) ->
  (forall s, P (opalog.String s)) ->
  (forall x, P (opalog.Var x)) ->
  (forall ts, Forall (fun t => P (TValue t)) ts -> P (opalog.Ref ts)) ->
  (forall ts, Forall (fun t => P (TValue t)) ts -> P (opalog.Array ts)) ->
  (forall ps, Forall (fun p => P (TValue (fst p)) /\ P (TValue (snd p))) ps ->
              P (opalog.Object ps)) ->
  forall v, P v.
Proof.
  intros HNull HBoolean HNumber HString HVar HRef HArray HObject.
  fix IH 1. intros v. destruct v as [ | b | n | s | x | ts | ts | ps ].
  - exact HNull.
  - apply HBoolean.
  - apply HNumber.
  - apply HString.
  - apply HVar.
  - apply HRef. induction ts as [|[x l] rest IHts]; constructor.
    + apply IH.
    + exact IHts.
  - apply HArray. induction ts as [|[x l] rest IHts]; constructor.
    + apply IH.
    + exact IHts.
  - apply HObject. induction ps as [|[[k l] [x l']] rest IHps]; constructor.
    + split; apply IH.
    + exact IHps.
Qed.

Lemma Equal_Ref xs ys :
  opalog.Equal (opalog.Ref xs) (opalog.Ref ys) = termSliceEqual xs ys.
Proof.
  cbn. revert ys. induction xs as [|[x l] xs IH]; intros [|y ys]; cbn; auto.
  rewrite IH. reflexivity.
Qed.

Lemma Equal_Array xs ys :
  opalog.Equal (opalog.Array xs) (opalog.Array ys) = termSliceEqual xs ys.
Proof.
  cbn. revert ys. induction xs as [|[x l] xs IH]; intros [|y ys]; cbn; auto.
  rewrite IH. reflexivity.
Qed.

Lemma Equal_Object ps qs :
  opalog.Equal (opalog.Object ps) (opalog.Object qs) =
  Nat.eqb (List.length ps) (List.length qs) &&
  forallb (fun p => existsb (fun q => opalog.TermEqual (fst p) (fst q) &&
                                      opalog.TermEqual (snd p) (snd q)) qs) ps.
Proof.
  cbn. f_equal. induction ps as [|[[k l] [x l']] ps IH]; cbn; auto.
  rewrite IH. reflexivity.
Qed.

Lemma termSliceEqual_Forall2 xs ys :
  Forall2 (fun x y => opalog.TermEqual x y = true) xs ys ->
  termSliceEqual xs ys = true.
Proof.
  intros H. induction H as [|x y xs ys Hxy Hrest IH]; cbn; auto.
  rewrite Hxy, IH. reflexivity.
Qed.

Lemma Equal_refl v : opalog.Equal v v = true.
Proof.
  induction v as [ | c | n | s | x | ts H | ts H | ps H ] using Value_induction.
  - reflexivity.
  - cbn. apply Bool.eqb_reflx.
  - cbn. apply Z.eqb_refl.
  - cbn. apply String.eqb_refl.
  - cbn. apply String.eqb_refl.
  - rewrite Equal_Ref. apply termSliceEqual_Forall2.
    induction H; constructor; auto.
  - rewrite Equal_Array. apply termSliceEqual_Forall2.
    induction H; constructor; auto.
  - rewrite Equal_Object, Nat.eqb_refl. cbn.
    apply forallb_forall. intros p Hin. apply existsb_exists. exists p.
    rewrite Forall_forall in H. destruct (H p Hin) as [Hk Hx].
    unfold opalog.TermEqual. rewrite Hk, Hx. auto.
Qed.

Lemma Equal_Var_inv x v :
  opalog.Equal (opalog.Var x) v = true -> v = opalog.Var x.
Proof.
  destruct v; cbn; try discriminate. intros H.
  apply String.eqb_eq in H. congruence.
Qed.

Lemma Equal_to_Ref k ts :
  opalog.Equal k (opalog.Ref ts) = true -> exists ts', k = opalog.Ref ts'.
Proof. destruct k; cbn; try discriminate. eauto. Qed.

(** ** The bindings map *)

Lemma Get_Put_same h k v : Get (Put h k v) k = Some v.
Proof.
  induction h as [|[k' v'] rest IH]; cbn.
  - rewrite Equal_refl. reflexivity.
  - destruct (opalog.Equal k' k) eqn:Hk; cbn; rewrite Hk; auto.
Qed.

Lemma Get_Put_Ref_Var h ts v x :
  Get (Put h (opalog.Ref ts) v) (opalog.Var x) = Get h (opalog.Var x).
Proof.
  induction h as [|[k' v'] rest IH]; cbn.
  - reflexivity.
  - destruct (opalog.Equal k' (opalog.Ref ts)) eqn:Hk; cbn.
    + apply Equal_to_Ref in Hk. destruct Hk as [ts' ->]. reflexivity.
    + rewrite IH. reflexivity.
Qed.

Lemma Bindings_BindRef ctx ref value :
  Bindings (BindRef ctx ref value) = Put (Bindings ctx) (opalog.Ref ref) value.
Proof. destruct ctx. reflexivity. Qed.

Lemma allGround_Get b k v :
  allGround b = true -> Get b k = Some v -> opalog.IsGround v = true.
Proof.
  unfold allGround. induction b as [|[k' v'] rest IH]; cbn; [discriminate|].
  intros H. apply andb_prop in H. destruct H as [Hv Hrest].
  destruct (opalog.Equal k' k); [intros [= <-]; assumption | auto].
Qed.

Lemma Iter_nonGround (b : hashMap) :
  Iter b (fun _ v => if negb (opalog.IsGround v) then true else false)
  = negb (allGround b).
Proof.
  unfold Iter, allGround. induction b as [|[k v] rest IH]; cbn; auto.
  rewrite IH. destruct (opalog.IsGround v); reflexivity.
Qed.

Lemma BindVar_binds ctx x value ctx' :
  opalog.IsGround value = true ->
  BindVar ctx x value = Some ctx' ->
  Get (Bindings ctx') (opalog.Var x) = Some value.
Proof.
  intros Hg. unfold BindVar.
  destruct (opalog.Equal (opalog.Var x) value) eqn:He.
  - apply Equal_Var_inv in He. subst value. discriminate.
  - destruct (walkValue value _); [discriminate|].
    intros [= <-]. destruct ctx. cbn. apply Get_Put_same.
Qed.

Lemma mapGet_mapSet_same m k v : mapGet (mapSet m k v) k = Some v.
Proof.
  induction m as [|[k' v'] rest IH]; cbn.
  - rewrite String.eqb_refl. reflexivity.
  - destruct (String.eqb k' k) eqn:Hk; cbn; rewrite Hk; auto.
Qed.

Lemma mapGet_mapSet_other m k v k' :
  k <> k' -> mapGet (mapSet m k v) k' = mapGet m k'.
Proof.
  intros Hne. induction m as [|[k0 v0] rest IH]; cbn.
  - destruct (String.eqb k k') eqn:Hk; auto.
    apply String.eqb_eq in Hk. contradiction.
  - destruct (String.eqb k0 k) eqn:Hk; cbn.
    + apply String.eqb_eq in Hk. subst k0.
      destruct (String.eqb k k') eqn:Hk'; auto.
      apply String.eqb_eq in Hk'. contradiction.
    + rewrite IH. reflexivity.
Qed.

Lemma fold_mapSet_keeps later m k v :
  ~ In k (map fst later) -> mapGet m k = Some v ->
  mapGet (fold_left (fun m kv => mapSet m (fst kv) (snd kv)) later m) k = Some v.
Proof.
  revert m. induction later as [|[k' v'] later IH]; intros m Hnot Hm; cbn; auto.
  apply IH.
  - intros Hin. apply Hnot. right. assumption.
  - rewrite mapGet_mapSet_other; auto. intros ->. apply Hnot. left. reflexivity.
Qed.

(** ** Substitution *)

Lemma TValue_plugTerm t b : TValue (plugTerm t b) = plugValue (TValue t) b.
Proof. destruct t as [v l]. destruct v; reflexivity. Qed.

(** C2 (as amended).  Plugging twice under the same bindings gives a value
    [Equal] to plugging once, for every value, when the bindings are flat
    (every bound value is unchanged by plug, as the flattening of [BindVar]
    maintains) and no unbound reference becomes bound once its selectors are
    plugged. *)
Theorem plugValue_idempotent v b :
  flatBindings b -> plugKeepsUnbound b ->
  opalog.Equal (plugValue (plugValue v b) b) (plugValue v b) = true.
Proof.
  intros Hflat Hkeep.
  induction v as [ | c | n | s | x | ts H | ts H | ps H ] using Value_induction;
    try apply Equal_refl.
  - (* Var *)
    cbn. destruct (Get b (opalog.Var x)) eqn:Hx.
    + eapply Hflat; eauto.
    + cbn. rewrite Hx. apply Equal_refl.
  - (* Ref *)
    cbn [plugValue]. destruct (Get b (opalog.Ref ts)) eqn:Hr.
    + eapply Hflat; eauto.
    + destruct (opalog.IsGround (opalog.Ref ts)) eqn:Hg.
      * cbn [plugValue]. rewrite Hr, Hg. apply Equal_refl.
      * destruct ts as [|head tl]; [discriminate|].
        cbn [plugValue]. rewrite (Hkeep _ _ Hr).
        destruct (opalog.IsGround (opalog.Ref (head :: map _ tl)));
          [apply Equal_refl|].
        rewrite Equal_Ref. cbn. unfold opalog.TermEqual at 1.
        rewrite Equal_refl. cbn.
        apply termSliceEqual_Forall2. inversion H as [|t0 l0 Hhead Htl]; subst.
        clear - Htl. induction Htl; cbn; constructor; auto.
        unfold opalog.TermEqual. rewrite !TValue_plugTerm. assumption.
  - (* Array *)
    cbn [plugValue]. rewrite Equal_Array. apply termSliceEqual_Forall2.
    induction H; cbn; constructor; auto.
    unfold opalog.TermEqual. rewrite !TValue_plugTerm. assumption.
  - (* Object *)
    cbn [plugValue]. rewrite Equal_Object, !length_map, Nat.eqb_refl. cbn.
    rewrite map_map. apply forallb_forall. intros p Hin.
    apply in_map_iff in Hin. destruct Hin as [[k x] [<- Hin]].
    apply existsb_exists. exists (plugTerm k b, plugTerm x b). split.
    + apply in_map_iff. exists (k, x). auto.
    + rewrite Forall_forall in H. destruct (H _ Hin) as [Hk Hx]. cbn in *.
      unfold opalog.TermEqual. rewrite !TValue_plugTerm, Hk, Hx. reflexivity.
Qed.

(** Under [{x: y, y: 1}], [x] plugs to [y] and [y] plugs to [1]; under
    [{i: 0, a[0]: true}], [a[i]] plugs to [a[0]] and [a[0]] plugs to [true]. *)
Lemma plugValue_not_idempotent :
  opalog.Equal (plugValue (plugValue (opalog.Var "x") chainBindings) chainBindings)
               (plugValue (opalog.Var "x") chainBindings) = false
  /\ opalog.Equal (plugValue (plugValue refAI refBindings) refBindings)
                  (plugValue refAI refBindings) = false.
Proof. split; reflexivity. Qed.

Lemma plugValue_idempotent_witness :
  opalog.Equal
    (plugValue (plugValue arrayXAX [(opalog.Var "x", opalog.Number 1)])
               [(opalog.Var "x", opalog.Number 1)])
    (plugValue arrayXAX [(opalog.Var "x", opalog.Number 1)]) = true.
Proof.
  apply plugValue_idempotent.
  - intros k val. cbn [Get]. destruct (opalog.Equal (opalog.Var "x") k);
      intros H; inversion H; reflexivity.
  - intros head tl. reflexivity.
Defined.

(** ** Unification *)

(** C3.  For a variable [x] and a value [v] other than [x]
    itself in which [x] occurs, [BindVar] answers the undefined context and
    unifying the variable with the value emits nothing and returns no
    error; so does [evalEqUnify], in either order, on an operand that plugs
    to [v] in a context where [x] is unbound. *)
Theorem occurs_check (E : Evaluator) {St} (ctx : TopDownContext) (x : string)
  (v : Value) (iter : TopDownIterator St) (w : World) (s : St) :
  opalog.Equal (opalog.Var x) v = false ->
  occursIn x v = true ->
  BindVar ctx x v = None
  /\ evalEqUnifyVar ctx x v iter w s = (w, s, Ok tt)
  /\ forall operand,
       plugValue operand (Bindings ctx) = v ->
       Get (Bindings ctx) (opalog.Var x) = None ->
       evalEqUnify E ctx (opalog.Var x) operand iter w s = (w, s, Ok tt)
       /\ evalEqUnify E ctx operand (opalog.Var x) iter w s = (w, s, Ok tt).
Proof.
  intros Hne Hocc.
  assert (Hbind : BindVar ctx x v = None).
  { unfold BindVar. rewrite Hne. unfold occursIn in Hocc. rewrite Hocc.
    reflexivity. }
  assert (Hvar : forall (i : TopDownIterator St),
             evalEqUnifyVar ctx x v i w s = (w, s, Ok tt)).
  { intros i. unfold evalEqUnifyVar. rewrite Hbind. reflexivity. }
  split; [exact Hbind | split; [apply Hvar |]].
  intros operand Hplug Hunbound. split.
  - unfold evalEqUnify. cbn [plugValue]. rewrite Hunbound, Hplug. apply Hvar.
  - unfold evalEqUnify. cbn [plugValue]. rewrite Hunbound, Hplug.
    destruct v; cbn in Hne, Hocc; try (rewrite Hne in Hocc; discriminate);
      try discriminate; unfold evalEqUnifyObject, evalEqUnifyArray; apply Hvar.
Qed.

(** Beside the occurs check: [x = x], the no-op of [BindVar], emits the
    unchanged context; and in [x = a[x]] over [a = [0, 5]] the reference is
    resolved, binding [x] to [0], before the unification, which never sees
    [x] unbound next to a value holding it. *)
Lemma occurs_check_self :
  (occursIn "x" (opalog.Var "x") = true
   /\ evalEqUnifyVar emptyContext "x" (opalog.Var "x") record emptyWorld []
      = (emptyWorld, [emptyContext], Ok tt))
  /\ (occursIn "x" (opalog.Ref [term (opalog.Var "a"); term (opalog.Var "x")])
      = true
      /\ exists c,
           evalContext (evaluator 20) (NewTopDownContext [selfIndex] storeFixpoint)
                       record emptyWorld []
           = (emptyWorld, [c], Ok tt)
           /\ Bindings c = [(opalog.Var "x", opalog.Number 0)]).
Proof.
  split; [split; reflexivity | split; [reflexivity |]].
  eexists. split; vm_compute; reflexivity.
Qed.

Lemma occurs_check_witness :
  BindVar emptyContext "x" (opalog.Array [term (opalog.Var "x")]) = None
  /\ evalEqUnifyVar emptyContext "x" (opalog.Array [term (opalog.Var "x")])
       record emptyWorld [] = (emptyWorld, [], Ok tt)
  /\ forall operand,
       plugValue operand (Bindings emptyContext)
         = opalog.Array [term (opalog.Var "x")] ->
       Get (Bindings emptyContext) (opalog.Var "x") = None ->
       evalEqUnify (evaluator 1) emptyContext (opalog.Var "x") operand record
                   emptyWorld [] = (emptyWorld, [], Ok tt)
       /\ evalEqUnify (evaluator 1) emptyContext operand (opalog.Var "x") record
                      emptyWorld [] = (emptyWorld, [], Ok tt).
Proof.
  apply (occurs_check (evaluator 1) emptyContext "x"
           (opalog.Array [term (opalog.Var "x")]) record emptyWorld []);
    reflexivity.
Defined.

Lemma firstVariableKey_None ab :
  firstVariableKey ab = None ->
  forall p, In p ab ->
    opalog.TermIsGround (fst (fst p)) = true /\
    opalog.TermIsGround (fst (snd p)) = true.
Proof.
  induction ab as [|[ai bi] rest IH]; cbn; [tauto|].
  destruct (opalog.TermIsGround (fst ai)) eqn:Ha; cbn; [|discriminate].
  destruct (opalog.TermIsGround (fst bi)) eqn:Hb; cbn; [|discriminate].
  intros H p [<-|Hin]; auto.
Qed.

Lemma firstVariableKey_Some ab k :
  firstVariableKey ab = Some k ->
  opalog.TermIsGround k = false /\
  exists p, In p ab /\ (k = fst (fst p) \/ k = fst (snd p)).
Proof.
  induction ab as [|[ai bi] rest IH]; cbn; [discriminate|].
  destruct (opalog.TermIsGround (fst ai)) eqn:Ha; cbn.
  - destruct (opalog.TermIsGround (fst bi)) eqn:Hb; cbn.
    + intros H. destruct (IH H) as [Hk [p [Hin Hp]]]. eauto.
    + intros [= <-]. split; auto. exists (ai, bi). auto.
  - intros [= <-]. split; auto. exists (ai, bi). auto.
Qed.

(** C8.  Unifying two objects with different numbers of pairs emits nothing
    and returns no error, whatever their keys; with equal numbers of pairs,
    if a key of either object is not ground, the error "cannot unify object
    with variable key" is returned, naming such a key (the first one in the
    order a[0], b[0], a[1], b[1], ...), and nothing is emitted. *)
Theorem evalEqUnifyObjects_keys (E : Evaluator) {St} (ctx : TopDownContext)
  (a b : list (Term * Term)) (iter : TopDownIterator St) (w : World) (s : St) :
  (List.length a <> List.length b ->
   evalEqUnifyObjects E ctx a b iter w s = (w, s, Ok tt))
  /\ (List.length a = List.length b ->
      (exists p, (In p a \/ In p b) /\ opalog.TermIsGround (fst p) = false) ->
      exists k,
        opalog.TermIsGround k = false
        /\ (In k (map fst a) \/ In k (map fst b))
        /\ firstVariableKey (combine a b) = Some k
        /\ evalEqUnifyObjects E ctx a b iter w s = (w, s, Err (ErrVariableKey k))).
Proof.
  split.
  - intros Hlen. unfold evalEqUnifyObjects.
    apply Nat.eqb_neq in Hlen. rewrite Hlen. reflexivity.
  - intros Hlen [p [Hin Hp]]. unfold evalEqUnifyObjects.
    rewrite Hlen, Nat.eqb_refl. cbn [negb].
    destruct (firstVariableKey (combine a b)) as [k|] eqn:Hk.
    + destruct (firstVariableKey_Some _ _ Hk) as [Hg [q [Hq Hkq]]].
      exists k. repeat split; auto.
      destruct q as [qa qb]. cbn in Hkq.
      destruct Hkq as [-> | ->]; [left | right]; apply in_map.
      * eapply in_combine_l; eauto.
      * eapply in_combine_r; eauto.
    + exfalso.
      assert (Hall := firstVariableKey_None _ Hk).
      destruct Hin as [Hin|Hin].
      * destruct (In_nth _ _ p Hin) as [n [Hn Hnth]].
        assert (Hc : In (p, nth n b p) (combine a b)).
        { rewrite <- Hnth at 1. rewrite <- combine_nth by assumption.
          apply nth_In. rewrite length_combine. lia. }
        destruct (Hall _ Hc) as [H1 _]. cbn in H1. congruence.
      * destruct (In_nth _ _ p Hin) as [n [Hn Hnth]].
        assert (Hc : In (nth n a p, p) (combine a b)).
        { rewrite <- Hnth at 2. rewrite <- combine_nth by assumption.
          apply nth_In. rewrite length_combine. lia. }
        destruct (Hall _ Hc) as [_ H2]. cbn in H2. congruence.
Qed.

Lemma evalEqUnifyObjects_keys_witness :
  evalEqUnifyObjects (evaluator 3) emptyContext objectA
    [(term (opalog.Var "j"), term opalog.Null)] record emptyWorld []
  = (emptyWorld, [], Ok tt)
  /\ exists k,
       opalog.TermIsGround k = false
       /\ (In k (map fst objectA) \/ In k (map fst objectB))
       /\ firstVariableKey (combine objectA objectB) = Some k
       /\ evalEqUnifyObjects (evaluator 3) emptyContext objectA objectB record
            emptyWorld [] = (emptyWorld, [], Err (ErrVariableKey k)).
Proof.
  split.
  - apply (proj1 (evalEqUnifyObjects_keys (evaluator 3) emptyContext objectA
             [(term (opalog.Var "j"), term opalog.Null)] record emptyWorld [])).
    cbn. discriminate.
  - apply (proj2 (evalEqUnifyObjects_keys (evaluator 3) emptyContext objectA objectB
             record emptyWorld [])).
    + reflexivity.
    + exists (term (opalog.Var "k"), term (opalog.Number 2)).
      split; [left; right; left; reflexivity | reflexivity].
Defined.

(** ** Lookups during reference evaluation *)



(** ** The evaluator is parametric in the variables its iterator captures *)

Section Related.
Context {S1 S2 : Type} (R : S1 -> S2 -> Prop).

Lemma related_ret r : related R (ret r) (ret r).
Proof. intros w s1 s2 H. cbn. auto. Qed.

Lemma related_nil : related R nil nil.
Proof. apply related_ret. Qed.

Lemma related_andThen a1 a2 b1 b2 :
  related R a1 a2 -> related R b1 b2 -> related R (a1 ;; b1) (a2 ;; b2).
Proof.
  intros Ha Hb w s1 s2 H. unfold andThen.
  specialize (Ha w s1 s2 H).
  destruct (a1 w s1) as [[w1 s1'] r1], (a2 w s2) as [[w2 s2'] r2].
  destruct Ha as (-> & -> & HR).
  destruct r2; auto. apply Hb; auto.
Qed.

Lemma related_withRes {A} (r : Res A) k1 k2 :
  (forall a, related R (k1 a) (k2 a)) -> related R (withRes r k1) (withRes r k2).
Proof. intros H. destruct r; cbn; auto using related_ret. Qed.

Lemma related_forEach {A} (l : list A) f1 f2 :
  (forall x, related R (f1 x) (f2 x)) -> related R (forEach l f1) (forEach l f2).
Proof.
  intros H. induction l; cbn; auto using related_nil, related_andThen.
Qed.

Lemma related_capture {L} (l0 : L) (m : M L) k1 k2 :
  (forall l, related R (k1 l) (k2 l)) ->
  related R (capture l0 m k1) (capture l0 m k2).
Proof.
  intros H w s1 s2 HR. unfold capture.
  destruct (m w l0) as [[w' l] r]. destruct r; auto. apply H; auto.
Qed.

Lemma related_trace ctx ev : related R (trace ctx ev) (trace ctx ev).
Proof.
  intros w s1 s2 H. unfold trace. destruct (CtxTracer ctx) as [t|]; auto.
  destruct (Enabled t); auto.
Qed.

Lemma related_callIter P i1 i2 c :
  relatedOn P R i1 i2 -> (forall x, c = Some x -> P x) ->
  related R (callIter i1 c) (callIter i2 c).
Proof.
  intros H Hc. destruct c; cbn; auto using related_ret.
Qed.

End Related.

Lemma related_withCaptured {S1 S2 L} (R : S1 -> S2 -> Prop) (l0 : L) m1 m2 :
  related (withEq R) m1 m2 ->
  related R (withCaptured l0 m1) (withCaptured l0 m2).
Proof.
  intros H w s1 s2 HR. unfold withCaptured.
  specialize (H w (s1, l0) (s2, l0)). cbn in H.
  destruct (m1 w (s1, l0)) as [[w1 [s1' l1]] r1].
  destruct (m2 w (s2, l0)) as [[w2 [s2' l2]] r2].
  destruct H as (? & ? & ? & ?); auto. split; auto.
Qed.

Lemma related_assigning {S1 S2 L} (R : S1 -> S2 -> Prop) (l : L) m1 m2 :
  related R m1 m2 ->
  related (withEq R) (assigning l m1) (assigning l m2).
Proof.
  intros H w [s1 l1] [s2 l2] [HR ?]. unfold assigning. cbn in *.
  specialize (H w s1 s2 HR).
  destruct (m1 w s1) as [[w1 s1'] r1], (m2 w s2) as [[w2 s2'] r2].
  destruct H as (? & ? & ?). repeat split; auto.
Qed.

Lemma related_captured {S1 S2 L} (R : S1 -> S2 -> Prop)
  (f1 : L -> M (S1 * L)) (f2 : L -> M (S2 * L)) :
  (forall l, related (withEq R) (f1 l) (f2 l)) ->
  related (withEq R) (captured f1) (captured f2).
Proof.
  intros H w [s1 l1] [s2 l2] [HR Hl]. unfold captured. cbn in *. subst l2.
  apply (H l1 w (s1, l1) (s2, l1)). split; auto.
Qed.

Lemma related_orStop {S1 S2} (R : S1 -> S2 -> Prop) m1 m2 k1 k2 :
  related R m1 m2 -> related R k1 k2 ->
  related R (orStop m1 k1) (orStop m2 k2).
Proof.
  intros Hm Hk w s1 s2 H. unfold orStop.
  specialize (Hm w s1 s2 H).
  destruct (m1 w s1) as [[w1 s1'] r1], (m2 w s2) as [[w2 s2'] r2].
  destruct Hm as (-> & -> & HR).
  destruct r2; auto. apply Hk; auto.
Qed.

Lemma related_inWorld {S1 S2 A} (R : S1 -> S2 -> Prop)
  (f : World -> World * Res A) k1 k2 :
  (forall a, related R (k1 a) (k2 a)) ->
  related R (inWorld f k1) (inWorld f k2).
Proof.
  intros H w s1 s2 HR. unfold inWorld.
  destruct (f w) as [w' r]. destruct r; auto. apply H; auto.
Qed.

Lemma relatedOn_weaken {S1 S2} (P Q : TopDownContext -> Prop) (R : S1 -> S2 -> Prop) i1 i2 :
  (forall c, Q c -> P c) -> relatedOn P R i1 i2 -> relatedOn Q R i1 i2.
Proof. intros H Hi c Hc. apply Hi, H, Hc. Qed.

(** The evaluator functions of a level are parametric. *)
Ltac rel_iter :=
  match goal with
  | H : relatedOn _ _ ?i1 ?i2 |- related _ (?i1 _) (?i2 _) =>
      apply H; try exact I; auto
  end.

Ltac rel_step :=
  lazymatch goal with
  | H : relatedOn _ _ ?i1 ?i2 |- related _ (?i1 _) (?i2 _) =>
      apply H; try exact I; auto
  | |- related _ nil nil => apply related_nil
  | |- related _ (ret _) (ret _) => apply related_ret
  | |- related _ (andThen _ _) (andThen _ _) => apply related_andThen
  | |- related _ (withRes _ _) (withRes _ _) => apply related_withRes; intro
  | |- related _ (forEach _ _) (forEach _ _) => apply related_forEach; intro
  | |- related _ (capture _ _ _) (capture _ _ _) => apply related_capture; intro
  | |- related _ (trace _ _) (trace _ _) => apply related_trace
  | |- related _ (orStop _ _) (orStop _ _) => apply related_orStop
  | |- related _ (inWorld _ _) (inWorld _ _) => apply related_inWorld; intro
  | |- related _ (withCaptured _ _) (withCaptured _ _) =>
      apply related_withCaptured
  | |- related _ (captured _) (captured _) => apply related_captured; intro
  | |- related _ (assigning _ _) (assigning _ _) => apply related_assigning
  | |- related _ (callIter _ _) (callIter _ _) =>
      eapply related_callIter; [eassumption | intros; exact I]
  | |- related _ (match ?x with _ => _ end) (match ?x with _ => _ end) =>
      destruct x
  | |- related _ (if ?x then _ else _) (if ?x then _ else _) =>
      destruct x
  end.

Ltac rel := cbv zeta; repeat rel_step.

Section UnifyParam.
Context (E : Evaluator) (HE : Parametric E).
Context {S1 S2 : Type} (R : S1 -> S2 -> Prop).
Context (i1 : TopDownIterator S1) (i2 : TopDownIterator S2).
Context (Hi : relatedOn anyCtx R i1 i2).

Lemma evalEqUnifyVar_rel ctx a b :
  related R (evalEqUnifyVar ctx a b i1) (evalEqUnifyVar ctx a b i2).
Proof. unfold evalEqUnifyVar. rel. Qed.

Lemma evalEqGround_rel ctx a b :
  related R (evalEqGround ctx a b i1) (evalEqGround ctx a b i2).
Proof. unfold evalEqGround. rel. Qed.

Lemma evalEqUnifyArrays_rel ctx a b :
  related R (evalEqUnifyArrays E ctx a b i1) (evalEqUnifyArrays E ctx a b i2).
Proof.
  unfold evalEqUnifyArrays. rel.
  generalize (combine a b) as ab. intros ab. revert ctx.
  induction ab as [|[ai bi] rest IH]; intros ctx; rel. apply IH.
Qed.

Lemma evalEqUnifyArrayRef_rel ctx a b :
  related R (evalEqUnifyArrayRef E ctx a b i1) (evalEqUnifyArrayRef E ctx a b i2).
Proof.
  unfold evalEqUnifyArrayRef. rel.
  generalize 0 as i. revert ctx.
  induction a as [|ai rest IH]; intros ctx i; rel. apply IH.
Qed.

Lemma evalEqUnifyArray_rel ctx a b :
  related R (evalEqUnifyArray E ctx a b i1) (evalEqUnifyArray E ctx a b i2).
Proof.
  unfold evalEqUnifyArray.
  destruct b; rel; auto using evalEqUnifyVar_rel, evalEqUnifyArrayRef_rel, evalEqUnifyArrays_rel.
Qed.

Lemma evalEqUnifyObjects_rel ctx a b :
  related R (evalEqUnifyObjects E ctx a b i1) (evalEqUnifyObjects E ctx a b i2).
Proof.
  unfold evalEqUnifyObjects. rel.
  revert ctx. induction a as [|ai rest IH]; intros ctx; rel. apply IH.
Qed.

Lemma evalEqUnifyObjectRef_rel ctx a b :
  related R (evalEqUnifyObjectRef E ctx a b i1) (evalEqUnifyObjectRef E ctx a b i2).
Proof.
  unfold evalEqUnifyObjectRef. rel.
  revert ctx. generalize a as ps.
  induction ps as [|ai rest IH]; intros ctx; rel. apply IH.
Qed.

Lemma evalEqUnifyObject_rel ctx a b :
  related R (evalEqUnifyObject E ctx a b i1) (evalEqUnifyObject E ctx a b i2).
Proof.
  unfold evalEqUnifyObject.
  destruct b; rel; auto using evalEqUnifyVar_rel, evalEqUnifyObjectRef_rel, evalEqUnifyObjects_rel.
Qed.

Lemma evalEqUnify_rel ctx a b :
  related R (evalEqUnify E ctx a b i1) (evalEqUnify E ctx a b i2).
Proof.
  unfold evalEqUnify. cbv zeta.
  destruct (plugValue a (Bindings ctx)); destruct (plugValue b (Bindings ctx));
    auto using evalEqUnifyVar_rel, evalEqUnifyObject_rel, evalEqUnifyArray_rel, evalEqGround_rel.
Qed.

End UnifyParam.

Section RefParam.
Context (E : Evaluator) (HE : Parametric E).
Context {S1 S2 : Type} (R : S1 -> S2 -> Prop).
Context (i1 : TopDownIterator S1) (i2 : TopDownIterator S2).
Context (Hi : relatedOn anyCtx R i1 i2).

Lemma evalRefRuleResult_rel ctx ref suffix result :
  related R (evalRefRuleResult E ctx ref suffix result i1)
            (evalRefRuleResult E ctx ref suffix result i2).
Proof.
  unfold evalRefRuleResult.
  destruct result; rel.
  - apply (par_evalRefRec E HE). intros c _. rel.
  - match goal with
    | |- related _ (?f ?hits ?cap) _ => generalize cap; generalize hits
    end.
    intros hits. induction hits as [|[keys value] rest IH]; intros cap; rel. apply IH.
  - match goal with
    | |- related _ (?f ?hits ?cap) _ => generalize cap; generalize hits
    end.
    intros hits. induction hits as [|[keys value] rest IH]; intros cap; rel. apply IH.
Qed.

End RefParam.

Ltac rel_call HE :=
  lazymatch goal with
  | |- related _ (call_evalContext _ _ _ _) (call_evalContext _ _ _ _) =>
      apply (par_evalContext _ HE); intros ? ?
  | |- related _ (call_evalRefRec _ _ _ _ _ _) (call_evalRefRec _ _ _ _ _ _) =>
      apply (par_evalRefRec _ HE); intros ? ?
  | |- related _ (call_evalTermsRec _ _ _ _ _) (call_evalTermsRec _ _ _ _ _) =>
      apply (par_evalTermsRec _ HE); intros ? ?
  | |- related _ (call_evalTermsRecArray _ _ _ _ _ _)
                 (call_evalTermsRecArray _ _ _ _ _ _) =>
      apply (par_evalTermsRecArray _ HE); intros ? ?
  | |- related _ (call_evalTermsRecObject _ _ _ _ _ _)
                 (call_evalTermsRecObject _ _ _ _ _ _) =>
      apply (par_evalTermsRecObject _ HE); intros ? ?
  | |- related _ (call_evalEqUnify _ _ _ _ _ _) (call_evalEqUnify _ _ _ _ _ _) =>
      apply (par_evalEqUnify _ HE); intros ? ?
  end.

Ltac rels HE := cbv zeta; repeat first [rel_step | rel_call HE].

Section RuleParam.
Context (E : Evaluator) (HE : Parametric E).
Context {S1 S2 : Type} (R : S1 -> S2 -> Prop).
Context (i1 : TopDownIterator S1) (i2 : TopDownIterator S2).
Context (Hi : relatedOn anyCtx R i1 i2).

Lemma evalRefRuleCompleteDoc_rel ctx ref path rule :
  related R (evalRefRuleCompleteDoc E ctx ref path rule i1)
            (evalRefRuleCompleteDoc E ctx ref path rule i2).
Proof.
  unfold evalRefRuleCompleteDoc. rels HE; apply evalRefRuleResult_rel; auto.
Qed.

Lemma evalRefRulePartialObjectDoc_rel ctx ref path rule :
  related R (evalRefRulePartialObjectDoc E ctx ref path rule i1)
            (evalRefRulePartialObjectDoc E ctx ref path rule i2).
Proof.
  unfold evalRefRulePartialObjectDoc. rels HE; apply evalRefRuleResult_rel; auto.
Qed.

Lemma evalRefRulePartialSetDoc_rel ctx ref path rule :
  related R (evalRefRulePartialSetDoc E ctx ref path rule i1)
            (evalRefRulePartialSetDoc E ctx ref path rule i2).
Proof.
  unfold evalRefRulePartialSetDoc. rels HE.
Qed.

Lemma evalRefRule_rel ctx ref path rule :
  related R (evalRefRule E ctx ref path rule i1)
            (evalRefRule E ctx ref path rule i2).
Proof.
  unfold evalRefRule.
  destruct (opalog.RuleDocKind rule);
    auto using evalRefRuleCompleteDoc_rel, evalRefRulePartialObjectDoc_rel,
               evalRefRulePartialSetDoc_rel.
Qed.

Lemma evalRefRec_rel ctx ref path :
  related R (evalRefRec E ctx ref i1 path) (evalRefRec E ctx ref i2 path).
Proof.
  unfold evalRefRec. rels HE;
    first [ apply evalRefRuleResult_rel; auto | apply evalRefRule_rel; auto | idtac ].
  all: eapply related_callIter with (P := anyCtx); [ | intros; exact I ].
  all: intros c _; rels HE.
Qed.

Lemma evalRef_rel ctx ref :
  related R (evalRef E ctx ref i1) (evalRef E ctx ref i2).
Proof. apply evalRefRec_rel. Qed.

End RuleParam.

Section SearchParam.
Context (E : Evaluator) (HE : Parametric E).
Context {S1 S2 : Type} (R : S1 -> S2 -> Prop).


Lemma evalTermsRecArray_rel i1 i2 ctx arr idx :
  relatedOn anyCtx R i1 i2 ->
  related R (evalTermsRecArray E ctx arr idx i1)
            (evalTermsRecArray E ctx arr idx i2).
Proof.
  intros Hi.
  unfold evalTermsRecArray. rels HE.
  apply evalRef_rel; auto. intros c _. rels HE.
Qed.

Lemma evalTermsRecObject_rel i1 i2 ctx obj idx :
  relatedOn anyCtx R i1 i2 ->
  related R (evalTermsRecObject E ctx obj idx i1)
            (evalTermsRecObject E ctx obj idx i2).
Proof.
  intros Hi.
  unfold evalTermsRecObject. rels HE.
  all: repeat first
         [ apply evalRef_rel; auto; intros ? _; rels HE
         | apply evalTermsRecArray_rel; auto; intros ? _; rels HE ].
Qed.

Lemma evalTermsRec_rel i1 i2 ctx ts :
  relatedOn anyCtx R i1 i2 ->
  related R (evalTermsRec E ctx i1 ts) (evalTermsRec E ctx i2 ts).
Proof.
  intros Hi.
  unfold evalTermsRec. rels HE.
  all: first
         [ apply evalRef_rel; auto
         | apply evalTermsRecArray_rel; auto
         | apply evalTermsRecObject_rel; auto ];
       intros ? _; rels HE.
Qed.

Lemma evalTermsIndexed_rel i1 i2 ctx indexed nonIndexed :
  relatedOn anyCtx R i1 i2 ->
  related R (evalTermsIndexed E ctx i1 indexed nonIndexed)
            (evalTermsIndexed E ctx i2 indexed nonIndexed).
Proof.
  intros Hi.
  unfold evalTermsIndexed. cbv zeta.
  apply evalTermsRec_rel. intros c _. rels HE.
  match goal with
  | |- related _ (?f ?deltas ?c) _ => generalize c; generalize deltas
  end.
  intros deltas. induction deltas as [|d rest IH]; intros c'; rels HE. apply IH.
Qed.

Lemma evalTerms_rel i1 i2 ctx :
  relatedOn anyCtx R i1 i2 ->
  related R (evalTerms E ctx i1) (evalTerms E ctx i2).
Proof.
  intros Hi.
  unfold evalTerms. rels HE;
    first [ apply evalTermsIndexed_rel | apply evalTermsRec_rel ]; assumption.
Qed.

Lemma evalEq_rel i1 i2 ctx expr :
  relatedOn anyCtx R i1 i2 ->
  related R (evalEq E ctx expr i1) (evalEq E ctx expr i2).
Proof.
  intros Hi.
  unfold evalEq. rels HE. apply evalEqUnify_rel; auto.
Qed.

Lemma evalExpr_rel i1 i2 ctx :
  relatedOn anyCtx R i1 i2 ->
  related R (evalExpr E ctx i1) (evalExpr E ctx i2).
Proof.
  intros Hi.
  unfold evalExpr, traceTry. rels HE.
  unfold builtinFunctions.
  destruct (opalog.Equal (opalog.Var name) equalityBuiltin); rels HE.
  apply evalEq_rel. intros c _. unfold traceSuccess. rels HE.
Qed.


Lemma evalContextNegated_rel i1 i2 ctx :
  relatedOn groundCtx R i1 i2 ->
  related R (evalContextNegated E ctx i1) (evalContextNegated E ctx i2).
Proof.
  intros Hi.
  unfold evalContextNegated. rels HE.
Qed.

Lemma evalContext_rel i1 i2 ctx :
  relatedOn groundCtx R i1 i2 ->
  related R (evalContext E ctx i1) (evalContext E ctx i2).
Proof.
  intros Hi.
  unfold evalContext, traceFinish, traceEval.
  destruct (Nat.leb (List.length (Query ctx)) (Index ctx)).
  - cbv zeta. rewrite Iter_nonGround.
    destruct (allGround (Bindings ctx)) eqn:Hg; cbn [negb]; rels HE.
  - rels HE.
    + apply evalContextNegated_rel; assumption.
    + apply evalTerms_rel. intros c _. apply evalExpr_rel. intros c' _.
      rels HE.
Qed.

End SearchParam.

Lemma evaluator_parametric fuel : Parametric (evaluator fuel).
Proof.
  induction fuel as [|n IH].
  - constructor; intros; cbn; apply related_ret.
  - constructor; intros; cbn.
    + apply evalContext_rel; auto.
    + apply evalRefRec_rel; auto.
    + apply evalTermsRec_rel; auto.
    + apply evalTermsRecArray_rel; auto.
    + apply evalTermsRecObject_rel; auto.
    + apply evalEqUnify_rel; auto.
Qed.

(** ** What the iterator is handed *)

Lemma relatedOn_invariant {St} (P : TopDownContext -> Prop) (Inv : St -> Prop)
  (iter : TopDownIterator St) :
  (forall c, P c -> preserves Inv (iter c)) ->
  relatedOn P (fun s1 s2 => s1 = s2 /\ Inv s1) iter iter.
Proof.
  intros H c Hc w s1 s2 [<- HI]. specialize (H c Hc w s1 HI).
  destruct (iter c w s1) as [[w' s'] r]. cbn in H. auto.
Qed.

Lemma related_invariant {St} (Inv : St -> Prop) (m : M St) :
  related (fun s1 s2 => s1 = s2 /\ Inv s1) m m -> preserves Inv m.
Proof.
  intros H w s HI. specialize (H w s s (conj eq_refl HI)).
  destruct (m w s) as [[w' s'] r]. cbn. tauto.
Qed.

Lemma evalContext_delivers_ground fuel ctx :
  delivers groundCtx (fun St => @evalContext (evaluator fuel) St ctx).
Proof.
  intros St Inv iter Hiter. apply related_invariant.
  apply evalContext_rel.
  - apply evaluator_parametric.
  - apply relatedOn_invariant. assumption.
Qed.

Lemma call_evalContext_delivers_ground fuel ctx :
  delivers groundCtx (fun St => call_evalContext (evaluator fuel) St ctx).
Proof.
  intros St Inv iter Hiter. apply related_invariant.
  apply (par_evalContext _ (evaluator_parametric fuel)).
  apply relatedOn_invariant. assumption.
Qed.

Lemma preserves_ret {St} (Inv : St -> Prop) r : preserves Inv (ret r).
Proof. intros w s H. exact H. Qed.

Lemma preserves_withRes {St A} (Inv : St -> Prop) (r : Res A) k :
  (forall a, r = Ok a -> preserves Inv (k a)) -> preserves Inv (withRes r k).
Proof. intros H. destruct r; cbn; auto using preserves_ret. Qed.

Lemma preserves_withCaptured {St L} (Inv : St -> Prop) (l0 : L) m :
  preserves (fun sl => Inv (fst sl)) m -> preserves Inv (withCaptured l0 m).
Proof.
  intros H w s HI. unfold withCaptured. specialize (H w (s, l0) HI).
  destruct (m w (s, l0)) as [[w' [s' l']] r]. exact H.
Qed.

Lemma preserves_captured {St L} (Inv : St -> Prop) (f : L -> M (St * L)) :
  (forall l, preserves (fun sl => Inv (fst sl)) (f l)) ->
  preserves (fun sl => Inv (fst sl)) (captured f).
Proof. intros H w sl HI. unfold captured. apply H. exact HI. Qed.

Lemma preserves_assigning {St L} (Inv : St -> Prop) (l : L) m :
  preserves Inv m -> preserves (fun sl => Inv (fst sl)) (assigning l m).
Proof.
  intros H w sl HI. unfold assigning. specialize (H w (fst sl) HI).
  destruct (m w (fst sl)) as [[w' s'] r]. exact H.
Qed.

(** C1.  At the end of the body (index >= length of the query),
    [evalContext] calls the iterator, once and on the context itself, when
    every bound value is ground, and otherwise calls nothing and returns a
    nil error; and whatever the body and the starting context, every
    context [evalContext] hands to its iterator has all its bound values
    ground. *)
Theorem ground_completeness (fuel : nat) (ctx : TopDownContext) :
  (forall St (iter : TopDownIterator St) w s,
     List.length (Query ctx) <= Index ctx ->
     (allGround (Bindings ctx) = true ->
      evalContext (evaluator fuel) ctx iter w s
      = (traceFinish ctx ;; iter ctx) w s)
     /\ (allGround (Bindings ctx) = false ->
         evalContext (evaluator fuel) ctx iter w s = (w, s, Ok tt)))
  /\ delivers groundCtx (fun St => @evalContext (evaluator fuel) St ctx).
Proof.
  split.
  - intros St iter w s Hend. unfold evalContext.
    apply Nat.leb_le in Hend. rewrite Hend. cbv zeta. rewrite Iter_nonGround.
    split; intros ->; reflexivity.
  - apply evalContext_delivers_ground.
Qed.

Lemma ground_completeness_witness :
  evalContext (evaluator 3) groundContext record emptyWorld []
    = (emptyWorld, [groundContext], Ok tt)
  /\ evalContext (evaluator 3) openContext record emptyWorld []
     = (emptyWorld, [], Ok tt)
  /\ delivers groundCtx (fun St => @evalContext (evaluator 3) St groundContext).
Proof.
  split; [|split].
  - transitivity ((traceFinish groundContext ;; record groundContext) emptyWorld []);
      [|reflexivity].
    apply (proj1 (ground_completeness 3 groundContext) _ record emptyWorld []).
    + cbn. lia.
    + reflexivity.
  - apply (proj1 (ground_completeness 3 openContext) _ record emptyWorld []).
    + cbn. lia.
    + reflexivity.
  - apply (proj2 (ground_completeness 3 groundContext)).
Defined.

(** ** Negation as failure *)

Lemma setIsTrue_record :
  relatedOn groundCtx (fun (b : bool) (l : list TopDownContext) => b = nonEmpty l)
            setIsTrue record.
Proof.
  intros c _ w b l _. cbn. repeat split. destruct l; reflexivity.
Qed.

Lemma evalContext_setIsTrue fuel ctx w w' results r :
  evalContext (evaluator fuel) ctx record w [] = (w', results, r) ->
  evalContext (evaluator fuel) ctx setIsTrue w false = (w', nonEmpty results, r).
Proof.
  intros Hrec.
  assert (H := evalContext_rel (evaluator fuel) (evaluator_parametric fuel)
                 _ setIsTrue record ctx setIsTrue_record w false []
                 eq_refl).
  rewrite Hrec in H.
  destruct (evalContext (evaluator fuel) ctx setIsTrue w false) as [[w1 b] r1].
  destruct H as (-> & -> & ->). reflexivity.
Qed.

(** C4 (as amended).  Let the one-expression body holding the complement of
    the current expression be evaluated under the bindings of the context,
    emitting [results] and returning [r].  If [r] is a nil error and nothing
    was emitted, [evalContextNegated] is the evaluation of the next
    expression under the same bindings; if [r] is a nil error and something
    was emitted, it emits nothing and returns a nil error; if [r] is an
    error, that error is returned and nothing is emitted, whether or not the
    complement emitted a result. *)
Theorem negation_as_failure (fuel : nat) {St} (ctx : TopDownContext)
  (iter : TopDownIterator St) (w : World) (s : St) (current : opalog.Expr)
  (w' : World) (results : list TopDownContext) (r : Res unit) :
  Current ctx = Ok current ->
  evalContext (evaluator fuel) (negationContext ctx current) record w []
  = (w', results, r) ->
  evalContextNegated (evaluator (S fuel)) ctx iter w s
  = match r with
    | Ok _ =>
        match results with
        | [] => evalContext (evaluator fuel) (Step ctx) iter w' s
        | _ :: _ => (w', s, Ok tt)
        end
    | Err err => (w', s, Err err)
    | Panic msg => (w', s, Panic msg)
    | Diverge => (w', s, Diverge)
    end
  /\ Bindings (Step ctx) = Bindings ctx
  /\ Index (Step ctx) = S (Index ctx)
  /\ Bindings (negationContext ctx current) = Bindings ctx.
Proof.
  intros Hcur Hrec. repeat split; try (destruct ctx; reflexivity).
  unfold evalContextNegated. rewrite Hcur. cbn [withRes]. cbv zeta.
  unfold capture. cbn [call_evalContext evaluator].
  fold (negationContext ctx current).
  rewrite (evalContext_setIsTrue _ _ _ _ _ _ Hrec).
  destruct r; try reflexivity. destruct results; reflexivity.
Qed.

(** Over a store where [a[0]] is an array and [a[1]] a number, the
    complement of [not [a[i][j]] = [1]] emits a result and then fails on
    [a[1]]: the negated expression returns the error.  The complement of
    [not 1] emits nothing and fails: the negated expression returns the
    error, where advancing would have emitted. *)
Lemma negation_error_not_failure :
  (let ctx := NewTopDownContext [notMember] storeA in
   (exists c,
      evalContext (evaluator 20) (negationContext ctx notMember) record emptyWorld []
      = (emptyWorld, [c], Err (nonComposite 1)))
   /\ evalContextNegated (evaluator 21) ctx record emptyWorld []
      = (emptyWorld, [], Err (nonComposite 1)))
  /\ (let ctx := NewTopDownContext [notOne] storeA in
      evalContext (evaluator 20) (negationContext ctx notOne) record emptyWorld []
      = (emptyWorld, [], Err (ErrImplicitCast (opalog.Number 1)))
      /\ evalContextNegated (evaluator 21) ctx record emptyWorld []
         = (emptyWorld, [], Err (ErrImplicitCast (opalog.Number 1)))
      /\ evalContext (evaluator 20) (Step ctx) record emptyWorld []
         = (emptyWorld, [Step ctx], Ok tt)).
Proof.
  cbv zeta. split; [split|].
  - eexists. vm_compute. reflexivity.
  - vm_compute. reflexivity.
  - repeat split; vm_compute; reflexivity.
Qed.

Lemma negation_as_failure_witness :
  let ctx := NewTopDownContext [notFalse] storeA in
  evalContextNegated (evaluator 6) ctx record emptyWorld []
  = (emptyWorld, [Step ctx], Ok tt)
  /\ Bindings (Step ctx) = Bindings ctx
  /\ Index (Step ctx) = S (Index ctx)
  /\ Bindings (negationContext ctx notFalse) = Bindings ctx.
Proof.
  cbv zeta.
  destruct (negation_as_failure 5 (NewTopDownContext [notFalse] storeA) record
              emptyWorld [] notFalse emptyWorld [] (Ok tt) eq_refl eq_refl)
    as (Hnegated & Hbindings & Hindex & Hnegation).
  repeat split; assumption.
Defined.

(** ** The query entry point *)

(** C6 (as amended).  [TopDownQuery] hands the rules found at the path to
    [topDownQueryCompleteDoc] when the first of them is a complete document.
    With more than one rule, the error "multiple conflicting rules" is
    returned.  With exactly one rule, let its body be evaluated from empty
    bindings, emitting [results] and returning [r]: an error [r] is
    returned as it is; otherwise the result is [Undefined] when nothing was
    emitted, and the value of the rule converted to a native value when
    something was. *)
Theorem complete_doc_query (fuel : nat) (params : TopDownQueryParams)
  (rules : list Rule) (w : World) :
  (forall p0 ps rule0 rest,
     Path params = p0 :: ps ->
     lookup (PStore params) (opalog.VarTerm p0 :: map opalog.StringTerm ps)
       = Ok (NRules rules) ->
     rules = rule0 :: rest ->
     opalog.RuleDocKind rule0 = opalog.CompleteDoc ->
     TopDownQuery (evaluator fuel) params w
     = topDownQueryCompleteDoc (evaluator fuel) params rules w)
  /\ (forall rule0 rest,
        rules = rule0 :: rest -> 1 < List.length rules ->
        topDownQueryCompleteDoc (evaluator fuel) params rules w
        = (w, Err (ErrMultipleConflictingRules (opalog.Name rule0))))
  /\ (forall rule w' results r,
        rules = [rule] ->
        evalContext (evaluator fuel) (ruleContext params rule) record w []
          = (w', results, r) ->
        topDownQueryCompleteDoc (evaluator fuel) params rules w
        = (w', match r with
               | Ok _ =>
                   match results with
                   | [] => Ok Undefined
                   | _ :: _ => convertedValue params rule
                   end
               | Err err => Err err
               | Panic msg => Panic msg
               | Diverge => Diverge
               end)).
Proof.
  repeat split.
  - intros p0 ps rule0 rest Hpath Hlookup -> Hkind.
    unfold TopDownQuery. rewrite Hpath, Hlookup, Hkind. reflexivity.
  - intros rule0 rest -> Hlen. unfold topDownQueryCompleteDoc.
    apply Nat.ltb_lt in Hlen. rewrite Hlen. reflexivity.
  - intros rule w' results r -> Hrec. unfold topDownQueryCompleteDoc.
    cbn [List.length Nat.ltb Nat.leb]. unfold query, TopDown.
    fold (ruleContext params rule).
    rewrite (evalContext_setIsTrue _ _ _ _ _ _ Hrec).
    destruct r; try reflexivity. destruct results; reflexivity.
Qed.

(** The one rule [p = true :- [a[i][j]] = [1]]: over [a = [2]] its body has
    no grounding and the query returns an error, not [Undefined]; over
    [a = [[1], 2]] its body has a grounding and the query returns an error,
    not the value of the rule. *)
Lemma complete_doc_query_error :
  (evalContext (evaluator 20) (ruleContext (paramsP storeNoArray) ruleMember)
               record emptyWorld []
   = (emptyWorld, [], Err (nonComposite 0))
   /\ TopDownQuery (evaluator 20) (paramsP storeNoArray) emptyWorld
      = (emptyWorld, Err (nonComposite 0)))
  /\ ((exists c,
         evalContext (evaluator 20) (ruleContext (paramsP storeP) ruleMember)
                     record emptyWorld []
         = (emptyWorld, [c], Err (nonComposite 1)))
      /\ TopDownQuery (evaluator 20) (paramsP storeP) emptyWorld
         = (emptyWorld, Err (nonComposite 1))).
Proof.
  repeat split; try (vm_compute; reflexivity).
  eexists. vm_compute. reflexivity.
Qed.

Lemma complete_doc_query_witness :
  TopDownQuery (evaluator 9) (paramsP storeTrue) emptyWorld
    = topDownQueryCompleteDoc (evaluator 9) (paramsP storeTrue) [ruleTrue] emptyWorld
  /\ topDownQueryCompleteDoc (evaluator 9) (paramsP storeTrue)
       [ruleTrue; ruleTrue] emptyWorld
     = (emptyWorld, Err (ErrMultipleConflictingRules "p"))
  /\ topDownQueryCompleteDoc (evaluator 9) (paramsP storeTrue) [ruleTrue] emptyWorld
     = (emptyWorld, Ok (Document (NBool true))).
Proof.
  split; [|split].
  - apply (proj1 (complete_doc_query 9 (paramsP storeTrue) [ruleTrue] emptyWorld)
             "p" [] ruleTrue []); reflexivity.
  - apply (proj1 (proj2 (complete_doc_query 9 (paramsP storeTrue)
                           [ruleTrue; ruleTrue] emptyWorld)) ruleTrue [ruleTrue]).
    + reflexivity.
    + cbn. lia.
  - apply (proj2 (proj2 (complete_doc_query 9 (paramsP storeTrue) [ruleTrue]
                           emptyWorld))
             ruleTrue emptyWorld
             [mkContext (opalog.RBody ruleTrue) newHashMap 1 None storeTrue None]
             (Ok tt)); reflexivity.
Defined.

Lemma forEach_app {St A} (l1 l2 : list A) (f : A -> M St) w s :
  forEach (l1 ++ l2) f w s = (forEach l1 f ;; forEach l2 f) w s.
Proof.
  revert w s. induction l1 as [|x l1 IH]; intros w s; cbn.
  - reflexivity.
  - unfold andThen. destruct (f x w s) as [[w' s'] r].
    destruct r; try reflexivity. rewrite IH. reflexivity.
Qed.

(** [topDownQueryPartialSetDoc] only appends: the list returned for
    [rules1 ++ rules2] is the list returned for [rules1] followed by the list
    returned for [rules2]. *)
Lemma partial_set_query_app (fuel : nat) (params : TopDownQueryParams)
  (rules1 rules2 : list Rule) (w w1 w2 : World) (keys1 keys2 : list Native) :
  topDownQueryPartialSetDoc (evaluator fuel) params rules1 w
    = (w1, Ok (Document (NArray keys1))) ->
  topDownQueryPartialSetDoc (evaluator fuel) params rules2 w1
    = (w2, Ok (Document (NArray keys2))) ->
  topDownQueryPartialSetDoc (evaluator fuel) params (rules1 ++ rules2) w
    = (w2, Ok (Document (NArray (keys1 ++ keys2)))).
Proof.
  unfold topDownQueryPartialSetDoc, query.
  match goal with
  | |- context [forEach rules1 ?g] => set (f := g)
  end.
  intros H1 H2. rewrite forEach_app. unfold andThen.
  destruct (forEach rules1 f w []) as [[wa sa] ra].
  destruct ra; try discriminate. injection H1 as -> ->.
  assert (Hrel : related (fun s1 s2 : list Native => s1 = keys1 ++ s2)
                         (forEach rules2 f) (forEach rules2 f)).
  { apply related_forEach. intros rule. subst f. cbv beta.
    cbv zeta. apply related_withRes. intros key.
    unfold TopDown. apply evalContext_rel.
    - apply evaluator_parametric.
    - intros c _. apply related_withRes. intros value w0 s1 s2 ->.
      repeat split. symmetry. apply app_assoc. }
  specialize (Hrel w1 keys1 [] (eq_sym (app_nil_r _))).
  destruct (forEach rules2 f w1 []) as [[wb sb] rb].
  destruct rb; try discriminate. injection H2 as -> ->.
  destruct (forEach rules2 f w1 keys1) as [[wc sc] rc].
  destruct Hrel as (-> & -> & ->). reflexivity.
Qed.

(** Two rules [p[x] :- x = 1] at the path [p]: the query returns [[1, 1]]. *)
Lemma partial_set_query_duplicates :
  TopDownQuery (evaluator 10) (paramsP storeOneTwice) emptyWorld
    = (emptyWorld, Ok (Document (NArray [NNumber 1; NNumber 1])))
  /\ topDownQueryPartialSetDoc (evaluator 10) (paramsP storeOneTwice)
       [ruleOne; ruleOne] emptyWorld
     = (emptyWorld, Ok (Document (NArray [NNumber 1; NNumber 1])))
  /\ ~ NoDup [NNumber 1; NNumber 1].
Proof.
  split; [vm_compute; reflexivity | split; [vm_compute; reflexivity |]].
  intros H. inversion H as [|x l Hnotin Hnodup]. apply Hnotin. left. reflexivity.
Qed.

(** C10.  [topDownQueryPartialObjectDoc] returns the map obtained by
    assigning, in the order of the groundings (rule after rule), each
    dereferenced value to its dereferenced key, and returns an error only
    where dereferencing or the evaluation fails; in that map a key holds the
    value of the last grounding that produced it. *)
Theorem partial_object_last_write_wins (fuel : nat)
  (params : TopDownQueryParams) (rules : list Rule) (w : World) :
  (forall w' pairs r,
     groundings (evaluator fuel) params rules w [] = (w', pairs, r) ->
     topDownQueryPartialObjectDoc (evaluator fuel) params rules w
     = (w', match r with
            | Ok _ => Ok (Document (NMap (assignAll pairs)))
            | Err err => Err err
            | Panic msg => Panic msg
            | Diverge => Diverge
            end))
  /\ (forall earlier k v later,
        ~ In k (map fst later) ->
        mapGet (assignAll (earlier ++ (k, v) :: later)) k = Some v).
Proof.
  split.
  - intros w' pairs r Hrec.
    unfold topDownQueryPartialObjectDoc, query. unfold groundings in Hrec.
    match goal with
    | |- context [forEach rules ?f w []] => set (f1 := f)
    end.
    match type of Hrec with
    | forEach rules ?f w [] = _ => set (f2 := f) in Hrec
    end.
    assert (Hrel : related (fun (m : list (string * Native)) l => m = assignAll l)
                           (forEach rules f1) (forEach rules f2)).
    { apply related_forEach. intros rule. subst f1 f2. cbv beta. cbv zeta.
      apply related_withRes. intros key. apply related_withRes. intros value.
      unfold TopDown. fold (ruleContext params rule). apply evalContext_rel.
      - apply evaluator_parametric.
      - intros c _. unfold recordPairs. apply related_withRes. intros k.
        destruct k; cbv beta iota; rel_step.
        intros w0 m l ->. repeat split.
        unfold assignAll. rewrite fold_left_app. reflexivity. }
    specialize (Hrel w [] [] eq_refl). rewrite Hrec in Hrel.
    destruct (forEach rules f1 w []) as [[wa ma] ra].
    destruct Hrel as (-> & -> & ->). destruct r; reflexivity.
  - intros earlier k v later Hnot. unfold assignAll.
    rewrite fold_left_app. cbn [fold_left fst snd].
    apply fold_mapSet_keeps; auto. apply mapGet_mapSet_same.
Qed.

Lemma partial_object_last_write_wins_witness :
  topDownQueryPartialObjectDoc (evaluator 12) (paramsP storeKV)
    [ruleKV 1; ruleKV 2] emptyWorld
  = (emptyWorld, Ok (Document (NMap (assignAll [("a", NNumber 1); ("a", NNumber 2)]))))
  /\ mapGet (assignAll ([("a", NNumber 1)] ++ ("a", NNumber 2) :: [])) "a"
     = Some (NNumber 2).
Proof.
  split.
  - apply (proj1 (partial_object_last_write_wins 12 (paramsP storeKV)
                    [ruleKV 1; ruleKV 2] emptyWorld)
             emptyWorld [("a", NNumber 1); ("a", NNumber 2)] (Ok tt)).
    vm_compute. reflexivity.
  - apply (proj2 (partial_object_last_write_wins 12 (paramsP storeKV)
                    [ruleKV 1; ruleKV 2] emptyWorld)
             [("a", NNumber 1)] "a" (NNumber 2) []).
    cbn. tauto.
Defined.

(** ** Dereferencing a partial set *)

(** C9.  When the reference goes more than one term beyond the path of the
    rules, [evalRefRulePartialSetDoc] emits nothing and returns a nil error.
    When it goes exactly one term beyond it, every context handed to the
    iterator binds the reference up to and including that term to
    [Boolean(true)], and, when that term plugs to a variable, binds the
    variable to a ground value.  That value is the one the child context
    gives to the key of the rule: when the term plugs to a variable [x], the
    rule is evaluated in a child context with an iterator that, for each
    child context it is handed, with the key of the rule bound there to
    [value], calls the iterator of the caller on the captured context
    extended by [x -> value] and by the binding of the reference to
    [Boolean(true)] (a panic if [BindVar] answers nil). *)
Theorem partial_set_dereference (fuel : nat) (ctx : TopDownContext)
  (ref path : list Term) (rule : Rule) :
  (forall St (iter : TopDownIterator St) w s suffix,
     sliceFrom ref (List.length path) = Ok suffix ->
     1 < List.length suffix ->
     evalRefRulePartialSetDoc (evaluator fuel) ctx ref path rule iter w s
     = (w, s, Ok tt))
  /\ (forall suffix0,
        sliceFrom ref (List.length path) = Ok [suffix0] ->
        delivers (partialSetBound ctx ref path rule suffix0)
          (fun St => @evalRefRulePartialSetDoc (evaluator fuel) St ctx ref path rule))
  /\ (forall suffix0 x St (iter : TopDownIterator St),
        sliceFrom ref (List.length path) = Ok [suffix0] ->
        plugValue (TValue suffix0) (Bindings ctx) = opalog.Var x ->
        exists closure : TopDownIterator (St * option TopDownContext),
          (forall w s,
             evalRefRulePartialSetDoc (evaluator fuel) ctx ref path rule iter w s
             = withCaptured (Some ctx)
                 (call_evalContext (evaluator fuel) _ (Child ctx rule newHashMap)
                                   closure) w s)
          /\ forall child ruleKey value c0 w s,
               opalog.Key rule = Some ruleKey ->
               Get (Bindings child) (TValue ruleKey) = Some value ->
               opalog.IsGround value = true ->
               match BindVar c0 x value with
               | Some c1 =>
                   let c := BindRef c1 (firstn (List.length path + 1) ref)
                                    (opalog.Boolean true) in
                   closure child w (s, Some c0)
                   = assigning (Some c) (iter c) w (s, Some c0)
                   /\ Get (Bindings c) (opalog.Var x) = Some value
                   /\ Get (Bindings c)
                          (opalog.Ref (firstn (List.length path + 1) ref))
                      = Some (opalog.Boolean true)
               | None =>
                   closure child w (s, Some c0) = (w, (s, Some c0), nilPanic)
               end).
Proof.
  split; [|split].
  - intros St iter w s suffix Hsuffix Hlen.
    unfold evalRefRulePartialSetDoc. rewrite Hsuffix. cbn [withRes].
    destruct suffix as [|suffix0 rest]; [cbn in Hlen; lia|].
    apply Nat.ltb_lt in Hlen. rewrite Hlen. reflexivity.
  - intros suffix0 Hsuffix St Inv iter Hiter.
    unfold evalRefRulePartialSetDoc. rewrite Hsuffix. cbn [withRes].
    cbn [List.length Nat.ltb Nat.leb]. cbv zeta.
    destruct (opalog.IsGround (plugValue (TValue suffix0) (Bindings ctx)))
      eqn:Hground; cbn [negb].
    + (* the key is ground *)
      apply preserves_withRes. intros ruleKey _.
      apply preserves_withCaptured.
      apply (call_evalContext_delivers_ground fuel). intros child _.
      apply preserves_captured. intros cap.
      apply preserves_assigning. apply Hiter. split.
      * rewrite Bindings_BindRef. apply Get_Put_same.
      * intros x Hx. rewrite Hx in Hground. discriminate.
    + (* the key is not ground *)
      apply preserves_withCaptured.
      apply (call_evalContext_delivers_ground fuel). intros child Hchild.
      apply preserves_captured. intros cap.
      apply preserves_withRes. intros ruleKey HruleKey.
      destruct (Get (Bindings child) (TValue ruleKey)) as [value|] eqn:Hvalue;
        [|apply preserves_ret].
      destruct (plugValue (TValue suffix0) (Bindings ctx))
        as [| | | |x| | |] eqn:Hkey;
        try apply preserves_ret.
      apply preserves_withRes. intros cap1 Hcap1.
      apply preserves_withRes. intros c2 Hc2.
      apply preserves_assigning. apply Hiter.
      destruct cap1 as [c1|]; [|discriminate]. cbn in Hc2.
      injection Hc2 as <-.
      assert (Hvg : opalog.IsGround value = true)
        by (eapply allGround_Get; eauto).
      split.
      * rewrite Bindings_BindRef. apply Get_Put_same.
      * intros x' Hx'. rewrite Hkey in Hx'. injection Hx' as <-.
        exists ruleKey, child, value. repeat split; auto.
        -- destruct (opalog.Key rule); [congruence | discriminate].
        -- destruct cap as [c0|].
           ++ cbn in Hcap1. injection Hcap1 as Hbind.
              apply (BindVar_binds _ _ _ _ Hvg) in Hbind.
              rewrite Bindings_BindRef, Get_Put_Ref_Var. assumption.
           ++ unfold BindVarOn in Hcap1.
              destruct (opalog.Equal (opalog.Var x) value);
                [discriminate|].
              destruct (walkValue value _); discriminate.
  - intros suffix0 x St iter Hsuffix Hkey.
    unfold evalRefRulePartialSetDoc. rewrite Hsuffix. cbn [withRes].
    cbn [List.length Nat.ltb Nat.leb]. cbv zeta. rewrite Hkey. cbn [negb opalog.IsGround].
    eexists. split; [intros w s; reflexivity|].
    intros child ruleKey value c0 w s HruleKey Hvalue Hvg.
    unfold captured. cbn [snd]. rewrite HruleKey. cbn [withRes]. rewrite Hvalue.
    cbn [BindVarOn withRes].
    destruct (BindVar c0 x value) as [c1|] eqn:Hbind.
    + cbn [BindRefOn withRes]. cbv zeta. split; [reflexivity|]. split.
      * rewrite Bindings_BindRef, Get_Put_Ref_Var.
        eapply BindVar_binds; eauto.
      * rewrite Bindings_BindRef. apply Get_Put_same.
    + reflexivity.
Qed.

Lemma partial_set_dereference_witness :
  evalRefRulePartialSetDoc (evaluator 10) (NewTopDownContext [] storeOneTwice)
    refPYZ pathP ruleOne record emptyWorld [] = (emptyWorld, [], Ok tt)
  /\ delivers
       (partialSetBound (NewTopDownContext [] storeOneTwice) refPY pathP ruleOne
                        (term (opalog.Var "y")))
       (fun St => @evalRefRulePartialSetDoc (evaluator 10) St
                    (NewTopDownContext [] storeOneTwice) refPY pathP ruleOne)
  /\ (exists c,
        evalRefRulePartialSetDoc (evaluator 10) (NewTopDownContext [] storeOneTwice)
          refPY pathP ruleOne record emptyWorld [] = (emptyWorld, [c], Ok tt)
        /\ Get (Bindings c) (opalog.Var "y") = Some (opalog.Number 1)
        /\ Get (Bindings c) (opalog.Ref refPY) = Some (opalog.Boolean true)).
Proof.
  split; [|split].
  - apply (proj1 (partial_set_dereference 10 (NewTopDownContext [] storeOneTwice)
                    refPYZ pathP ruleOne)
             _ record emptyWorld [] [term (opalog.Var "y"); term (opalog.Var "z")]).
    + reflexivity.
    + cbn. lia.
  - apply (proj1 (proj2 (partial_set_dereference 10
                           (NewTopDownContext [] storeOneTwice)
                           refPY pathP ruleOne))).
    reflexivity.
  - eexists. repeat split; vm_compute; reflexivity.
Defined.

(** ** Worked examples *)

(** Base-document iteration through the index: [data.a[i].b.c[j] = 2] has the
    single solution [{i: 0, j: 1}]. *)
Example scenario_base_doc_iteration :
  let '(found, r) :=
    solutions 30 [equality (refNested "i" "j") (opalog.Number 2)] storeNested in
  (map Bindings found, r)
  = ([[(opalog.Var "i", opalog.Number 0); (opalog.Var "j", opalog.Number 1)]],
     Ok tt).
Proof. vm_compute. reflexivity. Qed.

(** Wildcards: [data.a[_].b.c[_] = x] enumerates the six leaves in iteration
    order. *)
Example scenario_wildcard_flattening :
  let '(found, r) :=
    solutions 30 [equality (refNested "$0" "$1") (opalog.Var "x")] storeNested in
  (map (dereferenceVar "x") found, r)
  = ([Ok (NBool true); Ok (NNumber 2); Ok (NBool false);
      Ok (NBool false); Ok (NBool true); Ok (NNumber 1)],
     Ok tt).
Proof. vm_compute. reflexivity. Qed.

(** Negation and equality: with [p[x] :- q[x], not r[x]] over
    [y = [1,2,3,4]] and [z = [3,4,5,6]], the document [p] is [[1, 2]]. *)
Example scenario_negation_equality :
  snd (TopDownQuery (evaluator 40) (mkParams storeDifference None ["p"])
                    emptyWorld)
  = Ok (Document (NArray [NNumber 1; NNumber 2])).
Proof. vm_compute. reflexivity. Qed.

(** Dereferencing through a partial object: [q.foo[0] = y] gives [y = 10]. *)
Example scenario_cross_reference :
  let '(found, r) :=
    solutions 30
      [equality (refOf [opalog.Var "q"; opalog.String "foo"; opalog.Number 0])
                (opalog.Var "y")]
      storeCopy in
  (map (dereferenceVar "y") found, r) = ([Ok (NNumber 10)], Ok tt).
Proof. vm_compute. reflexivity. Qed.

(** * Further properties of the evaluator *)

(** ** Plugging and binding *)

Lemma plugTerm_fixed t b :
  plugValue (TValue t) b = TValue t -> opalog.IsGround (TValue t) = true ->
  plugTerm t b = t.
Proof.
  destruct t as [v l]. cbn [TValue]. intros Hp Hg.
  destruct v; cbn [plugTerm]; try reflexivity; try (rewrite Hp; reflexivity).
  discriminate.
Qed.

Lemma map_fixed {A} (f : A -> A) l :
  Forall (fun x => f x = x) l -> map f l = l.
Proof. induction 1; cbn; congruence. Qed.

(** X1.  A ground value is returned unchanged by [plugValue] when no reference is
    a key of the bindings: [plugValue] replaces variables, of which a ground
    value has none, and references that are bound as a whole. *)
Theorem plugValue_ground v b :
  noRefBound b -> opalog.IsGround v = true -> plugValue v b = v.
Proof.
  intros Hb.
  induction v as [ | c | n | s | x | ts H | ts H | ps H ] using Value_induction;
    intros Hg; try reflexivity.
  - discriminate.
  - cbn [plugValue]. rewrite Hb, Hg. reflexivity.
  - cbn [plugValue]. f_equal. apply map_fixed.
    cbn in Hg. rewrite forallb_forall in Hg. rewrite Forall_forall in *.
    intros t Hin. specialize (Hg t Hin). specialize (H t Hin).
    assert (Hgt : opalog.IsGround (TValue t) = true) by (destruct t; exact Hg).
    apply plugTerm_fixed; auto.
  - cbn [plugValue]. f_equal. apply map_fixed.
    cbn in Hg. rewrite forallb_forall in Hg. rewrite Forall_forall in *.
    intros [k x] Hin. specialize (Hg _ Hin). destruct (H _ Hin) as [Hk Hx].
    assert (Hgk : opalog.IsGround (TValue k) = true
                  /\ opalog.IsGround (TValue x) = true).
    { destruct k, x. cbn in *. apply andb_prop in Hg. exact Hg. }
    destruct Hgk as [Hgk Hgx]. cbn [fst snd] in *.
    rewrite !plugTerm_fixed; auto.
Qed.

Lemma plugValue_ground_witness :
  plugValue arrayOneA0 [(opalog.Var "x", opalog.Number 2)] = arrayOneA0.
Proof.
  apply plugValue_ground; [intros ts; reflexivity | reflexivity].
Defined.

Lemma Equal_inv_Var k y :
  opalog.Equal k (opalog.Var y) = true -> k = opalog.Var y.
Proof.
  destruct k; cbn; try discriminate. intros H.
  apply String.eqb_eq in H. congruence.
Qed.

Lemma Equal_Var_Var x y :
  opalog.Equal (opalog.Var x) (opalog.Var y) = String.eqb x y.
Proof. reflexivity. Qed.

Lemma Get_Put_other_var h k v y :
  opalog.Equal k (opalog.Var y) = false ->
  Get (Put h k v) (opalog.Var y) = Get h (opalog.Var y).
Proof.
  intros Hk. induction h as [|[k' v'] rest IH]; cbn.
  - rewrite Hk. reflexivity.
  - destruct (opalog.Equal k' k) eqn:Hkk; cbn.
    + destruct (opalog.Equal k' (opalog.Var y)) eqn:Hky; auto.
      apply Equal_inv_Var in Hky. subst k'.
      apply Equal_Var_inv in Hkk. subst k.
      rewrite Equal_refl in Hk. discriminate.
    + rewrite IH. reflexivity.
Qed.

Lemma varKeys_cons k v rest :
  varKeys ((k, v) :: rest)
  = match k with opalog.Var y => [y] | _ => [] end ++ varKeys rest.
Proof. reflexivity. Qed.

Lemma Get_varKeys b y :
  Get b (opalog.Var y) = None <-> ~ In y (varKeys b).
Proof.
  induction b as [|[k v] rest IH]; [cbn; tauto|].
  rewrite varKeys_cons. cbn [Get].
  destruct (opalog.Equal k (opalog.Var y)) eqn:Hk.
  - apply Equal_inv_Var in Hk. subst k. cbn. split; [discriminate|].
    intros H. exfalso. apply H. left. reflexivity.
  - rewrite IH. destruct k; cbn; try tauto.
    rewrite Equal_Var_Var in Hk. apply String.eqb_neq in Hk.
    split; [intros H [Heq|Hin]; auto | intros H Hin; apply H; auto].
Qed.

Lemma varKeys_Put h k v :
  varKeys (Put h k v)
  = match Get h k with
    | Some _ => varKeys h
    | None => varKeys h ++ match k with opalog.Var y => [y] | _ => [] end
    end.
Proof.
  induction h as [|[k' v'] rest IH]; [cbn; apply app_nil_r|].
  cbn [Put Get]. destruct (opalog.Equal k' k) eqn:Hkk.
  - reflexivity.
  - rewrite !varKeys_cons, IH.
    destruct (Get rest k); [reflexivity|]. rewrite app_assoc. reflexivity.
Qed.

Lemma NoDup_snoc {A} (l : list A) a : NoDup l -> ~ In a l -> NoDup (l ++ [a]).
Proof.
  intros Hl Ha. induction Hl as [|x l Hx Hl IH]; cbn.
  - constructor; [intros []|constructor].
  - constructor.
    + rewrite in_app_iff. intros [H|[H|[]]]; [auto|]. subst. apply Ha. left. reflexivity.
    + apply IH. intros H. apply Ha. right. assumption.
Qed.

Lemma NoDup_varKeys_Put h k v :
  NoDup (varKeys h) -> NoDup (varKeys (Put h k v)).
Proof.
  intros H. rewrite varKeys_Put. destruct (Get h k) eqn:Hg; auto.
  destruct k; rewrite ?app_nil_r; auto.
  apply NoDup_snoc; auto. apply Get_varKeys. assumption.
Qed.

Lemma fold_Put_Get (f : Value -> Value) l : forall acc y,
  NoDup (varKeys l) ->
  (forall z, In z (varKeys l) -> Get acc (opalog.Var z) = None) ->
  Get (fold_left (fun acc kv => Put acc (fst kv) (f (snd kv))) l acc) (opalog.Var y)
  = match Get acc (opalog.Var y) with
    | Some v => Some v
    | None => option_map f (Get l (opalog.Var y))
    end.
Proof.
  induction l as [|[k v0] l IH]; intros acc y Hnd Hacc.
  - cbn. destruct (Get acc (opalog.Var y)); reflexivity.
  - cbn [fold_left fst snd]. rewrite varKeys_cons in Hnd, Hacc.
    assert (Hother : forall z, opalog.Equal k (opalog.Var z) = false ->
                       Get (Put acc k (f v0)) (opalog.Var z) = Get acc (opalog.Var z))
      by (intros; apply Get_Put_other_var; assumption).
    destruct (opalog.Equal k (opalog.Var y)) eqn:Hky.
    + apply Equal_inv_Var in Hky. subst k. cbn in Hnd, Hacc.
      inversion Hnd as [|? ? Hnotin Hnd']; subst.
      rewrite IH; auto.
      * rewrite Get_Put_same. rewrite (Hacc y (or_introl eq_refl)).
        cbn. rewrite String.eqb_refl. reflexivity.
      * intros z Hz. rewrite Hother; auto.
        rewrite Equal_Var_Var. apply String.eqb_neq. intros ->. contradiction.
    + assert (Hnd' : NoDup (varKeys l)).
      { destruct k; cbn in Hnd; auto. inversion Hnd; assumption. }
      rewrite IH; auto.
      * rewrite Hother by assumption. cbn [Get]. rewrite Hky. reflexivity.
      * intros z Hz.
        destruct (opalog.Equal k (opalog.Var z)) eqn:Hkz.
        -- apply Equal_inv_Var in Hkz. subst k. cbn in Hnd.
           inversion Hnd; contradiction.
        -- rewrite Hother by assumption. apply Hacc.
           apply in_or_app. right. assumption.
Qed.

Lemma fold_Put_NoDup (f : Value -> Value) l : forall acc,
  NoDup (varKeys acc) ->
  NoDup (varKeys (fold_left (fun acc kv => Put acc (fst kv) (f (snd kv))) l acc)).
Proof.
  induction l as [|[k v0] l IH]; intros acc H; cbn; auto.
  apply IH. apply NoDup_varKeys_Put. assumption.
Qed.

(** X2.  When [BindVar] binds the variable [x] to a value [v] other than [x]
    itself and returns a context, then in that context [x] is bound to [v],
    every other variable [y] is bound to its former value plugged with
    [{x: v}] (and is unbound when it was unbound), no variable has become
    a key twice, and only the bindings of the context have changed. *)
Theorem BindVar_flattens ctx x v ctx' :
  NoDup (varKeys (Bindings ctx)) ->
  opalog.Equal (opalog.Var x) v = false ->
  BindVar ctx x v = Some ctx' ->
  Get (Bindings ctx') (opalog.Var x) = Some v
  /\ (forall y, y <> x ->
        Get (Bindings ctx') (opalog.Var y)
        = option_map (fun old => plugValue old [(opalog.Var x, v)])
                     (Get (Bindings ctx) (opalog.Var y)))
  /\ NoDup (varKeys (Bindings ctx'))
  /\ sameFrame ctx ctx'.
Proof.
  intros Hnd Hne. unfold BindVar. rewrite Hne.
  destruct (walkValue v _); [discriminate|].
  intros [= <-]. destruct ctx as [q b i p st tr]. cbn [Bindings withBindings] in *.
  repeat split.
  - apply Get_Put_same.
  - intros y Hy. rewrite Get_Put_other_var.
    + apply (fold_Put_Get (fun old => plugValue old [(opalog.Var x, v)]));
        [assumption | intros z Hz; reflexivity].
    + rewrite Equal_Var_Var. apply String.eqb_neq. congruence.
  - apply NoDup_varKeys_Put.
    apply (fold_Put_NoDup (fun old => plugValue old [(opalog.Var x, v)])).
    constructor.
Qed.

Lemma BindVar_flattens_witness :
  exists c,
    BindVar pendingContext "x" (opalog.Number 1) = Some c
    /\ Get (Bindings c) (opalog.Var "x") = Some (opalog.Number 1)
    /\ Get (Bindings c) (opalog.Var "y")
       = Some (opalog.Array [term (opalog.Number 1)]).
Proof.
  eexists. split; [reflexivity|].
  destruct (BindVar_flattens pendingContext "x" (opalog.Number 1) _
              ltac:(repeat constructor; intros [])
              eq_refl eq_refl) as (Hx & Hy & _).
  split; [exact Hx|]. rewrite (Hy "y"); [reflexivity|discriminate].
Defined.

(** ** Conversion to native values *)

(** X3.  [ValueToInterface] reads the context through its store only: two
    contexts with the same store give the same result, whatever their
    bindings, query and index.  In particular the references of the value
    are looked up as they stand, not plugged. *)
Theorem ValueToInterface_store v c1 c2 :
  Store c1 = Store c2 -> ValueToInterface v c1 = ValueToInterface v c2.
Proof.
  intros Hs.
  induction v as [ | c | n | s | x | ts H | ts H | ps H ] using Value_induction;
    try reflexivity.
  - cbn. rewrite Hs. reflexivity.
  - cbn [ValueToInterface]. f_equal.
    induction H as [|[x l] ts Hx Hts IH]; [reflexivity|].
    cbn [TValue] in Hx. rewrite Hx, IH. reflexivity.
  - cbn [ValueToInterface].
    match goal with |- ?f ps ?b = _ => generalize b end.
    induction H as [|[[k kl] [x xl]] ps [Hk Hx] Hps IH]; intros buf; [reflexivity|].
    cbn [TValue fst snd] in Hk, Hx. rewrite Hk, Hx.
    destruct (ValueToInterface k c2) as [k1| | |]; cbn [res_bind]; auto.
    destruct k1; auto.
    destruct (ValueToInterface x c2) as [x1| | |]; cbn [res_bind]; auto.
Qed.

Lemma ValueToInterface_store_witness :
  ValueToInterface arrayOneA0 groundContext
  = ValueToInterface arrayOneA0 openContext.
Proof. apply ValueToInterface_store. reflexivity. Defined.

Lemma ValueToInterface_pairs ctx ps : forall buf r,
  (fix pairs (ps : list (Term * Term)) (buf : list (string * Native))
     : Res Native :=
     match ps with
     | [] => Ok (NMap buf)
     | (opalog.mkTerm k _, opalog.mkTerm x _) :: ps' =>
         res_bind (ValueToInterface k ctx) (fun k1 =>
         match k1 with
         | NString asStr =>
             res_bind (ValueToInterface x ctx) (fun x1 =>
             pairs ps' (mapSet buf asStr x1))
         | _ => Err (ErrConvertNonStringKey k1)
         end)
     end) ps buf = Ok r <->
  exists pairs, Forall2 (convertsTo ctx) ps pairs
                /\ r = NMap (fold_left (fun m kv => mapSet m (fst kv) (snd kv)) pairs buf).
Proof.
  induction ps as [|[[k kl] [x xl]] ps IH]; intros buf r.
  - split.
    + intros [= <-]. exists []. split; [constructor|reflexivity].
    + intros (pairs & HF & ->). inversion HF. reflexivity.
  - split.
    + destruct (ValueToInterface k ctx) as [k1| | |] eqn:Hk; cbn [res_bind];
        try discriminate.
      destruct k1; try discriminate.
      destruct (ValueToInterface x ctx) as [x1| | |] eqn:Hx; cbn [res_bind];
        try discriminate.
      intros Hr. apply IH in Hr. destruct Hr as (pairs & HF & ->).
      exists ((s, x1) :: pairs). split; [|reflexivity].
      constructor; [split; assumption | assumption].
    + intros (pairs & HF & ->). inversion HF as [|p kv ps' pairs' [Hk Hx] HF']; subst.
      cbn [TValue fst snd] in Hk, Hx. rewrite Hk. cbn [res_bind]. rewrite Hx.
      cbn [res_bind]. apply IH. exists pairs'. split; [assumption|reflexivity].
Qed.

Lemma ValueToInterface_elems ctx ts xs :
  (fix elems (ts : list Term) : Res (list Native) :=
     match ts with
     | [] => Ok []
     | opalog.mkTerm x _ :: ts' =>
         res_bind (ValueToInterface x ctx) (fun x1 =>
         res_bind (elems ts') (fun buf => Ok (x1 :: buf)))
     end) ts = Ok xs <->
  Forall2 (fun t x => ValueToInterface (TValue t) ctx = Ok x) ts xs.
Proof.
  revert xs. induction ts as [|[x l] ts IH]; intros xs.
  - split; [intros [= <-]; constructor | intros H; inversion H; reflexivity].
  - split.
    + destruct (ValueToInterface x ctx) as [x1| | |] eqn:Hx; cbn [res_bind];
        try discriminate.
      match goal with
      | |- res_bind ?e _ = _ -> _ => destruct e as [buf| | |] eqn:He
      end; cbn [res_bind]; try discriminate.
      intros [= <-]. constructor; [exact Hx|]. apply IH. reflexivity.
    + intros H. inversion H as [|t x1 ts' xs' Hx Hrest]; subst.
      cbn [TValue] in Hx. rewrite Hx. cbn [res_bind].
      apply IH in Hrest. rewrite Hrest. reflexivity.
Qed.

Lemma ValueToInterface_bad_key ctx pre k x post k1 : forall pairs buf,
  Forall2 (convertsTo ctx) pre pairs ->
  ValueToInterface (TValue k) ctx = Ok k1 ->
  (forall s, k1 <> NString s) ->
  (fix pairs (ps : list (Term * Term)) (buf : list (string * Native))
     : Res Native :=
     match ps with
     | [] => Ok (NMap buf)
     | (opalog.mkTerm k _, opalog.mkTerm x _) :: ps' =>
         res_bind (ValueToInterface k ctx) (fun k1 =>
         match k1 with
         | NString asStr =>
             res_bind (ValueToInterface x ctx) (fun x1 =>
             pairs ps' (mapSet buf asStr x1))
         | _ => Err (ErrConvertNonStringKey k1)
         end)
     end) (pre ++ (k, x) :: post) buf = Err (ErrConvertNonStringKey k1).
Proof.
  induction pre as [|[[pk pkl] [px pxl]] pre IH]; intros pairs buf HF Hk Hns.
  - destruct k as [kv kl], x as [xv xl]. cbn [app TValue] in *. rewrite Hk.
    cbn [res_bind]. destruct k1; try reflexivity. exfalso. eapply Hns. reflexivity.
  - inversion HF as [|p kv pre' pairs' [Hpk Hpx] HF']; subst.
    cbn [app TValue fst snd] in *. rewrite Hpk. cbn [res_bind]. rewrite Hpx.
    cbn [res_bind]. eapply IH; eassumption.
Qed.

(** X4.  [ValueToInterface] succeeds on an array exactly when it succeeds on
    every element, with the list of the results in order; it succeeds on an
    object exactly when every key converts to a string and every value
    converts, with the map obtained by assigning the pairs in order (the
    last of two equal keys wins); and the first key that converts to
    something other than a string makes it fail with that converted key,
    before the value of that pair and the later pairs are looked at. *)
Theorem ValueToInterface_composites (ctx : TopDownContext) :
  (forall ts r,
     ValueToInterface (opalog.Array ts) ctx = Ok r <->
     exists xs, Forall2 (fun t x => ValueToInterface (TValue t) ctx = Ok x) ts xs
                /\ r = NArray xs)
  /\ (forall ps r,
        ValueToInterface (opalog.Object ps) ctx = Ok r <->
        exists pairs, Forall2 (convertsTo ctx) ps pairs
                      /\ r = NMap (assignAll pairs))
  /\ (forall pre k x post pairs k1,
        Forall2 (convertsTo ctx) pre pairs ->
        ValueToInterface (TValue k) ctx = Ok k1 ->
        (forall s, k1 <> NString s) ->
        ValueToInterface (opalog.Object (pre ++ (k, x) :: post)) ctx
        = Err (ErrConvertNonStringKey k1)).
Proof.
  repeat split.
  - cbn [ValueToInterface].
    match goal with
    | |- res_bind ?e _ = _ -> _ => destruct e as [buf| | |] eqn:He
    end; cbn [res_bind]; try discriminate.
    intros [= <-]. exists buf. split; [|reflexivity].
    apply ValueToInterface_elems. exact He.
  - intros (xs & HF & ->). apply ValueToInterface_elems in HF.
    cbn [ValueToInterface]. rewrite HF. reflexivity.
  - cbn [ValueToInterface]. apply ValueToInterface_pairs.
  - cbn [ValueToInterface]. apply ValueToInterface_pairs.
  - intros pre k x post pairs k1 HF Hk Hns. cbn [ValueToInterface].
    eapply ValueToInterface_bad_key; eassumption.
Qed.

(** ** Unification *)

(** X5.  [evalEqUnify] on two values of different kinds, neither a variable nor
    a reference (say an array and a number, or a string and a number),
    returns nil without calling the iterator and without touching the
    world: there is no coercion between kinds and the mismatch is no error. *)
Theorem evalEqUnify_kind_mismatch (E : Evaluator) {St} (ctx : TopDownContext)
  (a b : Value) (ka kb : Kind) (iter : TopDownIterator St) (w : World) (s : St) :
  kindOf a = Some ka -> kindOf b = Some kb -> ka <> kb ->
  evalEqUnify E ctx a b iter w s = (w, s, Ok tt).
Proof.
  intros Ha Hb Hne.
  destruct a; try discriminate; destruct b; try discriminate;
    cbn in Ha, Hb; try reflexivity;
    injection Ha as <-; injection Hb as <-; contradiction.
Qed.

Lemma evalEqUnify_kind_mismatch_witness :
  evalEqUnify (evaluator 1) emptyContext
              (opalog.Array [term (opalog.Var "x")]) (opalog.Number 1)
              record emptyWorld []
  = (emptyWorld, [], Ok tt).
Proof.
  apply (evalEqUnify_kind_mismatch _ _ _ _ KArray KNumber);
    [reflexivity | reflexivity | discriminate].
Defined.

Lemma sameFrame_refl c : sameFrame c c.
Proof. repeat split. Qed.

Lemma sameFrame_trans a b c : sameFrame a b -> sameFrame b c -> sameFrame a c.
Proof.
  unfold sameFrame. intros (?&?&?&?&?) (?&?&?&?&?). repeat split; congruence.
Qed.

Lemma BindVar_frame ctx x v c : BindVar ctx x v = Some c -> sameFrame ctx c.
Proof.
  unfold BindVar. destruct (opalog.Equal _ _).
  - intros [= <-]. apply sameFrame_refl.
  - destruct (walkValue _ _); [discriminate|]. intros [= <-].
    destruct ctx. repeat split.
Qed.

Lemma BindRef_frame ctx ref v : sameFrame ctx (BindRef ctx ref v).
Proof. destruct ctx. repeat split. Qed.

Lemma Single_iter ctx0 c :
  sameFrame ctx0 c -> Single ctx0 (fun St iter => iter c).
Proof.
  intros H. exists (Ok (Some c)). split; [reflexivity|]. intros ? [= <-]. exact H.
Qed.

Lemma Single_ret ctx0 (r : Res unit) : Single ctx0 (fun St iter => ret r).
Proof.
  destruct r as [[]|err|msg|].
  - exists (Ok None). split; [reflexivity|discriminate].
  - exists (Err err). split; [reflexivity|discriminate].
  - exists (Panic msg). split; [reflexivity|discriminate].
  - exists Diverge. split; [reflexivity|discriminate].
Qed.

Lemma Single_nil ctx0 : Single ctx0 (fun St iter => nil).
Proof. apply (Single_ret ctx0 (Ok tt)). Qed.

Lemma Single_withRes ctx0 {A} (r : Res A)
  (k : forall St, TopDownIterator St -> A -> M St) :
  (forall a, Single ctx0 (fun St iter => k St iter a)) ->
  Single ctx0 (fun St iter => withRes r (k St iter)).
Proof.
  intros H. destruct r as [a|err|msg|]; cbn.
  - apply H.
  - apply (Single_ret ctx0 (Err err)).
  - apply (Single_ret ctx0 (Panic msg)).
  - apply (Single_ret ctx0 Diverge).
Qed.

Lemma Single_ext ctx0 (f g : forall St, TopDownIterator St -> M St) :
  (forall St iter w s, f St iter w s = g St iter w s) ->
  Single ctx0 g -> Single ctx0 f.
Proof.
  intros H (r & Hr & Hf). exists r. split; [|assumption].
  intros. rewrite H. apply Hr.
Qed.

Lemma Single_capture (E : Evaluator) ctx0 ctx a b
  (f : forall St, TopDownIterator St -> M St)
  (k : forall St, TopDownIterator St -> option TopDownContext -> M St) :
  Unifies E -> sameFrame ctx0 ctx ->
  (forall St iter w s,
     f St iter w s
     = capture None (call_evalEqUnify E _ ctx a b setTmp) (k St iter) w s) ->
  (forall St iter w s, k St iter None w s = (w, s, Ok tt)) ->
  (forall c, sameFrame ctx0 c -> Single ctx0 (fun St iter => k St iter (Some c))) ->
  Single ctx0 f.
Proof.
  intros HU Hf Heq Hnone Hsome.
  destruct (HU ctx a b) as (r1 & Hr1 & Hf1).
  destruct r1 as [[c1|]|err|msg|].
  - destruct (Hsome c1) as (r & Hr & Hfr).
    { eapply sameFrame_trans; eauto. }
    exists r. split; [|assumption]. intros St iter w s.
    rewrite Heq. unfold capture. rewrite Hr1. cbn. apply Hr.
  - exists (Ok None). split; [|discriminate]. intros St iter w s.
    rewrite Heq. unfold capture. rewrite Hr1. cbn. apply Hnone.
  - exists (Err err). split; [|discriminate]. intros St iter w s.
    rewrite Heq. unfold capture. rewrite Hr1. reflexivity.
  - exists (Panic msg). split; [|discriminate]. intros St iter w s.
    rewrite Heq. unfold capture. rewrite Hr1. reflexivity.
  - exists Diverge. split; [|discriminate]. intros St iter w s.
    rewrite Heq. unfold capture. rewrite Hr1. reflexivity.
Qed.

Section SingleEmission.
Context (E : Evaluator) (HU : Unifies E).

Lemma evalEqUnifyVar_single ctx0 ctx a b :
  sameFrame ctx0 ctx ->
  Single ctx0 (fun St iter => evalEqUnifyVar ctx a b iter).
Proof.
  intros Hf. unfold evalEqUnifyVar. destruct (BindVar ctx a b) as [c|] eqn:Hb.
  - apply Single_iter. eapply sameFrame_trans; eauto using BindVar_frame.
  - apply Single_nil.
Qed.

Lemma evalEqGround_single ctx0 ctx a b :
  sameFrame ctx0 ctx ->
  Single ctx0 (fun St iter => evalEqGround ctx a b iter).
Proof.
  intros Hf. unfold evalEqGround.
  apply Single_withRes with (k := fun St iter av =>
    bv <- ValueToInterface b ctx ;;; if CompareEq av bv then iter ctx else nil).
  intros av.
  apply Single_withRes with (k := fun St iter bv =>
    if CompareEq av bv then iter ctx else nil).
  intros bv. destruct (CompareEq av bv); [apply Single_iter; assumption|apply Single_nil].
Qed.

Lemma evalEqUnifyArrays_single ctx0 ctx a b :
  sameFrame ctx0 ctx ->
  Single ctx0 (fun St iter => evalEqUnifyArrays E ctx a b iter).
Proof.
  unfold evalEqUnifyArrays.
  destruct (negb _); [intros; apply Single_nil|].
  generalize (combine a b) as ab. intros ab. revert ctx.
  induction ab as [|[ai bi] rest IH]; intros ctx Hf.
  - apply Single_iter. assumption.
  - eapply Single_capture; [exact HU | exact Hf | | | ].
    + intros St iter w s. reflexivity.
    + reflexivity.
    + intros c Hc. cbv beta. apply IH. assumption.
Qed.

Lemma evalEqUnifyArrayRef_single ctx0 ctx a b :
  sameFrame ctx0 ctx ->
  Single ctx0 (fun St iter => evalEqUnifyArrayRef E ctx a b iter).
Proof.
  intros Hf. unfold evalEqUnifyArrayRef.
  eapply Single_ext; [intros; reflexivity|].
  destruct (lookup (Store ctx) b) as [r|err|msg|]; cbn [withRes];
    try apply Single_ret.
  destruct r; try apply Single_nil.
  destruct (negb _); [apply Single_nil|].
  generalize 0 as i. revert ctx Hf.
  induction a as [|ai rest IH]; intros ctx Hf i.
  - apply Single_iter. assumption.
  - eapply Single_capture; [exact HU | exact Hf | | | ].
    + intros St iter w s. reflexivity.
    + reflexivity.
    + intros c Hc. cbv beta. apply IH. assumption.
Qed.

Lemma evalEqUnifyArray_single ctx0 ctx a b :
  sameFrame ctx0 ctx ->
  Single ctx0 (fun St iter => evalEqUnifyArray E ctx a b iter).
Proof.
  intros Hf. unfold evalEqUnifyArray.
  destruct b; try apply Single_nil.
  - apply evalEqUnifyVar_single. assumption.
  - apply evalEqUnifyArrayRef_single. assumption.
  - apply evalEqUnifyArrays_single. assumption.
Qed.

Lemma evalEqUnifyObjects_inner ctx0 ctx (ai : Term * Term) qs :
  sameFrame ctx0 ctx ->
  forall tmp0,
  framedTmp ctx0 tmp0 ->
  exists tmp' (rr : Res unit),
    (forall w,
       (fix inner (qs : list (Term * Term)) : M (option TopDownContext) :=
          match qs with
          | [] => nil
          | bj :: qs' =>
              if opalog.TermEqual (fst bj) (fst ai) then
                call_evalEqUnify E _ ctx (TValue (snd ai)) (TValue (snd bj)) setTmp ;;
                (fun w tmp =>
                   match tmp with
                   | None => (w, tmp, Ok tt)
                   | Some _ => inner qs' w tmp
                   end)
              else inner qs'
          end) qs w tmp0 = (w, tmp', rr))
    /\ framedTmp ctx0 tmp'.
Proof.
  intros Hctx.
  induction qs as [|bj qs IH]; intros tmp0 H0.
  - exists tmp0, (Ok tt). split; [reflexivity|auto].
  - destruct (opalog.TermEqual (fst bj) (fst ai)); [|apply IH; assumption].
    destruct (HU ctx (TValue (snd ai)) (TValue (snd bj))) as (r1 & Hr1 & Hf1).
    destruct r1 as [[c1|]|err|msg|].
    + destruct (IH (Some c1)) as (tmp' & rr & Hrun & Hfr).
      { intros c [= <-]. eapply sameFrame_trans; eauto. }
      exists tmp', rr. split; [|assumption].
      intros w. unfold andThen. rewrite Hr1. cbn. apply Hrun.
    + destruct tmp0 as [c0|].
      * destruct (IH (Some c0) H0) as (tmp' & rr & Hrun & Hfr).
        exists tmp', rr. split; [|assumption].
        intros w. unfold andThen. rewrite Hr1. cbn. apply Hrun.
      * exists None, (Ok tt). split; [|intros c; discriminate].
        intros w. unfold andThen. rewrite Hr1. reflexivity.
    + exists tmp0, (Err err). split; [|auto].
      intros w. unfold andThen. rewrite Hr1. reflexivity.
    + exists tmp0, (Panic msg). split; [|auto].
      intros w. unfold andThen. rewrite Hr1. reflexivity.
    + exists tmp0, Diverge. split; [|auto].
      intros w. unfold andThen. rewrite Hr1. reflexivity.
Qed.

Lemma evalEqUnifyObjects_single ctx0 ctx a b :
  sameFrame ctx0 ctx ->
  Single ctx0 (fun St iter => evalEqUnifyObjects E ctx a b iter).
Proof.
  unfold evalEqUnifyObjects.
  destruct (negb _); [intros; apply Single_nil|].
  destruct (firstVariableKey _); [intros; apply Single_ret|].
  revert ctx. induction a as [|ai rest IH]; intros ctx Hf.
  - apply Single_iter. assumption.
  - destruct (evalEqUnifyObjects_inner ctx0 ctx ai b Hf None)
      as (tmp' & rr & Hrun & Hfr).
    { intros c; discriminate. }
    destruct rr as [[]|err|msg|].
    + destruct tmp' as [c|].
      * destruct (IH c (Hfr c eq_refl)) as (r & Hr & Hfrr).
        exists r. split; [|assumption]. intros St iter w s.
        unfold capture. rewrite Hrun. apply Hr.
      * exists (Ok None). split; [|discriminate]. intros St iter w s.
        unfold capture. rewrite Hrun. reflexivity.
    + exists (Err err). split; [|discriminate]. intros St iter w s.
      unfold capture. rewrite Hrun. reflexivity.
    + exists (Panic msg). split; [|discriminate]. intros St iter w s.
      unfold capture. rewrite Hrun. reflexivity.
    + exists Diverge. split; [|discriminate]. intros St iter w s.
      unfold capture. rewrite Hrun. reflexivity.
Qed.

Lemma evalEqUnifyObjectRef_single ctx0 ctx a b :
  sameFrame ctx0 ctx ->
  Single ctx0 (fun St iter => evalEqUnifyObjectRef E ctx a b iter).
Proof.
  intros Hf. unfold evalEqUnifyObjectRef.
  eapply Single_ext; [intros; reflexivity|].
  destruct (lookup (Store ctx) b) as [r|err|msg|]; cbn [withRes];
    try apply Single_ret.
  destruct (find _ a); [apply Single_ret|].
  destruct r; try apply Single_nil.
  destruct (negb _); [apply Single_nil|].
  revert ctx Hf. generalize a as ps.
  induction ps as [|ai rest IH]; intros ctx Hf.
  - apply Single_iter. assumption.
  - destruct (TValue (fst ai)); try apply Single_ret.
    destruct (mapGet kvs s); [|apply Single_nil].
    eapply Single_capture; [exact HU | exact Hf | | | ].
    + intros St iter w s0. reflexivity.
    + reflexivity.
    + intros c Hc. cbv beta. apply IH. assumption.
Qed.

Lemma evalEqUnifyObject_single ctx0 ctx a b :
  sameFrame ctx0 ctx ->
  Single ctx0 (fun St iter => evalEqUnifyObject E ctx a b iter).
Proof.
  intros Hf. unfold evalEqUnifyObject.
  destruct b; try apply Single_nil.
  - apply evalEqUnifyVar_single. assumption.
  - apply evalEqUnifyObjectRef_single. assumption.
  - apply evalEqUnifyObjects_single. assumption.
Qed.

Lemma evalEqUnify_single ctx a b :
  Single ctx (fun St iter => evalEqUnify E ctx a b iter).
Proof.
  pose proof (sameFrame_refl ctx) as Hf.
  unfold evalEqUnify. cbv zeta.
  destruct (plugValue a (Bindings ctx)); destruct (plugValue b (Bindings ctx));
    auto using evalEqUnifyVar_single, evalEqUnifyObject_single,
               evalEqUnifyArray_single, evalEqGround_single.
Qed.

End SingleEmission.

Lemma evaluator_unifies fuel : Unifies (evaluator fuel).
Proof.
  induction fuel as [|n IH]; intros ctx a b.
  - exists Diverge. split; [reflexivity|discriminate].
  - apply (evalEqUnify_single (evaluator n) IH).
Qed.

(** ** Ground unification returns *)

Lemma plugValue_fixed v b :
  noRefBound b -> opalog.IsGround v = true -> plugValue v b = v.
Proof.
  intros Hb.
  induction v as [ | c | n | s | x | ts H | ts H | ps H ] using Value_induction;
    intros Hg; try reflexivity.
  - discriminate.
  - cbn [plugValue]. rewrite Hb, Hg. reflexivity.
  - cbn [plugValue]. f_equal. apply map_fixed.
    cbn in Hg. rewrite forallb_forall in Hg. rewrite Forall_forall in *.
    intros t Hin. specialize (Hg t Hin). specialize (H t Hin).
    assert (Hgt : opalog.IsGround (TValue t) = true) by (destruct t; exact Hg).
    apply plugTerm_fixed; auto.
  - cbn [plugValue]. f_equal. apply map_fixed.
    cbn in Hg. rewrite forallb_forall in Hg. rewrite Forall_forall in *.
    intros [k x] Hin. specialize (Hg _ Hin). destruct (H _ Hin) as [Hk Hx].
    assert (Hgk : opalog.IsGround (TValue k) = true
                  /\ opalog.IsGround (TValue x) = true).
    { destruct k, x. cbn in *. apply andb_prop in Hg. exact Hg. }
    destruct Hgk as [Hgk Hgx]. cbn [fst snd] in *.
    rewrite !plugTerm_fixed; auto.
Qed.

Lemma Underlying_returns ref :
  (exists path, Underlying ref = Ok path) \/ (exists err, Underlying ref = Err err).
Proof.
  unfold Underlying. destruct ref as [|head tl]; [left; eauto|].
  destruct (TValue head); try (right; eauto; fail).
  match goal with
  | |- context [res_bind (?f tl) _] =>
      assert (H : (exists r, f tl = Ok r) \/ (exists err, f tl = Err err))
  end.
  { induction tl as [|t tl IH]; [left; eauto|].
    destruct (TValue t); try (right; eauto; fail);
      (destruct IH as [[r ->]|[err ->]]; cbn; [left|right]; eauto). }
  destruct H as [[r ->]|[err ->]]; cbn; [left|right]; eauto.
Qed.

Lemma nesting_element n ts t :
  nesting (opalog.Array ts) <= S n -> In t ts -> nesting (TValue t) <= n.
Proof.
  cbn [nesting]. intros H Hin. apply le_S_n in H.
  induction ts as [|u ts IH]; [contradiction|].
  cbn [fold_right] in H. destruct Hin as [->|Hin].
  - destruct t as [y l]. cbn [TValue]. lia.
  - apply IH; [lia|assumption].
Qed.

Lemma nesting_value n ps p :
  nesting (opalog.Object ps) <= S n -> In p ps -> nesting (TValue (snd p)) <= n.
Proof.
  cbn [nesting]. intros H Hin. apply le_S_n in H.
  induction ps as [|q ps IH]; [contradiction|].
  cbn [fold_right] in H. destruct Hin as [->|Hin].
  - destruct p as [k [y l]]. cbn [TValue snd]. lia.
  - apply IH; [lia|assumption].
Qed.

Lemma ground_element ts t :
  opalog.IsGround (opalog.Array ts) = true -> In t ts ->
  opalog.IsGround (TValue t) = true.
Proof.
  cbn [opalog.IsGround]. intros H Hin. rewrite forallb_forall in H.
  specialize (H _ Hin). destruct t. exact H.
Qed.

Lemma ground_pair ps p :
  opalog.IsGround (opalog.Object ps) = true -> In p ps ->
  opalog.IsGround (TValue (fst p)) = true
  /\ opalog.IsGround (TValue (snd p)) = true.
Proof.
  cbn [opalog.IsGround]. intros H Hin. rewrite forallb_forall in H.
  specialize (H _ Hin). destruct p as [[k kl] [x xl]]. cbn [fst snd TValue].
  apply andb_prop in H. exact H.
Qed.

Lemma ground_child ref t :
  opalog.IsGround (opalog.Ref ref) = true ->
  opalog.IsGround (TValue t) = true ->
  opalog.IsGround (opalog.Ref (ref ++ [t])) = true.
Proof.
  destruct ref as [|head tl]; [reflexivity|].
  cbn [opalog.IsGround app]. intros H Ht. rewrite forallb_app, H.
  cbn. destruct t. cbn [TValue] in Ht. rewrite Ht. reflexivity.
Qed.

Lemma within_elements n ts :
  groundWithin (S n) (opalog.Array ts) ->
  Forall (fun t => groundWithin n (TValue t)) ts.
Proof.
  intros [Hg Hn]. apply Forall_forall. intros t Hin. split.
  - eapply ground_element; eauto.
  - eapply nesting_element; eauto.
Qed.

Lemma within_values n ps :
  groundWithin (S n) (opalog.Object ps) ->
  Forall (fun p => opalog.IsGround (TValue (fst p)) = true
                   /\ groundWithin n (TValue (snd p))) ps.
Proof.
  intros [Hg Hn]. apply Forall_forall. intros p Hin.
  destruct (ground_pair _ _ Hg Hin) as [Hk Hx]. repeat split; auto.
  eapply nesting_value; eauto.
Qed.

Lemma atom_within v :
  groundWithin 0 v -> isAtom v = true.
Proof.
  intros [Hg Hn]. destruct v; try reflexivity; try discriminate;
    cbn [nesting] in Hn; lia.
Qed.

Section GroundUnification.
Context (ctx : TopDownContext).
Context (Hstore : forall path, StoreGet (Store ctx) path <> Diverge).

Lemma lookup_returns ref : lookup (Store ctx) ref <> Diverge.
Proof.
  unfold lookup. destruct (Underlying_returns ref) as [[path ->]|[err ->]]; cbn.
  - apply Hstore.
  - discriminate.
Qed.

Lemma Settled_iter : Settled ctx (fun St iter => iter ctx).
Proof.
  exists (Ok (Some ctx)). split; [discriminate|]. split; [reflexivity|].
  intros c [= <-]. reflexivity.
Qed.

Lemma Settled_ret (r : Res unit) :
  r <> Diverge -> Settled ctx (fun St iter => ret r).
Proof.
  intros Hr. destruct r as [[]|err|msg|]; [| | |contradiction].
  - exists (Ok None). split; [discriminate|]. split; [reflexivity|discriminate].
  - exists (Err err). split; [discriminate|]. split; [reflexivity|discriminate].
  - exists (Panic msg). split; [discriminate|]. split; [reflexivity|discriminate].
Qed.

Lemma Settled_nil : Settled ctx (fun St iter => nil).
Proof. apply (Settled_ret (Ok tt)). discriminate. Qed.

Lemma Settled_withRes {A} (r : Res A)
  (k : forall St, TopDownIterator St -> A -> M St) :
  r <> Diverge ->
  (forall a, Settled ctx (fun St iter => k St iter a)) ->
  Settled ctx (fun St iter => withRes r (k St iter)).
Proof.
  intros Hr H. destruct r as [a|err|msg|]; cbn; [| | |contradiction].
  - apply H.
  - apply (Settled_ret (Err err)). discriminate.
  - apply (Settled_ret (Panic msg)). discriminate.
Qed.

Lemma Settled_ext (f g : forall St, TopDownIterator St -> M St) :
  (forall St iter w s, f St iter w s = g St iter w s) ->
  Settled ctx g -> Settled ctx f.
Proof.
  intros H (r & Hd & Hr & Hf). exists r. split; [assumption|]. split; [|assumption].
  intros. rewrite H. apply Hr.
Qed.

Lemma ValueToInterface_atom v :
  isAtom v = true -> ValueToInterface v ctx <> Diverge.
Proof.
  destruct v; try discriminate; intros _; cbn; try discriminate.
  apply lookup_returns.
Qed.

Lemma evalEqGround_settled a b :
  isAtom a = true -> isAtom b = true ->
  Settled ctx (fun St iter => evalEqGround ctx a b iter).
Proof.
  intros Ha Hb. unfold evalEqGround.
  apply Settled_withRes with (k := fun St iter av =>
    bv <- ValueToInterface b ctx ;;; if CompareEq av bv then iter ctx else nil).
  { apply ValueToInterface_atom. assumption. }
  intros av.
  apply Settled_withRes with (k := fun St iter bv =>
    if CompareEq av bv then iter ctx else nil).
  { apply ValueToInterface_atom. assumption. }
  intros bv. destruct (CompareEq av bv); [apply Settled_iter|apply Settled_nil].
Qed.

Section Level.
Context (E : Evaluator) (n : nat) (HS : Settles E ctx n).

Lemma Settled_capture a b
  (f : forall St, TopDownIterator St -> M St)
  (k : forall St, TopDownIterator St -> option TopDownContext -> M St) :
  groundWithin n a -> groundWithin n b ->
  (forall St iter w s,
     f St iter w s
     = capture None (call_evalEqUnify E _ ctx a b setTmp) (k St iter) w s) ->
  (forall St iter w s, k St iter None w s = (w, s, Ok tt)) ->
  Settled ctx (fun St iter => k St iter (Some ctx)) ->
  Settled ctx f.
Proof.
  intros Ha Hb Heq Hnone Hsome.
  destruct (HS a b Ha Hb) as (r1 & Hd1 & Hr1 & Hc1).
  destruct r1 as [[c1|]|err|msg|]; [| | | |contradiction].
  - rewrite (Hc1 c1 eq_refl) in Hr1.
    destruct Hsome as (r & Hd & Hr & Hcr).
    exists r. split; [assumption|]. split; [|assumption]. intros St iter w s.
    rewrite Heq. unfold capture. rewrite Hr1. cbn. apply Hr.
  - exists (Ok None). split; [discriminate|]. split; [|discriminate].
    intros St iter w s. rewrite Heq. unfold capture. rewrite Hr1. cbn. apply Hnone.
  - exists (Err err). split; [discriminate|]. split; [|discriminate].
    intros St iter w s. rewrite Heq. unfold capture. rewrite Hr1. reflexivity.
  - exists (Panic msg). split; [discriminate|]. split; [|discriminate].
    intros St iter w s. rewrite Heq. unfold capture. rewrite Hr1. reflexivity.
Qed.

Lemma evalEqUnifyArrays_settled a b :
  Forall (fun t => groundWithin n (TValue t)) a ->
  Forall (fun t => groundWithin n (TValue t)) b ->
  Settled ctx (fun St iter => evalEqUnifyArrays E ctx a b iter).
Proof.
  intros Ha Hb. unfold evalEqUnifyArrays.
  destruct (negb _); [apply Settled_nil|].
  assert (Hab : Forall (fun ab => groundWithin n (TValue (fst ab))
                                  /\ groundWithin n (TValue (snd ab)))
                       (combine a b)).
  { apply Forall_forall. intros [x y] Hin. rewrite Forall_forall in Ha, Hb.
    split; [apply Ha; eapply in_combine_l | apply Hb; eapply in_combine_r]; eauto. }
  clear Ha Hb. induction (combine a b) as [|[ai bi] rest IH].
  - apply Settled_iter.
  - inversion Hab as [|? ? [Hai Hbi] Hrest]; subst. cbn [fst snd] in *.
    eapply Settled_capture; [exact Hai | exact Hbi | | | ].
    + intros St iter w s. reflexivity.
    + reflexivity.
    + cbv beta. apply IH. assumption.
Qed.

Lemma evalEqUnifyArrayRef_settled a b :
  Forall (fun t => groundWithin n (TValue t)) a ->
  opalog.IsGround (opalog.Ref b) = true ->
  Settled ctx (fun St iter => evalEqUnifyArrayRef E ctx a b iter).
Proof.
  intros Ha Hb. unfold evalEqUnifyArrayRef.
  eapply Settled_ext; [intros; reflexivity|].
  pose proof (lookup_returns b) as Hl.
  destruct (lookup (Store ctx) b) as [r|err|msg|]; cbn [withRes];
    [| apply Settled_ret; discriminate | apply Settled_ret; discriminate
     | contradiction].
  destruct r; try apply Settled_nil.
  destruct (negb _); [apply Settled_nil|].
  generalize 0 as i.
  induction a as [|ai rest IH]; intros i.
  - apply Settled_iter.
  - inversion Ha as [|? ? Hai Hrest]; subst.
    eapply Settled_capture
      with (b := opalog.Ref (b ++ [opalog.NumberTerm (Z.of_nat i)]));
      [exact Hai | | | | ].
    + split; [|cbn [nesting]; lia]. apply ground_child; [assumption|reflexivity].
    + intros St iter w s. reflexivity.
    + reflexivity.
    + cbv beta. apply IH. assumption.
Qed.

Lemma evalEqUnifyObjects_inner_settled (ai : Term * Term) qs :
  groundWithin n (TValue (snd ai)) ->
  Forall (fun p => groundWithin n (TValue (snd p))) qs ->
  forall tmp0,
  (tmp0 = None \/ tmp0 = Some ctx) ->
  exists tmp' (rr : Res unit),
    rr <> Diverge
    /\ (forall w,
       (fix inner (qs : list (Term * Term)) : M (option TopDownContext) :=
          match qs with
          | [] => nil
          | bj :: qs' =>
              if opalog.TermEqual (fst bj) (fst ai) then
                call_evalEqUnify E _ ctx (TValue (snd ai)) (TValue (snd bj)) setTmp ;;
                (fun w tmp =>
                   match tmp with
                   | None => (w, tmp, Ok tt)
                   | Some _ => inner qs' w tmp
                   end)
              else inner qs'
          end) qs w tmp0 = (w, tmp', rr))
    /\ (tmp' = None \/ tmp' = Some ctx).
Proof.
  intros Hai Hqs.
  induction qs as [|bj qs IH]; intros tmp0 H0.
  - exists tmp0, (Ok tt). split; [discriminate|]. split; [reflexivity|auto].
  - inversion Hqs as [|? ? Hbj Hrest]; subst. specialize (IH Hrest).
    destruct (opalog.TermEqual (fst bj) (fst ai)); [|apply IH; assumption].
    destruct (HS (TValue (snd ai)) (TValue (snd bj)) Hai Hbj)
      as (r1 & Hd1 & Hr1 & Hc1).
    destruct r1 as [[c1|]|err|msg|]; [| | | |contradiction].
    + rewrite (Hc1 c1 eq_refl) in Hr1.
      destruct (IH (Some ctx)) as (tmp' & rr & Hd & Hrun & Hfr); [auto|].
      exists tmp', rr. split; [assumption|]. split; [|assumption].
      intros w. unfold andThen. rewrite Hr1. cbn. apply Hrun.
    + destruct H0 as [->| ->].
      * exists None, (Ok tt). split; [discriminate|]. split; [|auto].
        intros w. unfold andThen. rewrite Hr1. reflexivity.
      * destruct (IH (Some ctx)) as (tmp' & rr & Hd & Hrun & Hfr); [auto|].
        exists tmp', rr. split; [assumption|]. split; [|assumption].
        intros w. unfold andThen. rewrite Hr1. cbn. apply Hrun.
    + exists tmp0, (Err err). split; [discriminate|]. split; [|auto].
      intros w. unfold andThen. rewrite Hr1. reflexivity.
    + exists tmp0, (Panic msg). split; [discriminate|]. split; [|auto].
      intros w. unfold andThen. rewrite Hr1. reflexivity.
Qed.

Lemma evalEqUnifyObjects_settled a b :
  Forall (fun p => groundWithin n (TValue (snd p))) a ->
  Forall (fun p => groundWithin n (TValue (snd p))) b ->
  Settled ctx (fun St iter => evalEqUnifyObjects E ctx a b iter).
Proof.
  intros Ha Hb. unfold evalEqUnifyObjects.
  destruct (negb _); [apply Settled_nil|].
  destruct (firstVariableKey _); [apply Settled_ret; discriminate|].
  induction a as [|ai rest IH].
  - apply Settled_iter.
  - inversion Ha as [|? ? Hai Hrest]; subst.
    destruct (evalEqUnifyObjects_inner_settled ai b Hai Hb None)
      as (tmp' & rr & Hd & Hrun & Hfr); [auto|].
    destruct rr as [[]|err|msg|]; [| | |contradiction].
    + destruct Hfr as [->| ->].
      * exists (Ok None). split; [discriminate|]. split; [|discriminate].
        intros St iter w s. unfold capture. rewrite Hrun. reflexivity.
      * destruct (IH Hrest) as (r & Hdr & Hr & Hcr).
        exists r. split; [assumption|]. split; [|assumption].
        intros St iter w s. unfold capture. rewrite Hrun. apply Hr.
    + exists (Err err). split; [discriminate|]. split; [|discriminate].
      intros St iter w s. unfold capture. rewrite Hrun. reflexivity.
    + exists (Panic msg). split; [discriminate|]. split; [|discriminate].
      intros St iter w s. unfold capture. rewrite Hrun. reflexivity.
Qed.

Lemma evalEqUnifyObjectRef_settled a b :
  Forall (fun p => opalog.IsGround (TValue (fst p)) = true
                   /\ groundWithin n (TValue (snd p))) a ->
  opalog.IsGround (opalog.Ref b) = true ->
  Settled ctx (fun St iter => evalEqUnifyObjectRef E ctx a b iter).
Proof.
  intros Ha Hb. unfold evalEqUnifyObjectRef.
  eapply Settled_ext; [intros; reflexivity|].
  pose proof (lookup_returns b) as Hl.
  destruct (lookup (Store ctx) b) as [r|err|msg|]; cbn [withRes];
    [| apply Settled_ret; discriminate | apply Settled_ret; discriminate
     | contradiction].
  destruct (find _ a); [apply Settled_ret; discriminate|].
  destruct r; try apply Settled_nil.
  destruct (negb _); [apply Settled_nil|].
  revert Ha. generalize a as ps.
  induction ps as [|ai rest IH]; intros Hps.
  - apply Settled_iter.
  - inversion Hps as [|? ? [Hk Hx] Hrest]; subst.
    destruct (TValue (fst ai)) eqn:Hkey; try (apply Settled_ret; discriminate).
    destruct (mapGet kvs s); [|apply Settled_nil].
    eapply Settled_capture with (b := opalog.Ref (b ++ [fst ai]));
      [exact Hx | | | | ].
    + split; [|cbn [nesting]; lia]. apply ground_child; [assumption|rewrite Hkey; reflexivity].
    + intros St iter w s0. reflexivity.
    + reflexivity.
    + cbv beta. apply IH. assumption.
Qed.

Lemma evalEqUnify_settled a b :
  noRefBound (Bindings ctx) ->
  groundWithin (S n) a -> groundWithin (S n) b ->
  Settled ctx (fun St iter => evalEqUnify E ctx a b iter).
Proof.
  intros Hnr Ha Hb. unfold evalEqUnify. cbv zeta.
  rewrite (plugValue_fixed a _ Hnr (proj1 Ha)).
  rewrite (plugValue_fixed b _ Hnr (proj1 Hb)).
  pose proof (fun ts (H : a = opalog.Array ts) =>
                within_elements n ts (eq_ind _ _ Ha _ H)) as HaA.
  pose proof (fun ts (H : b = opalog.Array ts) =>
                within_elements n ts (eq_ind _ _ Hb _ H)) as HbA.
  pose proof (fun ps (H : a = opalog.Object ps) =>
                within_values n ps (eq_ind _ _ Ha _ H)) as HaO.
  pose proof (fun ps (H : b = opalog.Object ps) =>
                within_values n ps (eq_ind _ _ Hb _ H)) as HbO.
  assert (Hsnd : forall ps : list (Term * Term),
             Forall (fun p => opalog.IsGround (TValue (fst p)) = true
                              /\ groundWithin n (TValue (snd p))) ps ->
             Forall (fun p => groundWithin n (TValue (snd p))) ps).
  { intros ps H. eapply Forall_impl; [|exact H]. intros p [_ Hp]. exact Hp. }
  destruct Ha as [Hga _], Hb as [Hgb _].
  destruct a; try discriminate; destruct b; try discriminate;
    cbn [evalEqUnifyArray evalEqUnifyObject];
    try (apply evalEqGround_settled; reflexivity);
    try apply Settled_nil;
    try (apply evalEqUnifyArrayRef_settled; [eauto|assumption]);
    try (apply evalEqUnifyObjectRef_settled; [eauto|assumption]).
  - apply evalEqUnifyArrays_settled; eauto.
  - apply evalEqUnifyObjects_settled; eauto.
Qed.

End Level.

Lemma evalEqUnify_atoms (E : Evaluator) a b :
  noRefBound (Bindings ctx) ->
  groundWithin 0 a -> groundWithin 0 b ->
  Settled ctx (fun St iter => evalEqUnify E ctx a b iter).
Proof.
  intros Hnr Ha Hb. unfold evalEqUnify. cbv zeta.
  rewrite (plugValue_fixed a _ Hnr (proj1 Ha)).
  rewrite (plugValue_fixed b _ Hnr (proj1 Hb)).
  apply atom_within in Ha. apply atom_within in Hb.
  destruct a; try discriminate; destruct b; try discriminate;
    apply evalEqGround_settled; reflexivity.
Qed.

Lemma evaluator_settles (Hnr : noRefBound (Bindings ctx)) n :
  forall a b, groundWithin n a -> groundWithin n b ->
    Settled ctx (fun St iter => evalEqUnify (evaluator n) ctx a b iter).
Proof.
  induction n as [|n IH]; intros a b Ha Hb.
  - apply evalEqUnify_atoms; assumption.
  - apply (evalEqUnify_settled (evaluator (S n)) n); auto.
Qed.

End GroundUnification.

Lemma continueWith_inj (r r' : Res (option TopDownContext)) :
  (forall St (iter : TopDownIterator St) w s,
     continueWith r iter w s = continueWith r' iter w s) ->
  r = r'.
Proof.
  intros H. specialize (H _ record emptyWorld []).
  destruct r as [[c|]|e|m|], r' as [[c'|]|e'|m'|];
    unfold continueWith, record, nil, ret in H; cbn [app] in H;
    try discriminate; try reflexivity; inversion H; reflexivity.
Qed.

Lemma evalEqUnify_variable (E : Evaluator) ctx a b :
  (forall x, plugValue a (Bindings ctx) = opalog.Var x ->
     forall St (iter : TopDownIterator St) w s,
       evalEqUnify E ctx a b iter w s
       = continueWith (Ok (BindVar ctx x (plugValue b (Bindings ctx)))) iter w s)
  /\ (forall y, plugValue b (Bindings ctx) = opalog.Var y ->
        (forall x, plugValue a (Bindings ctx) <> opalog.Var x) ->
        forall St (iter : TopDownIterator St) w s,
          evalEqUnify E ctx a b iter w s
          = continueWith (Ok (BindVar ctx y (plugValue a (Bindings ctx)))) iter w s).
Proof.
  split.
  - intros x Hx St iter w s. unfold evalEqUnify. cbv zeta. rewrite Hx.
    unfold evalEqUnifyVar. destruct (BindVar _ _ _); reflexivity.
  - intros y Hy Hx St iter w s. unfold evalEqUnify. cbv zeta. rewrite Hy.
    destruct (plugValue a (Bindings ctx)) eqn:Ha;
      try (exfalso; eapply Hx; reflexivity);
      cbn [evalEqUnifyObject evalEqUnifyArray]; unfold evalEqUnifyVar;
      destruct (BindVar _ _ _); reflexivity.
Qed.

(** X6.  Whatever the values, the context and the depth allowed, [evalEqUnify]
    does one of three things, the same for every iterator: it returns an
    error (or panics, or is out of depth) without calling the iterator; it
    returns nil without calling it; or it calls the iterator exactly once,
    as its last action, and returns what the iterator returns.  It never
    touches the trace or the indices itself, and the context it hands over
    has the query, index, previous context, store and tracer of the context
    it was given.  The outcome is produced, not only constrained: when an
    operand plugs to a variable, at every depth it is what [BindVar] of
    that variable to the other plugged operand answers, handed to the
    iterator, or nil when [BindVar] answers nil; and when both operands are
    ground, no reference is bound and the store answers every lookup, a
    depth that covers the nesting of the operands is enough for the
    unification to return, handing over, if anything, the context it was
    given. *)
Theorem unification_emits_once (fuel : nat) (ctx : TopDownContext) (a b : Value) :
  exists r : Res (option TopDownContext),
    (forall St (iter : TopDownIterator St) w s,
       evalEqUnify (evaluator fuel) ctx a b iter w s = continueWith r iter w s)
    /\ (forall c, r = Ok (Some c) -> sameFrame ctx c)
    /\ (forall x, plugValue a (Bindings ctx) = opalog.Var x ->
          r = Ok (BindVar ctx x (plugValue b (Bindings ctx))))
    /\ (forall y, plugValue b (Bindings ctx) = opalog.Var y ->
          (forall x, plugValue a (Bindings ctx) <> opalog.Var x) ->
          r = Ok (BindVar ctx y (plugValue a (Bindings ctx))))
    /\ (noRefBound (Bindings ctx) ->
        (forall path, StoreGet (Store ctx) path <> Diverge) ->
        groundWithin fuel a -> groundWithin fuel b ->
        r <> Diverge /\ forall c, r = Ok (Some c) -> c = ctx).
Proof.
  destruct (evalEqUnify_single (evaluator fuel) (evaluator_unifies fuel) ctx a b)
    as (r & Hr & Hframe).
  exists r. split; [exact Hr|]. split; [exact Hframe|].
  destruct (evalEqUnify_variable (evaluator fuel) ctx a b) as [Hva Hvb].
  split; [|split].
  - intros x Hx. apply continueWith_inj. intros St iter w s.
    rewrite <- Hr. apply Hva. assumption.
  - intros y Hy Hx. apply continueWith_inj. intros St iter w s.
    rewrite <- Hr. apply Hvb; assumption.
  - intros Hnr Hstore Ha Hb.
    destruct (evaluator_settles ctx Hstore Hnr fuel a b Ha Hb)
      as (r' & Hd & Hr' & Hc).
    assert (Heq : r = r').
    { apply continueWith_inj. intros St iter w s. rewrite <- Hr. apply Hr'. }
    subst r'. split; assumption.
Qed.

Lemma unification_emits_once_witness :
  exists r : Res (option TopDownContext),
    (forall St (iter : TopDownIterator St) w s,
       evalEqUnify (evaluator 2) emptyContext nestedPlain nestedPlain iter w s
       = continueWith r iter w s)
    /\ r <> Diverge
    /\ forall c, r = Ok (Some c) -> c = emptyContext.
Proof.
  destruct (unification_emits_once 2 emptyContext nestedPlain nestedPlain)
    as (r & Hr & _ & _ & _ & Hground).
  exists r. split; [exact Hr|].
  apply Hground.
  - intros ts. reflexivity.
  - intros [|p path]; discriminate.
  - split; [reflexivity | cbn; lia].
  - split; [reflexivity | cbn; lia].
Defined.

(** ** References into base documents *)

Lemma evalRefRec_constants sels : forall fuel ctx path St (iter : TopDownIterator St),
  forallb isConstant sels = true ->
  List.length sels <= fuel ->
  evalRefRec (evaluator fuel) ctx sels iter path
  = whenFound (lookup (Store ctx) (path ++ sels)) (iter ctx).
Proof.
  induction sels as [|t tail IH]; intros fuel ctx path St iter Hc Hlen.
  - cbn. rewrite app_nil_r. destruct (lookup (Store ctx) path); reflexivity.
  - cbn in Hc. apply andb_prop in Hc. destruct Hc as [Ht Htail].
    destruct fuel as [|n]; [cbn in Hlen; lia|].
    cbn [evalRefRec]. unfold isConstant in Ht.
    replace (path ++ t :: tail) with ((path ++ [t]) ++ tail)
      by (rewrite <- app_assoc; reflexivity).
    destruct (TValue t) eqn:Hv; try discriminate;
      cbn [call_evalRefRec evaluator]; apply IH; auto; cbn in Hlen; lia.
Qed.

Lemma evalRef_base (fuel : nat) {St} (ctx : TopDownContext)
  (x : string) (loc : option opalog.Location) (sels : list Term)
  (iter : TopDownIterator St) (node : Native) :
  Get (Bindings ctx) (opalog.Var x) = None ->
  lookup (Store ctx) [opalog.mkTerm (opalog.Var x) loc] = Ok node ->
  isRules node = false ->
  forallb isConstant sels = true ->
  List.length sels < fuel ->
  evalRef (evaluator fuel) ctx (opalog.mkTerm (opalog.Var x) loc :: sels) iter
  = whenFound (lookup (Store ctx) (opalog.mkTerm (opalog.Var x) loc :: sels))
              (iter ctx).
Proof.
  intros Hx Hnode Hrules Hc Hlen.
  destruct fuel as [|n]; [lia|].
  unfold evalRef, opalog.EmptyRef. cbn [evalRefRec TValue List.length Nat.eqb].
  rewrite Hx. cbn [app]. rewrite Hnode.
  destruct node; try discriminate;
    cbn [call_evalRefRec evaluator]; apply (evalRefRec_constants sels n ctx [_]);
    auto; lia.
Qed.

(** X7.  A reference whose head is an unbound variable naming a base document
    and whose selectors are all constants is evaluated by one lookup of the
    whole path: when the path exists the iterator is called once with the
    context unchanged, when the store answers not-found nothing is emitted
    and nil is returned, and any other error of the store is returned. *)
Theorem evalRef_base_constant (fuel : nat) {St} (ctx : TopDownContext)
  (x : string) (loc : option opalog.Location) (sels : list Term)
  (iter : TopDownIterator St) (node : Native) :
  Get (Bindings ctx) (opalog.Var x) = None ->
  lookup (Store ctx) [opalog.mkTerm (opalog.Var x) loc] = Ok node ->
  isRules node = false ->
  forallb isConstant sels = true ->
  List.length sels < fuel ->
  evalRef (evaluator fuel) ctx (opalog.mkTerm (opalog.Var x) loc :: sels) iter
  = whenFound (lookup (Store ctx) (opalog.mkTerm (opalog.Var x) loc :: sels))
              (iter ctx)
  /\ (forall found w s,
        lookup (Store ctx) (opalog.mkTerm (opalog.Var x) loc :: sels) = Ok found ->
        evalRef (evaluator fuel) ctx (opalog.mkTerm (opalog.Var x) loc :: sels)
                iter w s
        = iter ctx w s).
Proof.
  intros Hx Hnode Hrules Hc Hlen.
  pose proof (evalRef_base fuel ctx x loc sels iter node Hx Hnode Hrules Hc Hlen)
    as H.
  split; [exact H|]. intros found w s Hfound. rewrite H, Hfound. reflexivity.
Qed.

Lemma evalRef_base_constant_witness :
  evalRef (evaluator 3) contextA (term (opalog.Var "a") :: selectors00)
          record emptyWorld []
  = (emptyWorld, [contextA], Ok tt).
Proof.
  apply (proj2 (evalRef_base_constant 3 contextA "a" None selectors00 record
                  (NArray [NArray [NNumber 1]; NNumber 2])
                  eq_refl eq_refl eq_refl eq_refl ltac:(cbn; lia))
               (NNumber 1)).
  reflexivity.
Defined.

(** X8.  A reference that is just the name of a virtual document, with no
    selector after it, is not implemented: [evalRef] fails on the first
    rule with the not-implemented error, whatever the kind of the rule
    (complete, partial set or partial object), without running the rule
    and without calling the iterator. *)
Theorem evalRef_virtual_name (E : Evaluator) {St} (ctx : TopDownContext)
  (head : Term) (x : string) (rule : Rule) (rest : list Rule)
  (iter : TopDownIterator St) (w : World) (s : St) :
  TValue head = opalog.Var x ->
  Get (Bindings ctx) (opalog.Var x) = None ->
  lookup (Store ctx) [head] = Ok (NRules (rule :: rest)) ->
  evalRef E ctx [head] iter w s = (w, s, Err (ErrNotImplemented [head] [head] rule)).
Proof.
  intros Hhead Hx Hnode.
  unfold evalRef, opalog.EmptyRef. cbn [evalRefRec]. rewrite Hhead.
  cbn [List.length Nat.eqb]. rewrite Hx. cbn [app]. rewrite Hnode.
  cbn [forEach]. unfold andThen, evalRefRule.
  destruct (opalog.RuleDocKind rule); reflexivity.
Qed.

Lemma evalRef_virtual_name_witness :
  evalRef (evaluator 1) contextTrue pathP record emptyWorld []
  = (emptyWorld, [], Err (ErrNotImplemented pathP pathP ruleTrue)).
Proof.
  apply (evalRef_virtual_name (evaluator 1) contextTrue (term (opalog.Var "p"))
           "p" ruleTrue []); reflexivity.
Defined.

Lemma forEach_ext {St A} (l : list A) (f g : A -> M St) :
  (forall x, In x l -> f x = g x) -> forEach l f = forEach l g.
Proof.
  induction l as [|x l IH]; intros H; cbn; [reflexivity|].
  rewrite (H x (or_introl eq_refl)), IH; auto.
  intros y Hy. apply H. right. assumption.
Qed.

Lemma BindVar_Store ctx x v c : BindVar ctx x v = Some c -> Store c = Store ctx.
Proof. intros H. apply BindVar_frame in H. apply H. Qed.

(** X9.  On a reference [a[i]] with [a] an unbound name of a base document and
    [i] an unbound variable, [evalRef] enumerates the collection: for an
    array it binds [i] to the indices 0, 1, ... in order, for a map it
    binds [i] to each key as a string, in the order the map is ranged
    over; each
    binding is made from the original context, the iterator is called on
    it, and the first error stops the enumeration. *)
Theorem evalRef_enumerates (fuel : nat) {St} (ctx : TopDownContext)
  (a i : string) (iter : TopDownIterator St) :
  Get (Bindings ctx) (opalog.Var a) = None ->
  Get (Bindings ctx) (opalog.Var i) = None ->
  (forall xs,
     lookup (Store ctx) [opalog.VarTerm a] = Ok (NArray xs) ->
     (forall k, k < List.length xs ->
        exists d, lookup (Store ctx)
                    [opalog.VarTerm a; opalog.NumberTerm (Z.of_nat k)] = Ok d) ->
     evalRef (evaluator (S (S fuel))) ctx [opalog.VarTerm a; opalog.VarTerm i] iter
     = forEach (seq 0 (List.length xs))
         (fun k => callIter iter (BindVar ctx i (opalog.Number (Z.of_nat k)))))
  /\ (forall kvs,
        lookup (Store ctx) [opalog.VarTerm a] = Ok (NMap kvs) ->
        (forall kv, In kv kvs ->
           exists d, lookup (Store ctx)
                       [opalog.VarTerm a; opalog.StringTerm (fst kv)] = Ok d) ->
        evalRef (evaluator (S (S fuel))) ctx [opalog.VarTerm a; opalog.VarTerm i] iter
        = forEach kvs
            (fun kv => callIter iter (BindVar ctx i (opalog.String (fst kv))))).
Proof.
  intros Ha Hi. split.
  - intros xs Hnode Helems.
    unfold evalRef, opalog.EmptyRef.
    cbn [evalRefRec TValue opalog.VarTerm List.length Nat.eqb].
    rewrite Ha. cbn [app]. rewrite Hnode.
    cbn [call_evalRefRec evaluator evalRefRec TValue opalog.VarTerm
         List.length Nat.eqb].
    rewrite Hi, Hnode.
    apply forEach_ext. intros k Hk. apply in_seq in Hk.
    destruct (BindVar ctx i (opalog.Number (Z.of_nat k))) as [c|] eqn:Hb;
      [|reflexivity].
    cbn [callIter call_evalRefRec evaluator evalRefRec].
    rewrite (BindVar_Store _ _ _ _ Hb).
    destruct (Helems k) as [d Hd]; [lia|].
    cbn [app]. rewrite Hd. reflexivity.
  - intros kvs Hnode Helems.
    unfold evalRef, opalog.EmptyRef.
    cbn [evalRefRec TValue opalog.VarTerm List.length Nat.eqb].
    rewrite Ha. cbn [app]. rewrite Hnode.
    cbn [call_evalRefRec evaluator evalRefRec TValue opalog.VarTerm
         List.length Nat.eqb].
    rewrite Hi, Hnode.
    apply forEach_ext. intros kv Hkv.
    destruct (BindVar ctx i (opalog.String (fst kv))) as [c|] eqn:Hb;
      [|reflexivity].
    cbn [callIter call_evalRefRec evaluator evalRefRec].
    rewrite (BindVar_Store _ _ _ _ Hb).
    destruct (Helems kv Hkv) as [d Hd].
    cbn [app]. rewrite Hd. reflexivity.
Qed.

Lemma evalRef_enumerates_witness :
  evalRef (evaluator 2) contextFixpoint
          [opalog.VarTerm "a"; opalog.VarTerm "i"] record
  = forEach (seq 0 2)
      (fun k => callIter record
                  (BindVar contextFixpoint "i" (opalog.Number (Z.of_nat k)))).
Proof.
  apply (proj1 (evalRef_enumerates 0 contextFixpoint "a" "i" record
                  eq_refl eq_refl) [NNumber 0; NNumber 5]).
  - reflexivity.
  - intros k Hk. destruct k as [|[|k]];
      [eexists; reflexivity | eexists; reflexivity | cbn in Hk; lia].
Defined.

(** ** Indices *)

Lemma find_app_None {A} (f : A -> bool) l l' :
  find f l = None -> find f (l ++ l') = find f l'.
Proof.
  induction l as [|x l IH]; cbn; auto. destruct (f x); [discriminate|auto].
Qed.

Lemma indicesGet_added w ref idx :
  indicesGet w ref = None ->
  indicesGet (mkWorld (Indices w ++ [(ref, idx)]) (TraceLog w)) ref = Some idx.
Proof.
  unfold indicesGet. cbn [Indices].
  destruct (find _ (Indices w)) eqn:Hf; [discriminate|]. intros _.
  rewrite find_app_None by assumption. cbn [find fst snd].
  rewrite Equal_refl. reflexivity.
Qed.

Lemma indexBuildLazy_true ctx ref w w' :
  indexBuildLazy ctx ref w = (w', Ok true) ->
  opalog.IsGround (opalog.Ref ref) = false
  /\ ((exists idx0, indicesGet w ref = Some idx0 /\ w' = w)
      \/ (indicesGet w ref = None
          /\ exists idx,
               IndicesBuild (Store ctx) ref = Ok idx
               /\ w' = mkWorld (Indices w ++ [(ref, idx)]) (TraceLog w))).
Proof.
  unfold indexBuildLazy.
  destruct (opalog.IsGround (opalog.Ref ref)) eqn:Hg; [discriminate|].
  split; [reflexivity|].
  destruct (indicesGet w ref) as [idx0|] eqn:Hget.
  - left. exists idx0. split; congruence.
  - right. split; [reflexivity|].
    assert (Hbuild :
              match IndicesBuild (Store ctx) ref with
              | Ok idx =>
                  (mkWorld (Indices w ++ [(ref, idx)]) (TraceLog w), Ok true)
              | Err err => (w, Err err)
              | Panic msg => (w, Panic msg)
              | Diverge => (w, Diverge)
              end = (w', Ok true) ->
              exists idx,
                IndicesBuild (Store ctx) ref = Ok idx
                /\ w' = mkWorld (Indices w ++ [(ref, idx)]) (TraceLog w)).
    { destruct (IndicesBuild (Store ctx) ref) as [idx| | |]; try discriminate.
      intros [= <-]. exists idx. auto. }
    destruct ref as [|ref0 rest]; [discriminate|].
    destruct (Get (Bindings ctx) (TValue ref0)); [discriminate|].
    match goal with
    | H : ?f ?ps ?tmp = ?rhs |- ?G =>
        assert (Hgen : forall ps' tmp', f ps' tmp' = rhs -> G);
          [ clear H | exact (Hgen ps tmp H) ]
    end.
    induction ps' as [|p ps IH]; intros tmp Hrun.
    + exact (Hbuild Hrun).
    + destruct (StoreGet (Store ctx) _) as [r| | |]; try discriminate.
      destruct r; try discriminate;
        (destruct (negb (opalog.IsGround (TValue p)));
         [ exact (Hbuild Hrun) | eapply IH; eassumption ]).
Qed.

(** X10.  When [indexBuildLazy] answers true, the reference is not ground and an
    index for it is in the store afterwards, so that every later call for
    that reference from a context over the same store answers true and
    changes nothing; the trace is untouched, and the indices are either
    unchanged or extended by the one index built for this reference from
    the store. *)
Theorem indexBuildLazy_cached (ctx : TopDownContext) (ref : list Term)
  (w w' : World) :
  indexBuildLazy ctx ref w = (w', Ok true) ->
  indicesGet w' ref <> None
  /\ (forall ctx', Store ctx' = Store ctx ->
        indexBuildLazy ctx' ref w' = (w', Ok true))
  /\ TraceLog w' = TraceLog w
  /\ (Indices w' = Indices w
      \/ exists idx, IndicesBuild (Store ctx) ref = Ok idx
                     /\ Indices w' = Indices w ++ [(ref, idx)]).
Proof.
  intros Hrun. apply indexBuildLazy_true in Hrun.
  destruct Hrun as [Hg Hcases].
  assert (Hfound : exists idx, indicesGet w' ref = Some idx).
  { destruct Hcases as [(idx0 & Hget & ->) | (Hget & idx & _ & ->)].
    - exists idx0. assumption.
    - exists idx. apply indicesGet_added. assumption. }
  destruct Hfound as [idx' Hfound]. repeat split.
  - congruence.
  - intros ctx' _. unfold indexBuildLazy. rewrite Hg, Hfound. reflexivity.
  - destruct Hcases as [(idx0 & _ & ->) | (_ & idx & _ & ->)]; reflexivity.
  - destruct Hcases as [(idx0 & _ & ->) | (_ & idx & Hb & ->)];
      [left; reflexivity | right; exists idx; auto].
Qed.

Lemma indexBuildLazy_cached_witness :
  indicesGet (fst (indexBuildLazy contextNested (termsNested "i" "j") emptyWorld))
             (termsNested "i" "j") <> None
  /\ indexBuildLazy (Step contextNested) (termsNested "i" "j")
       (fst (indexBuildLazy contextNested (termsNested "i" "j") emptyWorld))
     = (fst (indexBuildLazy contextNested (termsNested "i" "j") emptyWorld),
        Ok true).
Proof.
  destruct (indexBuildLazy_cached contextNested (termsNested "i" "j") emptyWorld
              (fst (indexBuildLazy contextNested (termsNested "i" "j") emptyWorld))
              eq_refl) as (Hget & Hagain & _).
  split; [exact Hget|]. apply Hagain. reflexivity.
Defined.

(** X11.  [indexAvailable] does not depend on the order of the two operands of
    the expression. *)
Theorem indexAvailable_symmetric (ctx : TopDownContext) (op a b : Term)
  (rest : list Term) :
  indexAvailable ctx (op :: a :: b :: rest)
  = indexAvailable ctx (op :: b :: a :: rest).
Proof.
  unfold indexAvailable. cbn [termAt nth_error res_bind].
  destruct (negb _); [reflexivity|].
  destruct (isRef (TValue (plugTerm a (Bindings ctx)))),
           (isRef (TValue (plugTerm b (Bindings ctx)))),
           (opalog.TermIsGround (plugTerm a (Bindings ctx))),
           (opalog.TermIsGround (plugTerm b (Bindings ctx))); reflexivity.
Qed.

(** ** Invariants of the search *)

Lemma indexBuildLazy_world ctx ref w :
  fst (indexBuildLazy ctx ref w) = w
  \/ exists idx,
       fst (indexBuildLazy ctx ref w)
       = mkWorld (Indices w ++ [(ref, idx)]) (TraceLog w).
Proof.
  unfold indexBuildLazy.
  destruct (opalog.IsGround (opalog.Ref ref)); [left; reflexivity|].
  destruct (indicesGet w ref); [left; reflexivity|].
  destruct ref as [|ref0 rest]; [left; reflexivity|].
  destruct (Get (Bindings ctx) (TValue ref0)); [left; reflexivity|].
  match goal with
  | |- fst (?f ?ps ?tmp) = _ \/ _ =>
      assert (Hgen : forall ps' tmp',
                fst (f ps' tmp') = w \/
                exists idx,
                  fst (f ps' tmp')
                  = mkWorld (Indices w ++ [(ref0 :: rest, idx)]) (TraceLog w));
        [ | apply Hgen ]
  end.
  assert (Hbuild :
            fst match IndicesBuild (Store ctx) (ref0 :: rest) with
                | Ok idx =>
                    (mkWorld (Indices w ++ [(ref0 :: rest, idx)]) (TraceLog w),
                     Ok true)
                | Err err => (w, Err err)
                | Panic msg => (w, Panic msg)
                | Diverge => (w, Diverge)
                end = w \/
            exists idx,
              fst match IndicesBuild (Store ctx) (ref0 :: rest) with
                  | Ok idx =>
                      (mkWorld (Indices w ++ [(ref0 :: rest, idx)]) (TraceLog w),
                       Ok true)
                  | Err err => (w, Err err)
                  | Panic msg => (w, Panic msg)
                  | Diverge => (w, Diverge)
                  end
              = mkWorld (Indices w ++ [(ref0 :: rest, idx)]) (TraceLog w)).
  { destruct (IndicesBuild (Store ctx) (ref0 :: rest)) as [idx| | |];
      [right; exists idx; reflexivity | left; reflexivity ..]. }
  induction ps' as [|p ps IH]; intros tmp; [exact Hbuild|].
  destruct (StoreGet (Store ctx) _) as [r| | |]; try (left; reflexivity).
  destruct r; try (left; reflexivity);
    (destruct (negb (opalog.IsGround (TValue p))); [exact Hbuild | apply IH]).
Qed.

Section Invariants.
Context (BExt : hashMap -> hashMap -> Prop) (t : option Tracer)
        (WR : World -> World -> Prop).
Context (HB : Extension BExt) (HW : Evolution t WR).

Section Combinators.
Context {St : Type} (Inv : St -> Prop).

Lemma sat_ret r : sat WR Inv (ret r).
Proof. intros w s H. cbn. split; [apply (wr_refl _ _ HW)|exact H]. Qed.

Lemma sat_nil : sat WR Inv nil.
Proof. apply sat_ret. Qed.

Lemma sat_andThen a b : sat WR Inv a -> sat WR Inv b -> sat WR Inv (a ;; b).
Proof.
  intros Ha Hb w s H. unfold andThen. specialize (Ha w s H).
  destruct (a w s) as [[w1 s1] r1]. cbn in Ha. destruct Ha as [Hw Hs].
  destruct r1; cbn; auto.
  specialize (Hb w1 s1 Hs). destruct Hb as [Hw2 Hs2].
  split; [eapply (wr_trans _ _ HW); eassumption|assumption].
Qed.

Lemma sat_withRes {A} (r : Res A) k :
  (forall a, r = Ok a -> sat WR Inv (k a)) -> sat WR Inv (withRes r k).
Proof. intros H. destruct r; cbn; auto using sat_ret. Qed.

Lemma sat_forEach {A} (l : list A) f :
  (forall x, In x l -> sat WR Inv (f x)) -> sat WR Inv (forEach l f).
Proof.
  induction l as [|x l IH]; intros H; cbn; [apply sat_nil|].
  apply sat_andThen; [apply H; left; reflexivity|].
  apply IH. intros y Hy. apply H. right. assumption.
Qed.

Lemma sat_capture {L} (InvL : L -> Prop) (l0 : L) (m : M L) k :
  InvL l0 -> sat WR InvL m -> (forall l, InvL l -> sat WR Inv (k l)) ->
  sat WR Inv (capture l0 m k).
Proof.
  intros H0 Hm Hk w s H. unfold capture. specialize (Hm w l0 H0).
  destruct (m w l0) as [[w1 l1] r1]. cbn in Hm. destruct Hm as [Hw Hl].
  destruct r1; cbn; auto.
  specialize (Hk l1 Hl w1 s H). destruct Hk as [Hw2 Hs2].
  split; [eapply (wr_trans _ _ HW); eassumption|assumption].
Qed.

Lemma sat_trace ctx ev : CtxTracer ctx = t -> sat WR Inv (trace ctx ev).
Proof.
  intros Ht w s H. unfold trace. rewrite Ht.
  pose proof (wr_refl _ _ HW w) as Hrefl.
  pose proof (wr_trace _ _ HW w ev) as Htrace.
  destruct t as [tr|]; [destruct (Enabled tr) eqn:Hen|]; cbn; split; auto.
Qed.

Lemma sat_callIter (iter : TopDownIterator St) c :
  (forall x, c = Some x -> sat WR Inv (iter x)) -> sat WR Inv (callIter iter c).
Proof. intros H. destruct c; cbn; auto using sat_ret. Qed.

Lemma sat_orStop m k : sat WR Inv m -> sat WR Inv k -> sat WR Inv (orStop m k).
Proof.
  intros Hm Hk w s H. unfold orStop. specialize (Hm w s H).
  destruct (m w s) as [[w1 s1] r1]. cbn in Hm. destruct Hm as [Hw Hs].
  destruct r1; cbn; auto.
  specialize (Hk w1 s1 Hs). destruct Hk as [Hw2 Hs2].
  split; [eapply (wr_trans _ _ HW); eassumption|assumption].
Qed.

Lemma sat_inWorld {A} (f : World -> World * Res A) k :
  (forall w, WR w (fst (f w))) ->
  (forall a, sat WR Inv (k a)) -> sat WR Inv (inWorld f k).
Proof.
  intros Hf Hk w s H. unfold inWorld. specialize (Hf w).
  destruct (f w) as [w1 r1]. cbn in Hf.
  destruct r1; cbn; auto.
  specialize (Hk a w1 s H). destruct Hk as [Hw2 Hs2].
  split; [eapply (wr_trans _ _ HW); eassumption|assumption].
Qed.

Lemma sat_withCaptured {L} (InvL : L -> Prop) (l0 : L) m :
  InvL l0 ->
  sat WR (fun sl => Inv (fst sl) /\ InvL (snd sl)) m ->
  sat WR Inv (withCaptured l0 m).
Proof.
  intros H0 Hm w s H. unfold withCaptured.
  specialize (Hm w (s, l0) (conj H H0)).
  destruct (m w (s, l0)) as [[w1 [s1 l1]] r1]. cbn in *. tauto.
Qed.

Lemma sat_captured {L} (InvL : L -> Prop) (f : L -> M (St * L)) :
  (forall l, InvL l -> sat WR (fun sl => Inv (fst sl) /\ InvL (snd sl)) (f l)) ->
  sat WR (fun sl => Inv (fst sl) /\ InvL (snd sl)) (captured f).
Proof. intros H w sl HI. unfold captured. apply H; tauto. Qed.

Lemma sat_assigning {L} (InvL : L -> Prop) (l : L) m :
  InvL l -> sat WR Inv m ->
  sat WR (fun sl => Inv (fst sl) /\ InvL (snd sl)) (assigning l m).
Proof.
  intros Hl Hm w sl [HI _]. unfold assigning. specialize (Hm w (fst sl) HI).
  destruct (m w (fst sl)) as [[w1 s1] r1]. cbn in *. tauto.
Qed.

End Combinators.

Lemma ext_refl c : ext BExt c c.
Proof. split; [apply sameFrame_refl|apply (bext_refl _ HB)]. Qed.

Lemma ext_trans a b c : ext BExt a b -> ext BExt b c -> ext BExt a c.
Proof.
  intros [Hf1 Hb1] [Hf2 Hb2]. split.
  - eapply sameFrame_trans; eassumption.
  - eapply (bext_trans _ HB); eassumption.
Qed.

Lemma ext_BindVar c x v c' : BindVar c x v = Some c' -> ext BExt c c'.
Proof.
  intros H. split; [eapply BindVar_frame; eassumption|].
  eapply (bext_BindVar _ HB); eassumption.
Qed.

Lemma ext_BindRef c ref v : ext BExt c (BindRef c ref v).
Proof.
  split; [apply BindRef_frame|]. rewrite Bindings_BindRef.
  apply (bext_BindRef _ HB).
Qed.

Lemma ext_Update c delta :
  ext BExt c (withBindings c (Update (Bindings c) delta)).
Proof.
  split; [destruct c; repeat split|]. destruct c. cbn.
  apply (bext_Update _ HB).
Qed.

Lemma ext_tracer c0 c : ext BExt c0 c -> CtxTracer c0 = t -> CtxTracer c = t.
Proof. intros [(_&_&_&_&H) _] Ht. congruence. Qed.

Lemma extTmp_None ctx0 : extTmp BExt ctx0 None.
Proof. intros c; discriminate. Qed.

Lemma extTmp_Some ctx0 c : ext BExt ctx0 c -> extTmp BExt ctx0 (Some c).
Proof. intros H c' [= <-]. exact H. Qed.

Lemma sat_setTmp ctx0 c :
  ext BExt ctx0 c -> sat WR (extTmp BExt ctx0) (setTmp c).
Proof.
  intros H w s _. cbn. split; [apply (wr_refl _ _ HW)|apply extTmp_Some, H].
Qed.

Lemma BindVarOn_ext ctx0 l x v l' :
  extTmp BExt ctx0 l -> BindVarOn l x v = Ok l' -> extTmp BExt ctx0 l'.
Proof.
  intros Hl. destruct l as [c|]; unfold BindVarOn.
  - intros [= <-] c' Hc'. eapply ext_trans; [apply Hl; reflexivity|].
    eapply ext_BindVar; eassumption.
  - destruct (opalog.Equal (opalog.Var x) v);
      [intros [= <-]; apply extTmp_None|].
    destruct (walkValue v _); [intros [= <-]; apply extTmp_None|discriminate].
Qed.

Lemma BindRefOn_ext ctx0 l ref v c :
  extTmp BExt ctx0 l -> BindRefOn l ref v = Ok c -> ext BExt ctx0 c.
Proof.
  intros Hl. destruct l as [c0|]; cbn; [|discriminate].
  intros [= <-]. eapply ext_trans; [apply Hl; reflexivity|apply ext_BindRef].
Qed.

Lemma fold_BindVarOn_ext ctx0 (keys : list (string * Value)) : forall acc l',
  (forall l, acc = Ok l -> extTmp BExt ctx0 l) ->
  fold_left (fun acc kv => res_bind acc (fun c => BindVarOn c (fst kv) (snd kv)))
            keys acc = Ok l' ->
  extTmp BExt ctx0 l'.
Proof.
  induction keys as [|kv keys IH]; intros acc l' Hacc; cbn.
  - intros H. apply Hacc. assumption.
  - apply IH. intros l Hl. destruct acc as [l0| | |]; try discriminate.
    cbn in Hl. eapply BindVarOn_ext; [|eassumption]. apply Hacc. reflexivity.
Qed.

Ltac sat_step :=
  lazymatch goal with
  | |- sat _ _ nil => apply sat_nil
  | |- sat _ _ (ret _) => apply sat_ret
  | |- sat _ _ (andThen _ _) => apply sat_andThen
  | |- sat _ _ (withRes _ _) => apply sat_withRes; intros ? ?
  | |- sat _ _ (forEach _ _) => apply sat_forEach; intros ? ?
  | |- sat _ _ (orStop _ _) => apply sat_orStop
  | |- sat _ _ (callIter _ _) => apply sat_callIter; intros ? ?
  | |- sat _ _ (trace _ _) => apply sat_trace
  | |- sat _ _ (match ?x with _ => _ end) => destruct x eqn:?
  | |- sat _ _ (if ?x then _ else _) => destruct x eqn:?
  end.

Ltac sats := cbv zeta; repeat sat_step.

(** Closing a goal [ext ctx0 c] from the steps that led to [c]. *)
Ltac ext_solve :=
  eauto 6 using ext_refl, ext_trans, ext_BindVar, ext_BindRef, ext_Update,
                extTmp_None, extTmp_Some, ext_tracer.

Section Level.
Context (E : Evaluator) (HE : Respects BExt t WR E).
Context (ctx0 : TopDownContext) (Ht0 : CtxTracer ctx0 = t).

Section Unify.
Context {St : Type} (Inv : St -> Prop) (iter : TopDownIterator St).
Context (Hiter : forall c, ext BExt ctx0 c -> sat WR Inv (iter c)).

Lemma evalEqUnifyVar_res ctx a b :
  ext BExt ctx0 ctx -> sat WR Inv (evalEqUnifyVar ctx a b iter).
Proof.
  intros Hc. unfold evalEqUnifyVar. sats. apply Hiter. ext_solve.
Qed.

Lemma evalEqGround_res ctx a b :
  ext BExt ctx0 ctx -> sat WR Inv (evalEqGround ctx a b iter).
Proof. intros Hc. unfold evalEqGround. sats. apply Hiter. assumption. Qed.

Lemma call_unify_tmp ctx a b :
  ext BExt ctx0 ctx ->
  sat WR (extTmp BExt ctx0) (call_evalEqUnify E _ ctx a b setTmp).
Proof.
  intros Hc. apply (res_evalEqUnify _ _ _ _ HE); [ext_solve|].
  intros c Hcc. apply sat_setTmp. ext_solve.
Qed.

Lemma evalEqUnifyArrays_res ctx a b :
  ext BExt ctx0 ctx -> sat WR Inv (evalEqUnifyArrays E ctx a b iter).
Proof.
  unfold evalEqUnifyArrays. destruct (negb _); [intros; apply sat_nil|].
  generalize (combine a b) as ab. intros ab. revert ctx.
  induction ab as [|[ai bi] rest IH]; intros ctx Hc.
  - apply Hiter. assumption.
  - apply sat_capture with (InvL := extTmp BExt ctx0);
      [apply extTmp_None | apply call_unify_tmp; assumption |].
    intros [c|] Hl; [apply IH, Hl; reflexivity | apply sat_nil].
Qed.

Lemma evalEqUnifyArrayRef_res ctx a b :
  ext BExt ctx0 ctx -> sat WR Inv (evalEqUnifyArrayRef E ctx a b iter).
Proof.
  intros Hc. unfold evalEqUnifyArrayRef. sats.
  match goal with
  | |- sat ?W ?I (?f ?i ?elems ?c) =>
      assert (Hloop : forall elems' c' i',
                ext BExt ctx0 c' -> sat W I (f i' elems' c'));
        [ | apply Hloop; assumption ]
  end.
  induction elems' as [|ai rest IH]; intros c' i' Hc'.
  - apply Hiter. assumption.
  - apply sat_capture with (InvL := extTmp BExt ctx0);
      [apply extTmp_None | apply call_unify_tmp; assumption |].
    intros [c|] Hl; [apply IH, Hl; reflexivity | apply sat_nil].
Qed.

Lemma evalEqUnifyArray_res ctx a b :
  ext BExt ctx0 ctx -> sat WR Inv (evalEqUnifyArray E ctx a b iter).
Proof.
  intros Hc. unfold evalEqUnifyArray.
  destruct b; try apply sat_nil;
    auto using evalEqUnifyVar_res, evalEqUnifyArrayRef_res, evalEqUnifyArrays_res.
Qed.

Lemma evalEqUnifyObjects_res ctx a b :
  ext BExt ctx0 ctx -> sat WR Inv (evalEqUnifyObjects E ctx a b iter).
Proof.
  unfold evalEqUnifyObjects. destruct (negb _); [intros; apply sat_nil|].
  destruct (firstVariableKey _); [intros; apply sat_ret|].
  revert ctx. induction a as [|ai rest IH]; intros ctx Hc.
  - apply Hiter. assumption.
  - apply sat_capture with (InvL := extTmp BExt ctx0); [apply extTmp_None | |].
    + match goal with
      | |- sat ?W ?I (?f b) =>
          assert (Hinner : forall qs, sat W I (f qs)); [clear IH | apply Hinner]
      end.
      induction qs as [|bj qs IHq]; [apply sat_nil|].
      destruct (opalog.TermEqual (fst bj) (fst ai)); [|exact IHq].
      apply sat_andThen; [apply call_unify_tmp; assumption|].
      intros w [c|] Hl; [apply IHq; assumption|].
      cbn. split; [apply (wr_refl _ _ HW)|assumption].
    + intros [c|] Hl; [apply IH, Hl; reflexivity | apply sat_nil].
Qed.

Lemma evalEqUnifyObjectRef_res ctx a b :
  ext BExt ctx0 ctx -> sat WR Inv (evalEqUnifyObjectRef E ctx a b iter).
Proof.
  intros Hc. unfold evalEqUnifyObjectRef. sats.
  match goal with
  | |- sat ?W ?I (?f ?elems ?c) =>
      assert (Hloop : forall elems' c',
                ext BExt ctx0 c' -> sat W I (f elems' c'));
        [ | apply Hloop; assumption ]
  end.
  induction elems' as [|ai rest IH]; intros c' Hc'.
  - apply Hiter. assumption.
  - sats.
    apply sat_capture with (InvL := extTmp BExt ctx0);
      [apply extTmp_None | apply call_unify_tmp; assumption |].
    intros [c|] Hl; [apply IH, Hl; reflexivity | apply sat_nil].
Qed.

Lemma evalEqUnifyObject_res ctx a b :
  ext BExt ctx0 ctx -> sat WR Inv (evalEqUnifyObject E ctx a b iter).
Proof.
  intros Hc. unfold evalEqUnifyObject.
  destruct b; try apply sat_nil;
    auto using evalEqUnifyVar_res, evalEqUnifyObjectRef_res, evalEqUnifyObjects_res.
Qed.

Lemma evalEqUnify_res ctx a b :
  ext BExt ctx0 ctx -> sat WR Inv (evalEqUnify E ctx a b iter).
Proof.
  intros Hc. unfold evalEqUnify. cbv zeta.
  destruct (plugValue a (Bindings ctx)); destruct (plugValue b (Bindings ctx));
    auto using evalEqUnifyVar_res, evalEqUnifyObject_res,
               evalEqUnifyArray_res, evalEqGround_res.
Qed.

Lemma evalRefRuleResult_res ctx ref suffix result :
  extTmp BExt ctx0 ctx ->
  sat WR Inv (evalRefRuleResult E ctx ref suffix result iter).
Proof.
  intros Hc. unfold evalRefRuleResult.
  assert (Hhits : forall hits cap,
            extTmp BExt ctx0 cap ->
            sat WR Inv
              ((fix each (hits : list (list (string * Value) * Value))
                  (ctx : option TopDownContext) : M St :=
                  match hits with
                  | [] => nil
                  | (keys, value) :: rest =>
                      c1 <- BindRefOn ctx ref value ;;;
                      c2 <- fold_left
                              (fun acc kv =>
                                 res_bind acc
                                   (fun c => BindVarOn c (fst kv) (snd kv)))
                              keys (Ok (Some c1)) ;;;
                      orStop (callIter iter c2) (each rest c2)
                  end) hits cap)).
  { induction hits as [|[keys value] rest IH]; intros cap Hcap; [apply sat_nil|].
    apply sat_withRes. intros c1 Hc1. apply sat_withRes. intros c2 Hc2.
    assert (H2 : extTmp BExt ctx0 c2).
    { eapply fold_BindVarOn_ext; [|eassumption].
      intros l [= <-]. apply extTmp_Some. eapply BindRefOn_ext; eassumption. }
    apply sat_orStop; [|apply IH; assumption].
    apply sat_callIter. intros x ->. apply Hiter. apply H2. reflexivity. }
  destruct result; sats;
    try (apply Hiter; eapply BindRefOn_ext; eassumption);
    try (apply Hhits; apply extTmp_Some; apply Hc; reflexivity).
  apply (res_evalRefRec _ _ _ _ HE).
  - eapply ext_tracer; [apply Hc; reflexivity|assumption].
  - intros c Hcc. apply Hiter.
    eapply ext_trans; [apply Hc; reflexivity|].
    eapply ext_trans; [eassumption|apply ext_BindRef].
Qed.

End Unify.

Lemma Child_tracer ctx rule b :
  ext BExt ctx0 ctx -> CtxTracer (Child ctx rule b) = t.
Proof. intros H. cbn. eapply ext_tracer; eassumption. Qed.

Section Rules.
Context {St : Type} (Inv : St -> Prop) (iter : TopDownIterator St).
Context (Hiter : forall c, ext BExt ctx0 c -> sat WR Inv (iter c)).

Lemma evalRefRuleCompleteDoc_res ctx ref path rule :
  ext BExt ctx0 ctx ->
  sat WR Inv (evalRefRuleCompleteDoc E ctx ref path rule iter).
Proof.
  intros Hc. unfold evalRefRuleCompleteDoc. sats.
  apply (res_evalContext _ _ _ _ HE); [apply Child_tracer; assumption|].
  intros c _. sats; apply evalRefRuleResult_res; auto using extTmp_Some.
Qed.

Lemma evalRefRulePartialObjectDoc_res ctx ref path rule :
  ext BExt ctx0 ctx ->
  sat WR Inv (evalRefRulePartialObjectDoc E ctx ref path rule iter).
Proof.
  intros Hc. unfold evalRefRulePartialObjectDoc. sats.
  - apply sat_withCaptured with (InvL := extTmp BExt ctx0);
      [apply extTmp_Some; assumption|].
    apply (res_evalContext _ _ _ _ HE); [apply Child_tracer; assumption|].
    intros c _. apply sat_captured. intros cap Hcap. sats.
    apply sat_assigning.
    + eapply BindVarOn_ext; eassumption.
    + apply evalRefRuleResult_res; auto. eapply BindVarOn_ext; eassumption.
  - apply (res_evalContext _ _ _ _ HE); [apply Child_tracer; assumption|].
    intros c _. sats. apply evalRefRuleResult_res; auto using extTmp_Some.
Qed.

Lemma evalRefRulePartialSetDoc_res ctx ref path rule :
  ext BExt ctx0 ctx ->
  sat WR Inv (evalRefRulePartialSetDoc E ctx ref path rule iter).
Proof.
  intros Hc. unfold evalRefRulePartialSetDoc. sats.
  - apply sat_withCaptured with (InvL := extTmp BExt ctx0);
      [apply extTmp_Some; assumption|].
    apply (res_evalContext _ _ _ _ HE); [apply Child_tracer; assumption|].
    intros c _. apply sat_captured. intros cap Hcap. sats.
    match goal with
    | |- sat _ _ (assigning (Some ?c1) _) =>
        assert (Hx : ext BExt ctx0 c1)
          by (eapply BindRefOn_ext; [|eassumption];
              eapply BindVarOn_ext; eassumption)
    end.
    apply sat_assigning; [apply extTmp_Some; assumption|]. apply Hiter. assumption.
  - apply sat_withCaptured with (InvL := ext BExt ctx0); [assumption|].
    apply (res_evalContext _ _ _ _ HE); [apply Child_tracer; assumption|].
    intros c _. apply sat_captured. intros cap Hcap. cbv zeta.
    assert (Hx : ext BExt ctx0
                   (BindRef cap (firstn (List.length path + 1) ref)
                            (opalog.Boolean true)))
      by (eapply ext_trans; [eassumption|apply ext_BindRef]).
    apply sat_assigning; [assumption|]. apply Hiter. assumption.
Qed.

Lemma evalRefRule_res ctx ref path rule :
  ext BExt ctx0 ctx -> sat WR Inv (evalRefRule E ctx ref path rule iter).
Proof.
  intros Hc. unfold evalRefRule.
  destruct (opalog.RuleDocKind rule);
    auto using evalRefRuleCompleteDoc_res, evalRefRulePartialObjectDoc_res,
               evalRefRulePartialSetDoc_res.
Qed.

Lemma call_evalRefRec_res ctx ref path :
  ext BExt ctx0 ctx -> sat WR Inv (call_evalRefRec E _ ctx ref iter path).
Proof.
  intros Hc. apply (res_evalRefRec _ _ _ _ HE); [ext_solve|].
  intros c Hcc. apply Hiter. ext_solve.
Qed.

Lemma evalRefRec_res ctx ref path :
  ext BExt ctx0 ctx -> sat WR Inv (evalRefRec E ctx ref iter path).
Proof.
  intros Hc. unfold evalRefRec. sats;
    try (apply Hiter; assumption);
    try (apply call_evalRefRec_res; assumption);
    try (apply evalRefRule_res; assumption);
    try (apply evalRefRuleResult_res; auto using extTmp_Some).
  all: apply call_evalRefRec_res; ext_solve.
Qed.

Lemma evalRef_res ctx ref :
  ext BExt ctx0 ctx -> sat WR Inv (evalRef E ctx ref iter).
Proof. apply evalRefRec_res. Qed.

End Rules.

Section Search.
Context {St : Type} (Inv : St -> Prop).

Lemma good_from iter ctx :
  good BExt WR ctx0 Inv iter -> ext BExt ctx0 ctx ->
  forall c, ext BExt ctx c -> sat WR Inv (iter c).
Proof. intros H Hc c Hcc. apply H. ext_solve. Qed.

Lemma call_evalTermsRecArray_res iter ctx arr idx :
  ext BExt ctx0 ctx -> good BExt WR ctx0 Inv iter ->
  sat WR Inv (call_evalTermsRecArray E _ ctx arr idx iter).
Proof.
  intros Hc Hi. apply (res_evalTermsRecArray _ _ _ _ HE); [ext_solve|].
  apply good_from; assumption.
Qed.

Lemma call_evalTermsRecObject_res iter ctx obj idx :
  ext BExt ctx0 ctx -> good BExt WR ctx0 Inv iter ->
  sat WR Inv (call_evalTermsRecObject E _ ctx obj idx iter).
Proof.
  intros Hc Hi. apply (res_evalTermsRecObject _ _ _ _ HE); [ext_solve|].
  apply good_from; assumption.
Qed.

Lemma call_evalTermsRec_res iter ctx ts :
  ext BExt ctx0 ctx -> good BExt WR ctx0 Inv iter ->
  sat WR Inv (call_evalTermsRec E _ ctx iter ts).
Proof.
  intros Hc Hi. apply (res_evalTermsRec _ _ _ _ HE); [ext_solve|].
  apply good_from; assumption.
Qed.

Ltac terms_step :=
  first
    [ apply evalRef_res; [intros ? ? | assumption]
    | apply call_evalTermsRecArray_res; [assumption | intros ? ?]
    | apply call_evalTermsRecObject_res; [assumption | intros ? ?]
    | apply call_evalTermsRec_res; [assumption | intros ? ?]
    | match goal with H : good _ _ _ _ ?i |- sat _ _ (?i _) => apply H; assumption end ].

Lemma evalTermsRecArray_res iter ctx arr idx :
  ext BExt ctx0 ctx -> good BExt WR ctx0 Inv iter ->
  sat WR Inv (evalTermsRecArray E ctx arr idx iter).
Proof.
  intros Hc Hi. unfold evalTermsRecArray. sats; repeat terms_step.
Qed.

Lemma evalTermsRecObject_res iter ctx obj idx :
  ext BExt ctx0 ctx -> good BExt WR ctx0 Inv iter ->
  sat WR Inv (evalTermsRecObject E ctx obj idx iter).
Proof.
  intros Hc Hi. unfold evalTermsRecObject. cbv zeta.
  repeat (first [ sat_step | terms_step
                | apply evalTermsRecArray_res; [assumption | intros ? ?] ];
          cbv beta).
Qed.

Lemma evalTermsRec_res iter ctx ts :
  ext BExt ctx0 ctx -> good BExt WR ctx0 Inv iter ->
  sat WR Inv (evalTermsRec E ctx iter ts).
Proof.
  intros Hc Hi. unfold evalTermsRec. cbv zeta.
  repeat (first [ sat_step | terms_step
                | apply evalTermsRecArray_res; [assumption | intros ? ?]
                | apply evalTermsRecObject_res; [assumption | intros ? ?] ];
          cbv beta).
Qed.

Lemma evalTermsIndexed_res iter ctx indexed nonIndexed :
  ext BExt ctx0 ctx -> good BExt WR ctx0 Inv iter ->
  sat WR Inv (evalTermsIndexed E ctx iter indexed nonIndexed).
Proof.
  intros Hc Hi. unfold evalTermsIndexed. cbv zeta.
  apply evalTermsRec_res; [assumption|]. intros c Hcc. sats.
  apply sat_inWorld; [intros w; apply (wr_refl _ _ HW)|]. intros index. sats.
  match goal with
  | |- sat ?W ?I (?f ?deltas ?c1) =>
      assert (Hloop : forall deltas' c',
                ext BExt ctx0 c' -> sat W I (f deltas' c'));
        [ | apply Hloop; assumption ]
  end.
  induction deltas' as [|d rest IH]; intros c' Hc'; [apply sat_nil|].
  cbv zeta. apply sat_andThen.
  - apply Hi. eapply ext_trans; [eassumption|apply ext_Update].
  - apply IH. eapply ext_trans; [eassumption|apply ext_Update].
Qed.

Lemma WR_indexBuildLazy ctx ref w : WR w (fst (indexBuildLazy ctx ref w)).
Proof.
  destruct (indexBuildLazy_world ctx ref w) as [-> | [idx ->]].
  - apply (wr_refl _ _ HW).
  - apply (wr_index _ _ HW).
Qed.

Lemma evalTerms_res iter ctx :
  ext BExt ctx0 ctx -> good BExt WR ctx0 Inv iter -> sat WR Inv (evalTerms E ctx iter).
Proof.
  intros Hc Hi. unfold evalTerms. cbv zeta.
  assert (Hrec : forall ts, sat WR Inv (evalTermsRec E ctx iter ts))
    by (intros; apply evalTermsRec_res; assumption).
  assert (Hidx : forall ref tj, sat WR Inv (evalTermsIndexed E ctx iter ref tj))
    by (intros; apply evalTermsIndexed_res; assumption).
  assert (Hworld : forall ref w,
            WR w (fst (match indexBuildLazy ctx ref w with
                       | (w', Err err) => (w', Err (ErrIndexBuildFailed err ref))
                       | out => out
                       end))).
  { intros ref w. pose proof (WR_indexBuildLazy ctx ref w) as H.
    destruct (indexBuildLazy ctx ref w) as [w' [ok|err|msg|]]; exact H. }
  repeat first [ sat_step
               | apply sat_inWorld; [intros w; apply Hworld | intros ?]
               | apply Hrec | apply Hidx ].
Qed.

Lemma evalEq_res iter ctx expr :
  ext BExt ctx0 ctx -> good BExt WR ctx0 Inv iter -> sat WR Inv (evalEq E ctx expr iter).
Proof.
  intros Hc Hi. unfold evalEq. sats. apply evalEqUnify_res; assumption.
Qed.

Lemma evalExpr_res iter ctx :
  ext BExt ctx0 ctx -> good BExt WR ctx0 Inv iter -> sat WR Inv (evalExpr E ctx iter).
Proof.
  intros Hc Hi. pose proof (ext_tracer _ _ Hc Ht0) as Htr.
  unfold evalExpr, traceTry. sats; try assumption; try (apply Hi; assumption).
  unfold builtinFunctions in *.
  destruct (opalog.Equal (opalog.Var name) equalityBuiltin); [|discriminate].
  match goal with H : Some _ = Some _ |- _ => injection H as <- end.
  apply evalEq_res; [assumption|]. intros c Hcc. unfold traceSuccess.
  apply sat_andThen; [apply sat_trace; ext_solve | apply Hi; assumption].
Qed.

End Search.
End Level.

Section Proof_search.
Context (E : Evaluator) (HE : Respects BExt t WR E).
Context {St : Type} (Inv : St -> Prop).

Lemma atEnd_Step ctx c :
  Index ctx < List.length (Query ctx) ->
  forall c', ext BExt ctx c -> atEnd BExt (Step c) c' -> atEnd BExt ctx c'.
Proof.
  intros Hlt c' [(Hq & Hi & Hp & Hs & Htr) Hb] (Hq' & Hp' & Hs' & Htr' & Hi' & Hb' & Hg).
  destruct c as [q b i p st tr].
  cbn [Query Index Previous Store CtxTracer Bindings Step] in *.
  repeat split; try congruence.
  - rewrite Hi', Hq, Hi. lia.
  - eapply (bext_trans _ HB); eassumption.
Qed.

Lemma atEnd_Step_same ctx c' :
  Index ctx < List.length (Query ctx) ->
  atEnd BExt (Step ctx) c' -> atEnd BExt ctx c'.
Proof. intros Hlt. apply atEnd_Step; [assumption|apply ext_refl]. Qed.

Lemma evalContextNegated_res iter ctx :
  CtxTracer ctx = t ->
  Index ctx < List.length (Query ctx) ->
  (forall c, atEnd BExt ctx c -> sat WR Inv (iter c)) ->
  sat WR Inv (evalContextNegated E ctx iter).
Proof.
  intros Htr Hlt Hi. unfold evalContextNegated. sats.
  apply sat_capture with (InvL := fun _ : bool => True); [exact I | |].
  - apply (res_evalContext _ _ _ _ HE); [assumption|].
    intros c _ w s _. cbn. split; [apply (wr_refl _ _ HW)|exact I].
  - intros isTrue _. sats.
    apply (res_evalContext _ _ _ _ HE); [destruct ctx; assumption|].
    intros c Hc. apply Hi. apply atEnd_Step_same; assumption.
Qed.

Lemma evalContext_res iter ctx :
  CtxTracer ctx = t ->
  (forall c, atEnd BExt ctx c -> sat WR Inv (iter c)) ->
  sat WR Inv (evalContext E ctx iter).
Proof.
  intros Htr Hi. unfold evalContext, traceFinish, traceEval.
  destruct (Nat.leb (List.length (Query ctx)) (Index ctx)) eqn:Hle.
  - cbv zeta. rewrite Iter_nonGround.
    destruct (allGround (Bindings ctx)) eqn:Hg; cbn [negb]; sats; auto.
    apply Hi. apply Nat.leb_le in Hle.
    repeat split; auto; [lia | apply (bext_refl _ HB)].
  - apply Nat.leb_gt in Hle. sats; auto.
    + apply evalContextNegated_res; assumption.
    + apply (evalTerms_res E HE ctx Htr Inv); [apply ext_refl|].
      intros c Hc. apply (evalExpr_res E HE ctx Htr Inv); [assumption|].
      intros c' Hc'. cbv zeta.
      apply (res_evalContext _ _ _ _ HE).
      * pose proof (ext_tracer _ _ Hc' Htr) as Htr'. destruct c'. exact Htr'.
      * intros c'' Hc''. apply Hi. eapply atEnd_Step; eassumption.
Qed.

End Proof_search.

Lemma evaluator_respects fuel : Respects BExt t WR (evaluator fuel).
Proof.
  induction fuel as [|n IH].
  - constructor; intros; cbn; apply sat_ret.
  - constructor; intros; cbn.
    + apply evalContext_res; auto.
    + apply (evalRefRec_res _ IH ctx); auto using ext_refl.
    + apply (evalTermsRec_res _ IH ctx); auto using ext_refl.
    + apply (evalTermsRecArray_res _ IH ctx); auto using ext_refl.
    + apply (evalTermsRecObject_res _ IH ctx); auto using ext_refl.
    + apply (evalEqUnify_res _ IH ctx); auto using ext_refl.
Qed.

Lemma evalContext_respects fuel {St} (Inv : St -> Prop) iter ctx :
  CtxTracer ctx = t ->
  (forall c, atEnd BExt ctx c -> sat WR Inv (iter c)) ->
  sat WR Inv (evalContext (evaluator fuel) ctx iter).
Proof. apply evalContext_res, evaluator_respects. Qed.

End Invariants.

Lemma Extension_any : Extension anyBindings.
Proof. constructor; intros; exact I. Qed.

Lemma Evolution_any t : Evolution t anyWorld.
Proof. constructor; intros; exact I. Qed.

Lemma Get_Put_keeps h k v k' :
  Get h k' <> None -> Get (Put h k v) k' <> None.
Proof.
  induction h as [|[k0 v0] rest IH]; cbn; [congruence|].
  destruct (opalog.Equal k0 k) eqn:Hk; cbn;
    destruct (opalog.Equal k0 k'); auto; discriminate.
Qed.

Lemma fold_Put_keeps (f : Value -> Value) l : forall acc y,
  Get acc (opalog.Var y) <> None \/ Get l (opalog.Var y) <> None ->
  Get (fold_left (fun acc kv => Put acc (fst kv) (f (snd kv))) l acc)
      (opalog.Var y) <> None.
Proof.
  induction l as [|[k v0] l IH]; intros acc y H; cbn [fold_left fst snd].
  - destruct H as [H|H]; [assumption|]. cbn in H. congruence.
  - apply IH. cbn [Get] in H.
    destruct (opalog.Equal k (opalog.Var y)) eqn:Hk.
    + left. apply Equal_inv_Var in Hk. subst k. rewrite Get_Put_same. discriminate.
    + destruct H as [H|H]; [left; apply Get_Put_keeps; assumption|right; assumption].
Qed.

Lemma Extension_keepsVars : Extension keepsVars.
Proof.
  constructor; unfold keepsVars.
  - auto.
  - auto.
  - intros b ref v y H. apply Get_Put_keeps. assumption.
  - intros ctx x v c. unfold BindVar.
    destruct (opalog.Equal (opalog.Var x) v); [intros [= <-]; auto|].
    destruct (walkValue v _); [discriminate|]. intros [= <-] y H.
    destruct ctx as [q b i p st tr]. cbn [Bindings withBindings] in *.
    apply Get_Put_keeps.
    apply (fold_Put_keeps (fun old => plugValue old (Put newHashMap (opalog.Var x) v))).
    right. assumption.
  - intros b delta y H. unfold Update, Copy.
    revert b H. induction delta as [|[k v] delta IH]; intros b H; cbn; auto.
    apply IH. apply Get_Put_keeps. assumption.
Qed.

Lemma Evolution_sameTrace t : tracing t = false -> Evolution t sameTrace.
Proof.
  intros Ht. constructor; unfold sameTrace.
  - reflexivity.
  - intros a b c H1 H2. congruence.
  - intros w ev H. congruence.
  - reflexivity.
Qed.

Lemma Evolution_grows t : Evolution t grows.
Proof.
  constructor; unfold grows.
  - intros w. split; exists []; rewrite app_nil_r; reflexivity.
  - intros a b c [[i1 Hi1] [e1 He1]] [[i2 Hi2] [e2 He2]]. split.
    + exists (i1 ++ i2). rewrite Hi2, Hi1, app_assoc. reflexivity.
    + exists (e1 ++ e2). rewrite He2, He1, app_assoc. reflexivity.
  - intros w ev _. cbn. split; [exists []; rewrite app_nil_r|exists [ev]]; reflexivity.
  - intros w ref idx. cbn. split; [exists [(ref, idx)]|exists []; rewrite app_nil_r];
      reflexivity.
Qed.

Lemma sat_preserves {St} (Inv : St -> Prop) (m : M St) :
  sat anyWorld Inv m <-> preserves Inv m.
Proof.
  unfold sat, preserves, anyWorld. split.
  - intros H w s Hs. apply H. assumption.
  - intros H w s Hs. split; [exact I|apply H; assumption].
Qed.

Lemma evalContext_delivers BExt fuel ctx :
  Extension BExt ->
  delivers (atEnd BExt ctx) (fun St => @evalContext (evaluator fuel) St ctx).
Proof.
  intros HB St Inv iter Hiter. apply sat_preserves.
  apply (evalContext_respects BExt (CtxTracer ctx) anyWorld HB (Evolution_any _));
    [reflexivity|].
  intros c Hc. apply sat_preserves. apply Hiter. assumption.
Qed.

(** X12.  Every context [evalContext] hands to its iterator is at the end of the
    body it was started on: it has the query, previous context, store and
    tracer of the starting context, and its index is the length of the
    query (or the starting index if that was already past the end).  Stated
    for every iterator: a property of the captured variables that the
    iterator keeps on such contexts is kept by the whole run. *)
Theorem evalContext_frame (fuel : nat) (ctx : TopDownContext) :
  delivers (frameAtEnd ctx) (fun St => @evalContext (evaluator fuel) St ctx).
Proof.
  intros St Inv iter Hiter.
  apply (evalContext_delivers anyBindings fuel ctx Extension_any).
  intros c (Hq & Hp & Hs & Ht & Hi & _). apply Hiter. repeat split; assumption.
Qed.

Lemma evalContext_frame_witness :
  Forall (frameAtEnd contextNested)
         (snd (fst (evalContext (evaluator 30) contextNested record emptyWorld []))).
Proof.
  apply (evalContext_frame 30 contextNested _ (Forall (frameAtEnd contextNested))
           record).
  - intros c Hc w l Hl. cbn. apply Forall_app. split; [assumption|].
    constructor; [assumption|constructor].
  - constructor.
Defined.

(** X13.  Evaluation never unbinds a variable: in every context [evalContext]
    hands to its iterator, each variable that was bound in the starting
    context is bound, to a ground value. *)
Theorem evalContext_keeps_bound (fuel : nat) (ctx : TopDownContext) :
  delivers
    (fun c => forall y, Get (Bindings ctx) (opalog.Var y) <> None ->
                exists v, Get (Bindings c) (opalog.Var y) = Some v
                          /\ opalog.IsGround v = true)
    (fun St => @evalContext (evaluator fuel) St ctx).
Proof.
  intros St Inv iter Hiter.
  apply (evalContext_delivers keepsVars fuel ctx Extension_keepsVars).
  intros c (_ & _ & _ & _ & _ & Hb & Hg). apply Hiter. intros y Hy.
  specialize (Hb y Hy). destruct (Get (Bindings c) (opalog.Var y)) as [v|] eqn:Hv;
    [|contradiction].
  exists v. split; [reflexivity|]. eapply allGround_Get; eassumption.
Qed.

Lemma evalContext_keeps_bound_witness :
  Forall (fun c => exists v, Get (Bindings c) (opalog.Var "x") = Some v
                             /\ opalog.IsGround v = true)
         (snd (fst (evalContext (evaluator 30) contextXY record emptyWorld []))).
Proof.
  apply (evalContext_keeps_bound 30 contextXY _
           (Forall (fun c => exists v, Get (Bindings c) (opalog.Var "x") = Some v
                                       /\ opalog.IsGround v = true))
           record).
  - intros c Hc w l Hl. cbn. apply Forall_app. split; [assumption|].
    constructor; [|constructor]. apply Hc. discriminate.
  - constructor.
Defined.

(** ** The trace and the indices of a query *)

Lemma query_world {St} (m : M St) s0 k w :
  fst (query m s0 k w) = fst (fst (m w s0)).
Proof. unfold query. destruct (m w s0) as [[w' s] [[]| | |]]; reflexivity. Qed.

Section QueryWorld.
Context (t : option Tracer) (WR : World -> World -> Prop) (HW : Evolution t WR).
Context (fuel : nat) (params : TopDownQueryParams) (Ht : PTracer params = t).

Lemma TopDown_world {St} (iter : TopDownIterator St) rule :
  (forall c, sat WR (fun _ => True) (iter c)) ->
  sat WR (fun _ => True)
      (TopDown (evaluator fuel)
         (mkContext (opalog.RBody rule) newHashMap 0 None (PStore params)
                    (PTracer params)) iter).
Proof.
  intros Hiter. unfold TopDown.
  apply (evalContext_respects anyBindings t WR Extension_any HW); [exact Ht|].
  intros c _. apply Hiter.
Qed.

Lemma sat_pure {St} (f : St -> St) :
  sat WR (fun _ : St => True) (fun w s => (w, f s, Ok tt)).
Proof. intros w s _. cbn. split; [apply (wr_refl _ _ HW)|exact I]. Qed.

Lemma topDownQueryCompleteDoc_world rules w :
  WR w (fst (topDownQueryCompleteDoc (evaluator fuel) params rules w)).
Proof.
  unfold topDownQueryCompleteDoc. destruct rules as [|rule others];
    [apply (wr_refl _ _ HW)|].
  destruct (Nat.ltb 1 _); [apply (wr_refl _ _ HW)|].
  rewrite query_world. apply TopDown_world; [|exact I].
  intros c. apply (sat_pure (fun _ => true)).
Qed.

Lemma topDownQueryPartialObjectDoc_world rules w :
  WR w (fst (topDownQueryPartialObjectDoc (evaluator fuel) params rules w)).
Proof.
  unfold topDownQueryPartialObjectDoc. rewrite query_world.
  apply (sat_forEach t WR HW (fun _ => True)); [|exact I]. intros rule _.
  apply (sat_withRes t WR HW). intros key _.
  apply (sat_withRes t WR HW). intros value _.
  apply TopDown_world. intros c.
  apply (sat_withRes t WR HW). intros k _.
  destruct k; try apply (sat_ret t WR HW).
  apply (sat_withRes t WR HW). intros v _.
  apply (sat_pure (fun result => mapSet result s v)).
Qed.

Lemma topDownQueryPartialSetDoc_world rules w :
  WR w (fst (topDownQueryPartialSetDoc (evaluator fuel) params rules w)).
Proof.
  unfold topDownQueryPartialSetDoc. rewrite query_world.
  apply (sat_forEach t WR HW (fun _ => True)); [|exact I]. intros rule _.
  apply (sat_withRes t WR HW). intros key _.
  apply TopDown_world. intros c.
  apply (sat_withRes t WR HW). intros v _.
  apply (sat_pure (fun result => result ++ [v])).
Qed.

Lemma TopDownQuery_world w :
  WR w (fst (TopDownQuery (evaluator fuel) params w)).
Proof.
  unfold TopDownQuery.
  destruct (Path params) as [|p0 ps]; [apply (wr_refl _ _ HW)|].
  destruct (lookup _ _) as [node| | |]; try apply (wr_refl _ _ HW).
  destruct node; try apply (wr_refl _ _ HW).
  destruct rs as [|rule0 rest]; [apply (wr_refl _ _ HW)|].
  destruct (opalog.RuleDocKind rule0);
    auto using topDownQueryCompleteDoc_world, topDownQueryPartialObjectDoc_world,
               topDownQueryPartialSetDoc_world.
Qed.

End QueryWorld.

(** X14.  When the query has no tracer, or one that is not enabled, [TopDownQuery]
    leaves the trace as it was, whatever it returns. *)
Theorem TopDownQuery_without_tracer (fuel : nat) (params : TopDownQueryParams)
  (w : World) :
  tracing (PTracer params) = false ->
  TraceLog (fst (TopDownQuery (evaluator fuel) params w)) = TraceLog w.
Proof.
  intros Ht.
  apply (TopDownQuery_world (PTracer params) sameTrace
           (Evolution_sameTrace _ Ht) fuel params eq_refl w).
Qed.

Lemma TopDownQuery_without_tracer_witness :
  TraceLog (fst (TopDownQuery (evaluator 20) (paramsP storeOneTwice) emptyWorld))
  = TraceLog emptyWorld.
Proof. apply TopDownQuery_without_tracer. reflexivity. Defined.

Lemma find_app_Some {A} (f : A -> bool) l l' x :
  find f l = Some x -> find f (l ++ l') = Some x.
Proof.
  induction l as [|y l IH]; cbn; [discriminate|]. destruct (f y); auto.
Qed.

(** X15.  [TopDownQuery] only adds to the indices of the store and to the trace:
    the indices and the trace it leaves start with those it found, and a
    reference that had an index still has that same index. *)
Theorem TopDownQuery_keeps_indices (fuel : nat) (params : TopDownQueryParams)
  (w : World) :
  let w' := fst (TopDownQuery (evaluator fuel) params w) in
  (exists added, Indices w' = Indices w ++ added)
  /\ (exists events, TraceLog w' = TraceLog w ++ events)
  /\ forall ref idx, indicesGet w ref = Some idx -> indicesGet w' ref = Some idx.
Proof.
  cbv zeta.
  destruct (TopDownQuery_world (PTracer params) grows (Evolution_grows _)
              fuel params eq_refl w) as [[added Hadd] Hev].
  split; [exists added; assumption|]. split; [assumption|].
  intros ref idx. unfold indicesGet. rewrite Hadd.
  destruct (find _ (Indices w)) as [e|] eqn:Hf; [|discriminate].
  rewrite (find_app_Some _ _ _ _ Hf). auto.
Qed.

(** ** Elimination of bound variables *)

Lemma existsb_false {A} (f : A -> bool) l :
  existsb f l = false <-> Forall (fun a => f a = false) l.
Proof.
  induction l as [|a l IH]; cbn.
  - split; auto.
  - rewrite orb_false_iff, IH. split.
    + intros [H1 H2]. constructor; assumption.
    + intros H. inversion H; auto.
Qed.

Lemma occursIn_mentions x v : occursIn x v = false -> mentions x v = false.
Proof.
  unfold occursIn.
  induction v as [ | c | n | s | y | ts H | ts H | ps H ] using Value_induction;
    try reflexivity.
  - cbn. destruct (String.eqb x y); congruence.
  - cbn [walkValue mentions]. destruct ts as [|[h hl] tl]; [reflexivity|].
    cbn [existsb]. rewrite orb_false_iff. intros [_ Htl].
    inversion H as [|? ? _ Htl']; subst.
    apply existsb_false. apply existsb_false in Htl.
    rewrite Forall_forall in *. intros [y l] Hin.
    apply (Htl' _ Hin). apply (Htl _ Hin).
  - cbn [walkValue mentions]. intros Hts.
    apply existsb_false. apply existsb_false in Hts.
    rewrite Forall_forall in *. intros [y l] Hin.
    apply (H _ Hin). apply (Hts _ Hin).
  - cbn [walkValue mentions]. intros Hps.
    apply existsb_false. apply existsb_false in Hps.
    rewrite Forall_forall in *. intros [[k kl] [y yl]] Hin.
    specialize (Hps _ Hin). cbn in Hps. apply orb_false_iff in Hps.
    destruct (H _ Hin) as [Hk Hy]. cbn [fst snd TValue] in *.
    rewrite Hk, Hy; tauto.
Qed.

Lemma IsGround_mentions x v : opalog.IsGround v = true -> mentions x v = false.
Proof.
  induction v as [ | c | n | s | y | ts H | ts H | ps H ] using Value_induction;
    try reflexivity.
  - discriminate.
  - cbn [opalog.IsGround mentions]. destruct ts as [|[h hl] tl]; [reflexivity|].
    intros Hg. inversion H as [|? ? _ Htl]; subst.
    apply existsb_false. rewrite forallb_forall in Hg.
    rewrite Forall_forall in *. intros [y l] Hin.
    apply (Htl _ Hin). apply (Hg _ Hin).
  - cbn [opalog.IsGround mentions]. intros Hg.
    apply existsb_false. rewrite forallb_forall in Hg.
    rewrite Forall_forall in *. intros [y l] Hin.
    apply (H _ Hin). apply (Hg _ Hin).
  - cbn [opalog.IsGround mentions]. intros Hg.
    apply existsb_false. rewrite forallb_forall in Hg.
    rewrite Forall_forall in *. intros [[k kl] [y yl]] Hin.
    specialize (Hg _ Hin). cbn in Hg. apply andb_prop in Hg.
    destruct (H _ Hin) as [Hk Hy]. cbn [fst snd TValue] in *.
    rewrite Hk, Hy; tauto.
Qed.

Lemma mentions_plugTerm x v t :
  mentions x (plugValue (TValue t) [(opalog.Var x, v)]) = false ->
  mentions x (TValue (plugTerm t [(opalog.Var x, v)])) = false.
Proof. rewrite TValue_plugTerm. auto. Qed.

Lemma mentions_plugValue x v old :
  mentions x v = false ->
  mentions x (plugValue old [(opalog.Var x, v)]) = false.
Proof.
  intros Hv.
  induction old as [ | c | n | s | y | ts H | ts H | ps H ] using Value_induction;
    try reflexivity.
  - cbn [plugValue Get]. rewrite Equal_Var_Var.
    destruct (String.eqb x y) eqn:Hxy; [assumption|]. cbn. assumption.
  - cbn [plugValue Get]. cbn [opalog.Equal].
    destruct (opalog.IsGround (opalog.Ref ts)) eqn:Hg;
      [apply IsGround_mentions; assumption|].
    destruct ts as [|head tl]; [reflexivity|].
    cbn [mentions]. inversion H as [|? ? _ Htl]; subst.
    apply existsb_false. apply Forall_map.
    rewrite Forall_forall in *. intros t Hin.
    pose proof (mentions_plugTerm x v t (Htl _ Hin)) as Ht.
    destruct (plugTerm t [(opalog.Var x, v)]). exact Ht.
  - cbn [plugValue mentions]. apply existsb_false. apply Forall_map.
    rewrite Forall_forall in *. intros t Hin.
    pose proof (mentions_plugTerm x v t (H _ Hin)) as Ht.
    destruct (plugTerm t [(opalog.Var x, v)]). exact Ht.
  - cbn [plugValue mentions]. apply existsb_false. apply Forall_map.
    rewrite Forall_forall in *. intros [k y] Hin.
    destruct (H _ Hin) as [Hk Hy]. cbn [fst snd] in *.
    pose proof (mentions_plugTerm x v k Hk) as Hk'.
    pose proof (mentions_plugTerm x v y Hy) as Hy'.
    destruct (plugTerm k [(opalog.Var x, v)]), (plugTerm y [(opalog.Var x, v)]).
    cbn [TValue] in *. rewrite Hk', Hy'. reflexivity.
Qed.

(** X16.  After [BindVar] has bound [x] to a value other than [x] itself, [x]
    is eliminated: neither the value bound to [x] nor any other value bound
    in the new context mentions [x] (outside the head of a reference, which
    names a document). *)
Theorem BindVar_eliminates ctx x v c :
  NoDup (varKeys (Bindings ctx)) ->
  opalog.Equal (opalog.Var x) v = false ->
  BindVar ctx x v = Some c ->
  mentions x v = false
  /\ forall y bound,
       Get (Bindings c) (opalog.Var y) = Some bound -> mentions x bound = false.
Proof.
  intros Hnd Hne. unfold BindVar. rewrite Hne.
  destruct (walkValue v _) eqn:Hocc; [discriminate|].
  intros [= <-]. apply occursIn_mentions in Hocc.
  split; [assumption|]. intros y bound.
  destruct ctx as [q b i p st tr]. cbn [Bindings withBindings] in *.
  destruct (String.eqb x y) eqn:Hxy.
  - apply String.eqb_eq in Hxy. subst y. rewrite Get_Put_same.
    intros [= <-]. assumption.
  - apply String.eqb_neq in Hxy. rewrite Get_Put_other_var
      by (rewrite Equal_Var_Var; apply String.eqb_neq; assumption).
    rewrite (fold_Put_Get (fun old => plugValue old [(opalog.Var x, v)]));
      [|assumption|intros; reflexivity].
    cbn [Get newHashMap]. destruct (Get b (opalog.Var y)) as [old|]; [|discriminate].
    intros [= <-]. apply mentions_plugValue. assumption.
Qed.

Lemma BindVar_eliminates_witness :
  mentions "x" (opalog.Array [term (opalog.Number 1)]) = false.
Proof.
  destruct (BindVar_eliminates pendingContext "x" (opalog.Number 1) _
              ltac:(repeat constructor; intros [])
              eq_refl eq_refl) as [_ H].
  apply (H "y"). reflexivity.
Defined.

(** ** Unification of plain values and of references *)

Lemma plugValue_plain v b : isPlain v = true -> plugValue v b = v.
Proof.
  induction v as [ | c | n | s | y | ts H | ts H | ps H ] using Value_induction;
    try reflexivity; try discriminate.
  cbn [isPlain plugValue]. intros Hp. f_equal. apply map_fixed.
  rewrite forallb_forall in Hp. rewrite Forall_forall in *.
  intros [y l] Hin. specialize (Hp _ Hin). specialize (H _ Hin Hp).
  cbn [TValue] in H. destruct y; try discriminate; cbn [plugTerm];
    try reflexivity. rewrite H. reflexivity.
Qed.

Lemma termSliceEqual_length xs ys :
  termSliceEqual xs ys = true -> List.length xs = List.length ys.
Proof.
  revert ys. induction xs as [|x xs IH]; intros [|y ys]; cbn; try discriminate; auto.
  intros H. apply andb_prop in H. f_equal. apply IH. apply H.
Qed.

Lemma evalEqUnify_plain_arrays (E : Evaluator) {St} (iter : TopDownIterator St)
  ctx w s ts : forall us,
  Forall (fun t => forall b,
            isPlain b = true ->
            forall L (it : TopDownIterator L) w l,
            call_evalEqUnify E L ctx (TValue t) b it w l
            = if opalog.Equal (TValue t) b then it ctx w l else (w, l, Ok tt)) ts ->
  forallb (fun t => isPlain (TValue t)) us = true ->
  (fix loop (ab : list (Term * Term)) (ctx : TopDownContext) : M St :=
     match ab with
     | [] => iter ctx
     | (ai, bi) :: rest =>
         capture None
           (call_evalEqUnify E _ ctx (TValue ai) (TValue bi) setTmp)
           (fun tmp =>
              match tmp with
              | None => nil
              | Some ctx' => loop rest ctx'
              end)
     end) (combine ts us) ctx w s
  = if forallb (fun ab => opalog.TermEqual (fst ab) (snd ab)) (combine ts us)
    then iter ctx w s else (w, s, Ok tt).
Proof.
  induction ts as [|t ts IH]; intros us Hts Hus; [reflexivity|].
  destruct us as [|u us]; [reflexivity|].
  inversion Hts as [|? ? Ht Hts']; subst.
  cbn in Hus. apply andb_prop in Hus. destruct Hus as [Hu Hus].
  cbn [combine forallb fst snd]. unfold capture.
  rewrite (Ht (TValue u) Hu). unfold opalog.TermEqual at 1.
  destruct (opalog.Equal (TValue t) (TValue u)); cbn; [|reflexivity].
  apply IH; assumption.
Qed.

Lemma termSliceEqual_combine xs ys :
  List.length xs = List.length ys ->
  termSliceEqual xs ys
  = forallb (fun ab => opalog.TermEqual (fst ab) (snd ab)) (combine xs ys).
Proof.
  revert ys. induction xs as [|x xs IH]; intros [|y ys]; cbn; try discriminate; auto.
  intros [= H]. rewrite IH by assumption. reflexivity.
Qed.

Lemma evalEqUnify_scalar (E : Evaluator) {St} (ctx : TopDownContext)
  (a b : Value) (iter : TopDownIterator St) (w : World) (s : St) :
  isScalar a = true -> isPlain b = true ->
  evalEqUnify E ctx a b iter w s
  = if opalog.Equal a b then iter ctx w s else (w, s, Ok tt).
Proof.
  destruct a; try discriminate; destruct b; try discriminate; intros _ _;
    cbn; try reflexivity.
  - destruct (Bool.eqb b0 b); reflexivity.
  - destruct (Z.eqb n n0); reflexivity.
  - destruct (String.eqb s0 s1); reflexivity.
Qed.

(** X17.  On plain values (scalars and arrays of plain values, with no variable,
    reference or object inside) [evalEqUnify] is the equality test: when
    the two values are equal it calls the iterator once on the unchanged
    context and returns its result, otherwise it returns nil; provided the
    depth allowed covers the nesting of the first value. *)
Theorem evalEqUnify_plain (fuel : nat) (a b : Value) :
  isPlain a = true -> isPlain b = true -> depth a <= fuel ->
  forall St (iter : TopDownIterator St) ctx w s,
    evalEqUnify (evaluator fuel) ctx a b iter w s
    = if opalog.Equal a b then iter ctx w s else (w, s, Ok tt).
Proof.
  revert fuel b.
  induction a as [ | c | n | s0 | y | ts H | ts H | ps H ] using Value_induction;
    intros fuel b Ha Hb Hd St iter ctx w s; try discriminate.
  1-4: apply evalEqUnify_scalar; auto.
  unfold evalEqUnify. cbv zeta.
  rewrite (plugValue_plain _ _ Ha), (plugValue_plain _ _ Hb).
  destruct b as [ | c | n | s0 | y | us | us | ps ]; try discriminate;
    try reflexivity.
  cbn [evalEqUnifyArray]. unfold evalEqUnifyArrays. rewrite Equal_Array.
  destruct (Nat.eqb (List.length ts) (List.length us)) eqn:Hlen; cbn [negb].
  - apply Nat.eqb_eq in Hlen. rewrite (termSliceEqual_combine _ _ Hlen).
    destruct fuel as [|n]; [cbn in Hd; lia|].
    apply evalEqUnify_plain_arrays.
    + cbn [isPlain] in Ha. rewrite forallb_forall in Ha.
      cbn [depth] in Hd. apply le_S_n in Hd.
      clear - H Ha Hd. induction ts as [|[x l] ts IHts]; constructor.
      * inversion H as [|? ? Hx _]; subst. cbn [TValue] in *.
        intros b Hb L it w0 l0. cbn [call_evalEqUnify evaluator].
        apply Hx; auto.
        -- apply (Ha (opalog.mkTerm x l)). left. reflexivity.
        -- cbn in Hd. lia.
      * inversion H; subst. apply IHts; auto.
        -- intros t Hin. apply Ha. right. assumption.
        -- cbn in Hd. lia.
    + cbn [isPlain] in Hb. rewrite forallb_forall in *.
      intros [u l] Hin. apply (Hb _ Hin).
  - destruct (termSliceEqual ts us) eqn:Heq; [|reflexivity].
    apply termSliceEqual_length in Heq. apply Nat.eqb_neq in Hlen. contradiction.
Qed.

Lemma evalEqUnify_plain_witness :
  evalEqUnify (evaluator 2) emptyContext nestedPlain nestedPlain
              record emptyWorld []
  = (emptyWorld, [emptyContext], Ok tt).
Proof.
  rewrite (evalEqUnify_plain 2 nestedPlain nestedPlain eq_refl eq_refl
             ltac:(cbn; lia)).
  reflexivity.
Defined.

(** X18.  Unifying an array or an object with a reference looks the plugged
    reference up in the store first; when that lookup fails, the error is
    returned as it is, not-found included, in either order of the operands,
    and the iterator is not called. *)
Theorem unify_composite_with_reference (E : Evaluator) {St}
  (ctx : TopDownContext) (comp : Value) (ref plugged : list Term) (err : Error)
  (iter : TopDownIterator St) (w : World) (s : St) :
  isComposite comp = true ->
  plugValue (opalog.Ref ref) (Bindings ctx) = opalog.Ref plugged ->
  lookup (Store ctx) plugged = Err err ->
  evalEqUnify E ctx comp (opalog.Ref ref) iter w s = (w, s, Err err)
  /\ evalEqUnify E ctx (opalog.Ref ref) comp iter w s = (w, s, Err err).
Proof.
  intros Hc Hp Hl. unfold evalEqUnify. cbv zeta. rewrite Hp.
  destruct comp; try discriminate; cbn [plugValue evalEqUnifyArray evalEqUnifyObject];
    unfold evalEqUnifyArrayRef, evalEqUnifyObjectRef; rewrite Hl; split; reflexivity.
Qed.

Lemma unify_composite_with_reference_witness :
  evalEqUnify (evaluator 1) emptyContext
              (opalog.Array [term (opalog.Number 1)])
              (opalog.Ref [term (opalog.Var "a")]) record emptyWorld []
  = (emptyWorld, [], Err (StorageError StorageNotFoundErr "not found")).
Proof.
  apply (unify_composite_with_reference (evaluator 1) emptyContext
           (opalog.Array [term (opalog.Number 1)])
           [term (opalog.Var "a")] [term (opalog.Var "a")]);
    reflexivity.
Defined.

(** ** Expressions that are a bare reference *)

Lemma ground_constants (sels : list Term) :
  forallb (fun t => match t with opalog.mkTerm x _ => opalog.IsGround x end) sels
    = true ->
  forallb isConstant sels = true.
Proof.
  rewrite !forallb_forall. intros H [v l] Hin. specialize (H _ Hin).
  unfold isConstant. cbn. destruct v; try reflexivity. discriminate.
Qed.

Lemma trace_off {St} ctx ev (w : World) (s : St) :
  CtxTracer ctx = None -> trace ctx ev w s = (w, s, Ok tt).
Proof. intros H. unfold trace. rewrite H. reflexivity. Qed.

(** X19.  A body expression that is nothing but a ground reference to an
    existing base document is not accepted as a test: [evalContext] finds
    the document and then fails with the implicit-cast error for that
    reference, without calling the iterator. *)
Theorem bare_base_reference (fuel : nat) {St} (ctx : TopDownContext)
  (x : string) (loc tloc : option opalog.Location) (sels : list Term)
  (node found : Native) (iter : TopDownIterator St) (w : World) (s : St) :
  let ref := opalog.mkTerm (opalog.Var x) loc :: sels in
  CtxTracer ctx = None ->
  Current ctx
    = Ok (opalog.mkExpr false
            (opalog.SingleTerm (opalog.mkTerm (opalog.Ref ref) tloc))) ->
  Get (Bindings ctx) (opalog.Var x) = None ->
  Get (Bindings ctx) (opalog.Ref ref) = None ->
  opalog.IsGround (opalog.Ref ref) = true ->
  lookup (Store ctx) [opalog.mkTerm (opalog.Var x) loc] = Ok node ->
  isRules node = false ->
  lookup (Store ctx) ref = Ok found ->
  List.length sels < fuel ->
  evalContext (evaluator fuel) ctx iter w s
  = (w, s, Err (ErrImplicitCast (opalog.Ref ref))).
Proof.
  cbv zeta. intros Htr Hcur Hx Href Hg Hnode Hrules Hfound Hlen.
  assert (Hidx : Nat.leb (List.length (Query ctx)) (Index ctx) = false).
  { apply Nat.leb_gt. apply nth_error_Some. unfold Current in Hcur.
    destruct (nth_error (Query ctx) (Index ctx)); [discriminate|discriminate]. }
  unfold evalContext. rewrite Hidx.
  unfold traceEval, andThen. rewrite Hcur. cbn [withRes].
  rewrite trace_off by assumption. cbn [opalog.Negated].
  unfold evalTerms. rewrite Hcur. cbn [withRes opalog.Terms].
  cbn [indexAvailable termAt nth_error res_bind TValue opalog.Equal
       equalityBuiltin negb withRes].
  cbn [evalTermsRec TValue].
  rewrite (evalRef_base fuel ctx x loc sels _ node Hx Hnode Hrules
             (ground_constants _ Hg) Hlen).
  rewrite Hfound. cbn [whenFound].
  destruct fuel as [|n]; [lia|].
  cbn [call_evalTermsRec evaluator evalTermsRec].
  unfold evalExpr. rewrite Hcur. cbn [withRes plugExpr opalog.Terms opalog.Negated].
  unfold traceTry, andThen. rewrite trace_off by assumption.
  cbn [opalog.Terms plugTerm TValue plugValue]. rewrite Href, Hg. reflexivity.
Qed.

Lemma bare_base_reference_witness :
  evalContext (evaluator 3) contextBare record emptyWorld []
  = (emptyWorld, [],
     Err (ErrImplicitCast (opalog.Ref (term (opalog.Var "a") :: selectors00)))).
Proof.
  apply (bare_base_reference 3 contextBare "a" None None selectors00
           (NArray [NArray [NNumber 1]; NNumber 2]) (NNumber 1));
    [reflexivity | reflexivity | reflexivity | reflexivity | reflexivity
    | reflexivity | reflexivity | reflexivity | cbn; lia].
Defined.

(** ** Expressions without references *)

Lemma size_pos v : 1 <= size v.
Proof. destruct v; cbn; lia. Qed.

Lemma size_Array ts : size (opalog.Array ts) = S (termsSize ts).
Proof.
  cbn [size]. f_equal. unfold termsSize.
  induction ts as [|[y l] ts IH]; cbn; auto.
Qed.

Lemma size_Object ps : size (opalog.Object ps) = S (pairsSize ps).
Proof.
  cbn [size]. f_equal. unfold pairsSize.
  induction ps as [|[[k kl] [y yl]] ps IH]; cbn; auto.
Qed.

Lemma refFree_Array ts : refFree (opalog.Array ts) = termsRefFree ts.
Proof.
  cbn [refFree]. unfold termsRefFree.
  induction ts as [|[y l] ts IH]; cbn; auto. rewrite IH. reflexivity.
Qed.

Lemma refFree_Object ps : refFree (opalog.Object ps) = pairsRefFree ps.
Proof.
  cbn [refFree]. unfold pairsRefFree.
  induction ps as [|[[k kl] [y yl]] ps IH]; cbn; auto. rewrite IH. reflexivity.
Qed.

Lemma skipn_nth_error {A} (l : list A) i :
  skipn i l = match nth_error l i with
              | Some x => x :: skipn (S i) l
              | None => []
              end.
Proof.
  revert i. induction l as [|x l IH]; intros [|i]; cbn; auto.
Qed.

Lemma terms_idle n : TermsIdle n.
Proof.
  induction n as [|n (IHA & IHO & IHT)].
  - repeat split.
    + intros arr idx ctx St K _ Hs. unfold evalTermsRecArray.
      rewrite skipn_nth_error in Hs. destruct (nth_error arr idx) as [t|]; auto.
      cbn in Hs. pose proof (size_pos (TValue t)). lia.
    + intros obj idx ctx St K _ Hs. unfold evalTermsRecObject.
      rewrite skipn_nth_error in Hs. destruct (nth_error obj idx) as [[k x]|]; auto.
      cbn in Hs. pose proof (size_pos (TValue k)). lia.
    + intros [|t ts] ctx St K _ Hs; [reflexivity|].
      cbn in Hs. pose proof (size_pos (TValue t)). lia.
  - assert (HA : forall arr idx ctx St (K : TopDownIterator St),
              termsRefFree (skipn idx arr) = true ->
              termsSize (skipn idx arr) <= S n ->
              evalTermsRecArray (evaluator (S n)) ctx arr idx K = K ctx).
    { intros arr idx ctx St K Hf Hs. unfold evalTermsRecArray.
      rewrite skipn_nth_error in Hf, Hs.
      destruct (nth_error arr idx) as [t|]; [|reflexivity].
      cbn [termsRefFree forallb] in Hf. apply andb_prop in Hf.
      destruct Hf as [Ht Hrest].
      cbn [termsSize fold_right] in Hs. fold (termsSize (skipn (S idx) arr)) in Hs.
      pose proof (size_pos (TValue t)) as Hpos.
      rewrite Nat.add_1_r. cbn [call_evalTermsRecArray call_evalTermsRecObject evaluator].
      destruct (TValue t) eqn:Hv; try discriminate;
        try (apply IHA; [assumption|lia]).
      - rewrite size_Array in Hs. rewrite refFree_Array in Ht.
        rewrite IHA; [apply IHA; [assumption|lia] | assumption | cbn [skipn]; lia].
      - rewrite size_Object in Hs. rewrite refFree_Object in Ht.
        rewrite IHO; [apply IHA; [assumption|lia] | assumption | cbn [skipn]; lia]. }
    assert (HO : forall obj idx ctx St (K : TopDownIterator St),
              pairsRefFree (skipn idx obj) = true ->
              pairsSize (skipn idx obj) <= S n ->
              evalTermsRecObject (evaluator (S n)) ctx obj idx K = K ctx).
    { intros obj idx ctx St K Hf Hs. unfold evalTermsRecObject.
      rewrite skipn_nth_error in Hf, Hs.
      destruct (nth_error obj idx) as [[k x]|]; [|reflexivity].
      cbn [pairsRefFree forallb fst snd] in Hf. apply andb_prop in Hf.
      destruct Hf as [Hkx Hrest]. apply andb_prop in Hkx. destruct Hkx as [Hk Hx].
      cbn [pairsSize fold_right fst snd] in Hs.
      fold (pairsSize (skipn (S idx) obj)) in Hs.
      pose proof (size_pos (TValue k)) as Hpk.
      pose proof (size_pos (TValue x)) as Hpx.
      rewrite Nat.add_1_r. cbv zeta.
      cbn [call_evalTermsRecArray call_evalTermsRecObject evaluator].
      assert (Hvalue :
        match TValue x with
        | opalog.Ref v =>
            evalRef (evaluator (S n)) ctx v
              (fun ctx0 => @evalTermsRecObject (evaluator n) St ctx0 obj (S idx) K)
        | opalog.Array v =>
            evalTermsRecArray (evaluator (S n)) ctx v 0
              (fun ctx0 => @evalTermsRecObject (evaluator n) St ctx0 obj (S idx) K)
        | opalog.Object v =>
            @evalTermsRecObject (evaluator n) St ctx v 0
              (fun ctx0 => @evalTermsRecObject (evaluator n) St ctx0 obj (S idx) K)
        | _ => @evalTermsRecObject (evaluator n) St ctx obj (S idx) K
        end = K ctx).
      { destruct (TValue x) eqn:Hv; try discriminate;
          try (apply IHO; [assumption|lia]).
        - rewrite size_Array in Hs. rewrite refFree_Array in Hx.
          rewrite HA; [apply IHO; [assumption|lia] | assumption | cbn [skipn]; lia].
        - rewrite size_Object in Hs. rewrite refFree_Object in Hx.
          rewrite IHO; [apply IHO; [assumption|lia] | assumption | cbn [skipn]; lia]. }
      destruct (TValue k); try discriminate; exact Hvalue. }
    repeat split; [exact HA | exact HO |].
    intros [|t ts] ctx St K Hf Hs; [reflexivity|].
    cbn [termsRefFree forallb] in Hf. apply andb_prop in Hf. destruct Hf as [Ht Hrest].
    cbn [termsSize fold_right] in Hs. fold (termsSize ts) in Hs.
    pose proof (size_pos (TValue t)) as Hpos.
    cbn [evalTermsRec]. cbn [call_evalTermsRec evaluator].
    destruct (TValue t) eqn:Hv; try discriminate;
      try (apply IHT; [assumption|lia]).
    + rewrite size_Array in Hs. rewrite refFree_Array in Ht.
      rewrite HA; [apply IHT; [assumption|lia] | assumption | cbn [skipn]; lia].
    + rewrite size_Object in Hs. rewrite refFree_Object in Ht.
      rewrite HO; [apply IHT; [assumption|lia] | assumption | cbn [skipn]; lia].
Qed.

Lemma termAt_refFree ts i t :
  termsRefFree ts = true -> termAt ts i = Ok t -> isRef (TValue t) = false.
Proof.
  unfold termAt. intros Hf. destruct (nth_error ts i) as [t'|] eqn:Hn; [|discriminate].
  intros [= <-]. apply nth_error_In in Hn.
  unfold termsRefFree in Hf. rewrite forallb_forall in Hf. specialize (Hf _ Hn).
  destruct (TValue t'); try reflexivity. discriminate.
Qed.

Lemma evalTerms_idle (fuel : nat) {St} (ctx : TopDownContext)
  (expr : opalog.Expr) (iter : TopDownIterator St) (available : bool) :
  Current ctx = Ok expr ->
  termsRefFree (exprTerms expr) = true ->
  termsSize (exprTerms expr) <= fuel ->
  indexAvailable ctx (exprTerms expr) = Ok available ->
  evalTerms (evaluator fuel) ctx iter = iter ctx.
Proof.
  intros Hcur Hf Hs Hav. unfold evalTerms. rewrite Hcur. cbn [withRes].
  fold (exprTerms expr). cbv zeta. rewrite Hav. cbn [withRes].
  pose proof (proj2 (proj2 (terms_idle fuel)) (exprTerms expr) ctx St iter Hf Hs)
    as Hrec.
  destruct available; [|exact Hrec].
  destruct (termAt (exprTerms expr) 1) as [t1| | |] eqn:H1; cbn [withRes].
  - pose proof (termAt_refFree _ _ _ Hf H1) as Hr1.
    destruct (TValue t1); try discriminate;
      (destruct (termAt (exprTerms expr) 2) as [t2| | |] eqn:H2; cbn [withRes];
       [ pose proof (termAt_refFree _ _ _ Hf H2) as Hr2;
         destruct (TValue t2); try discriminate; exact Hrec
       | unfold indexAvailable in Hav; rewrite H2 in Hav;
         destruct (termAt (exprTerms expr) 0); cbn in Hav; try discriminate;
         destruct (negb _); cbn in Hav; try discriminate;
         rewrite H1 in Hav; discriminate .. ]).
  - unfold indexAvailable in Hav. rewrite H1 in Hav.
    destruct (termAt (exprTerms expr) 0); cbn in Hav; try discriminate.
    destruct (negb _); discriminate.
  - unfold indexAvailable in Hav. rewrite H1 in Hav.
    destruct (termAt (exprTerms expr) 0); cbn in Hav; try discriminate.
    destruct (negb _); discriminate.
  - unfold indexAvailable in Hav. rewrite H1 in Hav.
    destruct (termAt (exprTerms expr) 0); cbn in Hav; try discriminate.
    destruct (negb _); discriminate.
Qed.

(** X20.  When the current expression holds no reference, [evalTerms] has
    nothing to enumerate: it calls the iterator on the context unchanged,
    without touching the trace or the indices (the expression has the terms
    [indexAvailable] reads, and the depth allowed covers its size). *)
Theorem evalTerms_reference_free (fuel : nat) {St} (ctx : TopDownContext)
  (expr : opalog.Expr) (iter : TopDownIterator St) (available : bool) :
  Current ctx = Ok expr ->
  termsRefFree (exprTerms expr) = true ->
  termsSize (exprTerms expr) <= fuel ->
  indexAvailable ctx (exprTerms expr) = Ok available ->
  evalTerms (evaluator fuel) ctx iter = iter ctx.
Proof. apply evalTerms_idle. Qed.

Lemma evalTerms_reference_free_witness :
  evalTerms (evaluator 4) contextBindsX record = record contextBindsX.
Proof.
  apply (evalTerms_reference_free 4 contextBindsX bindsX record false);
    [reflexivity | reflexivity | cbn; lia | reflexivity].
Defined.

Lemma indexAvailable_three ctx op ta tb :
  exists available, indexAvailable ctx [op; ta; tb] = Ok available.
Proof.
  unfold indexAvailable. cbn [termAt nth_error res_bind].
  destruct (negb _); [eexists; reflexivity|].
  cbv zeta.
  destruct (isRef _ && negb _); [eexists; reflexivity|].
  destruct (isRef _ && negb _); eexists; reflexivity.
Qed.

(** X21.  With no tracer, evaluating a body whose current expression is an
    equality [a = b] without references is unifying the plugged operands
    and continuing with the rest of the body from each context the
    unification emits. *)
Theorem equality_without_references (fuel : nat) {St} (ctx : TopDownContext)
  (op ta tb : Term) (iter : TopDownIterator St) (w : World) (s : St) :
  CtxTracer ctx = None ->
  Current ctx = Ok (opalog.mkExpr false (opalog.TermList [op; ta; tb])) ->
  TValue op = equalityBuiltin ->
  refFree (TValue ta) = true -> refFree (TValue tb) = true ->
  size (TValue ta) + size (TValue tb) <= fuel ->
  evalContext (evaluator (S fuel)) ctx iter w s
  = evalEqUnify (evaluator (S fuel)) ctx
      (plugValue (TValue ta) (Bindings ctx))
      (plugValue (TValue tb) (Bindings ctx))
      (fun c => evalContext (evaluator fuel) (Step c) iter) w s.
Proof.
  intros Htr Hcur Hop Hfa Hfb Hsize.
  assert (Hidx : Nat.leb (List.length (Query ctx)) (Index ctx) = false).
  { apply Nat.leb_gt. apply nth_error_Some. unfold Current in Hcur.
    destruct (nth_error (Query ctx) (Index ctx)); discriminate. }
  unfold evalContext. rewrite Hidx.
  unfold traceEval, andThen. rewrite Hcur. cbn [withRes].
  rewrite trace_off by assumption. cbn [opalog.Negated].
  destruct (indexAvailable_three ctx op ta tb) as [available Hav].
  rewrite (evalTerms_idle (S fuel) ctx _ _ available Hcur).
  - unfold evalExpr. rewrite Hcur.
    cbn [withRes plugExpr opalog.Terms opalog.Negated map].
    unfold traceTry, andThen. rewrite trace_off by assumption.
    cbn [opalog.Terms withRes termAt nth_error]. rewrite Hop.
    unfold equalityBuiltin at 1. unfold builtinFunctions.
    rewrite Equal_refl. unfold evalEq.
    cbn [opalog.Terms withRes termAt nth_error]. rewrite !TValue_plugTerm.
    destruct (evalEqUnify_single (evaluator (S fuel))
                (evaluator_unifies (S fuel)) ctx
                (plugValue (TValue ta) (Bindings ctx))
                (plugValue (TValue tb) (Bindings ctx))) as (r & Hr & Hframe).
    rewrite !Hr. destruct r as [[c|]| | |]; try reflexivity.
    cbn [continueWith]. unfold traceSuccess.
    destruct (Hframe c eq_refl) as (_ & _ & _ & _ & Hc).
    rewrite trace_off by congruence. reflexivity.
  - unfold exprTerms. cbn [opalog.Terms termsRefFree forallb].
    rewrite Hop, Hfa, Hfb. reflexivity.
  - unfold exprTerms. cbn [opalog.Terms termsSize fold_right].
    rewrite Hop. cbn [size equalityBuiltin]. lia.
  - exact Hav.
Qed.

Lemma equality_without_references_witness :
  evalContext (evaluator 4) contextBindsX record emptyWorld []
  = evalEqUnify (evaluator 4) contextBindsX
      (opalog.Var "x") (opalog.Array [term (opalog.Number 1)])
      (fun c => evalContext (evaluator 3) (Step c) record) emptyWorld [].
Proof.
  apply (equality_without_references 3 contextBindsX
           (term (opalog.Var "=")) (term (opalog.Var "x"))
           (term (opalog.Array [term (opalog.Number 1)])));
    [reflexivity | reflexivity | reflexivity | reflexivity | reflexivity
    | cbn; lia].
Defined.

(** ** The groundings behind a partial-set query *)

Lemma preserves_forEach {St A} (Inv : St -> Prop) (l : list A) (f : A -> M St) :
  (forall x, In x l -> preserves Inv (f x)) -> preserves Inv (forEach l f).
Proof.
  induction l as [|x l IH]; intros H w s Hs; cbn; [assumption|].
  unfold andThen. pose proof (H x (or_introl eq_refl) w s Hs) as Hx.
  destruct (f x w s) as [[w1 s1] r]. cbn in Hx.
  destruct r; try assumption.
  apply IH; [|assumption]. intros y Hy. apply H. right. assumption.
Qed.

Lemma keyGroundings_sound fuel params rules :
  preserves (Forall (isGrounding params rules))
            (keyGroundings (evaluator fuel) params rules).
Proof.
  unfold keyGroundings. apply preserves_forEach. intros rule Hin.
  apply preserves_withRes. intros key Hkey. unfold TopDown.
  apply (evalContext_delivers anyBindings fuel (ruleContext params rule)
           Extension_any).
  intros c (Hq & Hp & Hs & Ht & Hi & _ & Hg). unfold recordKey.
  apply preserves_withRes. intros value Hvalue w found Hfound. cbn.
  apply Forall_app. split; [assumption|]. constructor; [|constructor].
  exists rule, key. cbn [fst snd]. repeat split; assumption.
Qed.

Lemma partial_set_query_recorded fuel params rules w w' found r :
  keyGroundings (evaluator fuel) params rules w [] = (w', found, r) ->
  topDownQueryPartialSetDoc (evaluator fuel) params rules w
  = (w', match r with
         | Ok _ => Ok (Document (NArray (map snd found)))
         | Err err => Err err
         | Panic msg => Panic msg
         | Diverge => Diverge
         end).
Proof.
  intros Hrec. unfold topDownQueryPartialSetDoc, query. unfold keyGroundings in Hrec.
  match goal with
  | |- context [forEach rules ?f w []] => set (f1 := f)
  end.
  match type of Hrec with
  | forEach rules ?f w [] = _ => set (f2 := f) in Hrec
  end.
  assert (Hrel : related (fun (keys : list Native)
                              (l : list (TopDownContext * Native)) =>
                            keys = map snd l)
                         (forEach rules f1) (forEach rules f2)).
  { apply related_forEach. intros rule. subst f1 f2. cbv beta. cbv zeta.
    apply related_withRes. intros key.
    unfold TopDown. fold (ruleContext params rule). apply evalContext_rel.
    - apply evaluator_parametric.
    - intros c _. unfold recordKey. apply related_withRes. intros value.
      intros w0 keys l ->. repeat split.
      rewrite map_app. reflexivity. }
  specialize (Hrel w [] [] eq_refl). rewrite Hrec in Hrel.
  destruct (forEach rules f1 w []) as [[wa ka] ra].
  destruct Hrel as (-> & -> & ->). destruct r; reflexivity.
Qed.

(** C5 (as amended).  [topDownQueryPartialSetDoc] returns the dereferenced
    keys of the satisfying groundings of the rules, one for each grounding,
    rule after rule in the order the evaluation yields them.  When the run
    that records every grounding next to its dereferenced key (and fails
    where dereferencing fails) ends with a nil error, the result is the list
    of the recorded keys, in order and with repetitions, and an error of
    that run is the error returned; every recorded grounding is a context at
    the end of the body of one of the rules, over the store of the query,
    whose bindings are ground and give the key of that rule the recorded
    value; and the list returned for [rules1 ++ rules2] is the list for
    [rules1] followed by the list for [rules2]. *)
Theorem partial_set_query_groundings (fuel : nat) (params : TopDownQueryParams) :
  (forall rules w w' found r,
     keyGroundings (evaluator fuel) params rules w [] = (w', found, r) ->
     topDownQueryPartialSetDoc (evaluator fuel) params rules w
     = (w', match r with
            | Ok _ => Ok (Document (NArray (map snd found)))
            | Err err => Err err
            | Panic msg => Panic msg
            | Diverge => Diverge
            end)
     /\ Forall (isGrounding params rules) found)
  /\ (forall rules1 rules2 w w1 w2 keys1 keys2,
        topDownQueryPartialSetDoc (evaluator fuel) params rules1 w
          = (w1, Ok (Document (NArray keys1))) ->
        topDownQueryPartialSetDoc (evaluator fuel) params rules2 w1
          = (w2, Ok (Document (NArray keys2))) ->
        topDownQueryPartialSetDoc (evaluator fuel) params (rules1 ++ rules2) w
          = (w2, Ok (Document (NArray (keys1 ++ keys2))))).
Proof.
  split.
  - intros rules w w' found r Hrec. split.
    + apply partial_set_query_recorded. assumption.
    + pose proof (keyGroundings_sound fuel params rules w []
                    (Forall_nil _)) as H.
      rewrite Hrec in H. exact H.
  - intros rules1 rules2 w w1 w2 keys1 keys2.
    apply partial_set_query_app.
Qed.

Lemma partial_set_query_groundings_witness :
  topDownQueryPartialSetDoc (evaluator 10) (paramsP storeOneTwice)
    [ruleOne; ruleOne] emptyWorld
  = (emptyWorld,
     Ok (Document (NArray (map snd [(groundingOne, NNumber 1);
                                    (groundingOne, NNumber 1)]))))
  /\ Forall (isGrounding (paramsP storeOneTwice) [ruleOne; ruleOne])
            [(groundingOne, NNumber 1); (groundingOne, NNumber 1)]
  /\ topDownQueryPartialSetDoc (evaluator 10) (paramsP storeOneTwice)
       ([ruleOne] ++ [ruleOne]) emptyWorld
     = (emptyWorld, Ok (Document (NArray ([NNumber 1] ++ [NNumber 1])))).
Proof.
  pose proof (proj1 (partial_set_query_groundings 10 (paramsP storeOneTwice))
                [ruleOne; ruleOne] emptyWorld emptyWorld
                [(groundingOne, NNumber 1); (groundingOne, NNumber 1)] (Ok tt)
                eq_refl) as [Hquery Hfound].
  split; [exact Hquery | split; [exact Hfound |]].
  apply (proj2 (partial_set_query_groundings 10 (paramsP storeOneTwice))
           [ruleOne] [ruleOne] emptyWorld emptyWorld emptyWorld
           [NNumber 1] [NNumber 1]);
    vm_compute; reflexivity.
Defined.

(** ** Lookup errors on the way up *)






